(** * MLS-MPM particle simulation: shallow embedding and checked properties

    Source: [src/js/particle-simulation.js].

    Numeric model.  The compute kernels work on 32-bit floats and the host
    (JavaScript) side on 64-bit floats.  Both are modelled here by exact
    rationals [Q]: every arithmetic operation is the exact one, without
    rounding.  The values stored in the atomic grid cells are 32-bit signed
    integers; they are modelled by [Z] with the wrap-around of [atomicAdd]
    and the saturation of the float-to-int conversion written out.
    Transcendental functions ([sin], [cos], [sqrt]) are parameters of the
    definitions that use them.

    Undefined behaviour.  A kernel that indexes a storage buffer outside of
    its bounds, or divides by zero, has no defined result; the kernels are
    therefore functions into [option], and [None] stands for such a fault. *)

From Stdlib Require Import ZArith QArith Qround Qabs Lia Lqa.
From stdpp Require Import base list option.

Local Open Scope Z_scope.

(** ** Rationals: comparison, truncation, clamp *)

Definition Qltb (a b : Q) : bool := negb (Qle_bool b a).

(** Truncation toward zero (the rounding of a float-to-int conversion). *)
Definition Qtrunc (q : Q) : Z := Z.quot (Qnum q) (Z.pos (Qden q)).

(** Rounding to the nearest integer, ties upward. *)
Definition Qround (q : Q) : Z := Qfloor (q + (1 # 2))%Q.

Definition Qmin (a b : Q) : Q := if Qle_bool a b then a else b.
Definition Qmax (a b : Q) : Q := if Qle_bool a b then b else a.

(** [clamp(x, lo, hi) = min(max(x, lo), hi)]. *)
Definition clamp (x lo hi : Q) : Q := Qmin (Qmax x lo) hi.

(** [fract(x) = x - floor(x)]. *)
Definition fract (x : Q) : Q := (x - inject_Z (Qfloor x))%Q.

(** ** 32-bit integers *)

Definition i32_min : Z := -2147483648.
Definition i32_max : Z := 2147483647.

(** Two's complement wrap-around of an integer result. *)
Definition wrap_i32 (z : Z) : Z := (z + 2147483648) mod 4294967296 - 2147483648.

(** [int(f32)]: conversion of a float to a signed 32-bit integer, rounding
    toward zero and saturating at the ends of the integer range. *)
Definition int (f32 : Q) : Z := Z.max i32_min (Z.min i32_max (Qtrunc f32)).

(** [float(i32)]. *)
Definition float (i32 : Z) : Q := inject_Z i32.

(** ** Constants of the simulation *)

Definition maxParticles : Z := 8192 * 16.
Definition gridSize1d : Z := 64.
Definition fixedPointMultiplier : Q := 10000000.

(** ** Fixed-point codec *)

Definition encodeFixedPoint (f32 : Q) : Z := int (f32 * fixedPointMultiplier)%Q.

Definition decodeFixedPoint (i32 : Z) : Q := (float i32 / fixedPointMultiplier)%Q.

(** The codec of the specification: [encode(real) = round(real * SCALE)]. *)
Definition SCALE : Q := 10000000.
Definition spec_encode (r : Q) : Z := Qround (r * SCALE)%Q.
Definition spec_decode (i : Z) : Q := (inject_Z i / SCALE)%Q.

(** A real is in the valid range of the codec when its scaled value fits a
    signed 32-bit integer. *)
Definition codec_range (r : Q) : Prop :=
  (inject_Z i32_min <= r * fixedPointMultiplier)%Q ∧
  (r * fixedPointMultiplier <= inject_Z i32_max)%Q.

(** ** Vectors and matrices *)

Record vec3 := Vec3 { v_x : Q; v_y : Q; v_z : Q }.
Record ivec3 := IVec3 { i_x : Z; i_y : Z; i_z : Z }.
Record vec4 := Vec4 { q_x : Q; q_y : Q; q_z : Q; q_w : Q }.

(** A 3x3 matrix, stored by columns. *)
Record mat3 := Mat3 { col0 : vec3; col1 : vec3; col2 : vec3 }.

Definition vec3_splat (a : Q) : vec3 := Vec3 a a a.
Definition vec3_of_ivec3 (v : ivec3) : vec3 :=
  Vec3 (float (i_x v)) (float (i_y v)) (float (i_z v)).
(** [ivec3(v)]: componentwise conversion to integers. *)
Definition ivec3_of_vec3 (v : vec3) : ivec3 :=
  IVec3 (int (v_x v)) (int (v_y v)) (int (v_z v)).

Definition vmap (f : Q → Q) (v : vec3) : vec3 := Vec3 (f (v_x v)) (f (v_y v)) (f (v_z v)).
Definition vzip (f : Q → Q → Q) (a b : vec3) : vec3 :=
  Vec3 (f (v_x a) (v_x b)) (f (v_y a) (v_y b)) (f (v_z a) (v_z b)).

Definition vadd : vec3 → vec3 → vec3 := vzip Qplus.
Definition vsub : vec3 → vec3 → vec3 := vzip Qminus.
Definition vmul : vec3 → vec3 → vec3 := vzip Qmult.
Definition vdiv : vec3 → vec3 → vec3 := vzip Qdiv.
Definition vscale (v : vec3) (a : Q) : vec3 := vmap (λ c, c * a)%Q v.
(** [a.mul(v)] for a scalar [a]. *)
Definition smulv (a : Q) (v : vec3) : vec3 := vmap (λ c, a * c)%Q v.
Definition vadds (v : vec3) (a : Q) : vec3 := vmap (λ c, c + a)%Q v.
Definition vsubs (v : vec3) (a : Q) : vec3 := vmap (λ c, c - a)%Q v.
Definition vfract : vec3 → vec3 := vmap fract.
Definition vclamp (v lo hi : vec3) : vec3 :=
  Vec3 (clamp (v_x v) (v_x lo) (v_x hi)) (clamp (v_y v) (v_y lo) (v_y hi))
       (clamp (v_z v) (v_z lo) (v_z hi)).
Definition dot (a b : vec3) : Q := (v_x a * v_x b + v_y a * v_y b + v_z a * v_z b)%Q.
Definition cross (a b : vec3) : vec3 :=
  Vec3 (v_y a * v_z b - v_z a * v_y b)%Q
       (v_z a * v_x b - v_x a * v_z b)%Q
       (v_x a * v_y b - v_y a * v_x b)%Q.

Definition iadd (a b : ivec3) : ivec3 := IVec3 (i_x a + i_x b) (i_y a + i_y b) (i_z a + i_z b).
Definition isubs (a : ivec3) (k : Z) : ivec3 := IVec3 (i_x a - k) (i_y a - k) (i_z a - k).

Definition mat3_splat (a : Q) : mat3 := Mat3 (Vec3 a 0 0) (Vec3 0 a 0) (Vec3 0 0 a).
Definition madd (a b : mat3) : mat3 :=
  Mat3 (vadd (col0 a) (col0 b)) (vadd (col1 a) (col1 b)) (vadd (col2 a) (col2 b)).
Definition mscale (m : mat3) (a : Q) : mat3 :=
  Mat3 (vscale (col0 m) a) (vscale (col1 m) a) (vscale (col2 m) a).
Definition smulm (a : Q) (m : mat3) : mat3 :=
  Mat3 (smulv a (col0 m)) (smulv a (col1 m)) (smulv a (col2 m)).
Definition transpose (m : mat3) : mat3 :=
  Mat3 (Vec3 (v_x (col0 m)) (v_x (col1 m)) (v_x (col2 m)))
       (Vec3 (v_y (col0 m)) (v_y (col1 m)) (v_y (col2 m)))
       (Vec3 (v_z (col0 m)) (v_z (col1 m)) (v_z (col2 m))).
(** Matrix times column vector. *)
Definition mmulv (m : mat3) (v : vec3) : vec3 :=
  vadd (vadd (vscale (col0 m) (v_x v)) (vscale (col1 m) (v_y v))) (vscale (col2 m) (v_z v)).

(** Division whose divisor comes from the data: no result on zero. *)
Definition fdiv (a b : Q) : option Q :=
  if Qeq_bool b 0 then None else Some (a / b)%Q.

(** ** Buffers *)

Record Particle := mkParticle {
  position : vec3;
  velocity : vec3;
  C : mat3;
  targetPosition : vec3;
}.

(** A grid cell of [cellBuffer]: four atomic signed integers. *)
Record Cell := mkCell { cell_x : Z; cell_y : Z; cell_z : Z; cell_mass : Z }.

Inductive Field := FX | FY | FZ | FMass.

#[global] Instance Field_eq_dec : EqDecision Field.
Proof. solve_decision. Defined.

Definition get (f : Field) (c : Cell) : Z :=
  match f with FX => cell_x c | FY => cell_y c | FZ => cell_z c | FMass => cell_mass c end.

Definition set (f : Field) (v : Z) (c : Cell) : Cell :=
  match f with
  | FX => mkCell v (cell_y c) (cell_z c) (cell_mass c)
  | FY => mkCell (cell_x c) v (cell_z c) (cell_mass c)
  | FZ => mkCell (cell_x c) (cell_y c) v (cell_mass c)
  | FMass => mkCell (cell_x c) (cell_y c) (cell_z c) v
  end.

(** [buf.element(i)] for a signed index: defined inside the buffer only. *)
Definition element {A} (buf : list A) (i : Z) : option A :=
  if 0 <=? i then buf !! Z.to_nat i else None.

Definition assign {A} (buf : list A) (i : Z) (a : A) : option (list A) :=
  _ ← element buf i; Some (<[Z.to_nat i := a]> buf).

Definition atomicStore (buf : list Cell) (i : Z) (f : Field) (v : Z) : option (list Cell) :=
  c ← element buf i; assign buf i (set f v c).

Definition atomicLoad (buf : list Cell) (i : Z) (f : Field) : option Z :=
  get f <$> element buf i.

(** [atomicAdd]: integer addition with wrap-around. *)
Definition atomicAdd (buf : list Cell) (i : Z) (f : Field) (v : Z) : option (list Cell) :=
  c ← element buf i; assign buf i (set f (wrap_i32 (get f c + v)) c).

Definition gridSize : ivec3 := IVec3 gridSize1d gridSize1d gridSize1d.
Definition gridSizeUniform : vec3 := vec3_of_ivec3 gridSize.
Definition cellCount : Z := i_x gridSize * i_y gridSize * i_z gridSize.

Record Uniforms := mkUniforms {
  particleCountUniform : Z;
  dynamicViscosityUniform : Q;
  dtUniform : Q;
  gravityUniform : vec3;
  mouseRayOriginUniform : vec3;
  mouseRayDirectionUniform : vec3;
  mouseForceUniform : vec3;
  timeUniform : Q;
  turbulenceStrengthUniform : Q;
  turbulenceFreqUniform : Q;
  wave2StrengthUniform : Q;
  morphProgressUniform : Q;
  currentShapeIndexUniform : Z;
  nextShapeIndexUniform : Z;
  wave2FreqUniform : Q;
  fluidStrengthUniform : Q;
}.

(** The three shape target buffers, indexed like the particle buffer. *)
Record Targets := mkTargets {
  cubeTargetBuffer : list vec3;
  coneTargetBuffer : list vec3;
  monkeyTargetBuffer : list vec3;
}.

(** [params] and [setupUniforms]. *)
Definition params_particleCount : Z := 60000.
Definition params_gravity : Q := 0.
Definition params_turbulenceStrength : Q := 1.
Definition params_turbulenceFreq : Q := 40.
Definition params_wave2Strength : Q := 35.
Definition params_wave2Freq : Q := 3 # 4.
Definition params_viscosity : Q := 1 # 2.
Definition params_fluidStrength : Q := 1.

Definition setupUniforms : Uniforms := {|
  particleCountUniform := params_particleCount;
  dynamicViscosityUniform := params_viscosity;
  dtUniform := 1 # 60;
  gravityUniform := Vec3 0 params_gravity 0;
  mouseRayOriginUniform := Vec3 0 0 0;
  mouseRayDirectionUniform := Vec3 0 0 0;
  mouseForceUniform := Vec3 0 0 0;
  timeUniform := 0;
  turbulenceStrengthUniform := params_turbulenceStrength;
  turbulenceFreqUniform := params_turbulenceFreq;
  wave2StrengthUniform := params_wave2Strength;
  morphProgressUniform := 0;
  currentShapeIndexUniform := 0;
  nextShapeIndexUniform := 1;
  wave2FreqUniform := params_wave2Freq;
  fluidStrengthUniform := params_fluidStrength;
|}.

(** ** Loops and dispatch *)

Fixpoint LoopN {St} (n : nat) (i : Z) (body : Z → St → option St) (s : St) : option St :=
  match n with
  | O => Some s
  | S n' => s' ← body i s; LoopN n' (i + 1) body s'
  end.

(** [Loop({start, end, condition: "<"}, body)]. *)
Definition Loop {St} (start end_ : Z) (body : Z → St → option St) (s : St) : option St :=
  LoopN (Z.to_nat (end_ - start)) start body s.

(** One dispatch of a kernel: the invocations run one after the other in
    the order given by the list of instance indices. *)
Fixpoint dispatch {St} (kernel : nat → St → option St) (order : list nat) (s : St) : option St :=
  match order with
  | [] => Some s
  | instanceIndex :: rest => s' ← kernel instanceIndex s; dispatch kernel rest s'
  end.

(** [renderer.compute(kernel)] with [count] invocations, in index order. *)
Definition compute {St} (kernel : nat → St → option St) (count : Z) (s : St) : option St :=
  dispatch kernel (seq 0 (Z.to_nat count)) s.

(** ** The stencil of a particle

    Every particle kernel starts with the same computation of the base cell
    and of the quadratic B-spline weights; it is written once here. *)

Definition gridPositionOf (particlePosition : vec3) : vec3 :=
  vmul particlePosition gridSizeUniform.

Definition cellIndexOf (gridPosition : vec3) : ivec3 :=
  isubs (ivec3_of_vec3 gridPosition) 1.

Definition cellDiffOf (gridPosition : vec3) : vec3 :=
  vsubs (vfract gridPosition) (1 # 2).

Definition w0 (cellDiff : vec3) : vec3 :=
  vmap (λ d, (1 # 2) * ((1 # 2) - d) * ((1 # 2) - d))%Q cellDiff.
Definition w1 (cellDiff : vec3) : vec3 :=
  vmap (λ d, (3 # 4) - d * d)%Q cellDiff.
Definition w2 (cellDiff : vec3) : vec3 :=
  vmap (λ d, (1 # 2) * ((1 # 2) + d) * ((1 # 2) + d))%Q cellDiff.

(** [weights.element(g)] of [weights = array([w0, w1, w2])]. *)
Definition weights (cellDiff : vec3) (g : Z) : vec3 :=
  match g with
  | 0 => w0 cellDiff
  | 1 => w1 cellDiff
  | _ => w2 cellDiff
  end.

Definition weightOf (cellDiff : vec3) (gx gy gz : Z) : Q :=
  (v_x (weights cellDiff gx) * v_y (weights cellDiff gy) * v_z (weights cellDiff gz))%Q.

Definition cellPtrOf (cellX : ivec3) : Z :=
  i_x cellX * (i_y gridSize * i_z gridSize) + i_y cellX * i_z gridSize + i_z cellX.

Definition cellDistOf (cellX : ivec3) (gridPosition : vec3) : vec3 :=
  vsub (vadds (vec3_of_ivec3 cellX) (1 # 2)) gridPosition.

(** ** Compute kernels *)

Definition clearGridKernel (instanceIndex : nat) (cellBuffer : list Cell) : option (list Cell) :=
  if Z.of_nat instanceIndex >=? cellCount then Some cellBuffer else
  let i := Z.of_nat instanceIndex in
  cellBuffer ← atomicStore cellBuffer i FX 0;
  cellBuffer ← atomicStore cellBuffer i FY 0;
  cellBuffer ← atomicStore cellBuffer i FZ 0;
  atomicStore cellBuffer i FMass 0.

Definition p2g1Kernel (u : Uniforms) (particleBuffer : list Particle)
    (instanceIndex : nat) (cellBuffer : list Cell) : option (list Cell) :=
  if Z.of_nat instanceIndex >=? particleCountUniform u then Some cellBuffer else
  p ← particleBuffer !! instanceIndex;
  let particlePosition := position p in
  let particleVelocity := velocity p in
  let C := C p in
  let gridPosition := gridPositionOf particlePosition in
  let cellIndex := cellIndexOf gridPosition in
  let cellDiff := cellDiffOf gridPosition in
  Loop 0 3 (λ gx, Loop 0 3 (λ gy, Loop 0 3 (λ gz cellBuffer,
    let weight := weightOf cellDiff gx gy gz in
    let cellX := iadd cellIndex (IVec3 gx gy gz) in
    let cellDist := cellDistOf cellX gridPosition in
    let Qv := mmulv C cellDist in
    let massContrib := weight in
    let velContrib := smulv massContrib (vadd particleVelocity Qv) in
    let cellPtr := cellPtrOf cellX in
    cellBuffer ← atomicAdd cellBuffer cellPtr FX (encodeFixedPoint (v_x velContrib));
    cellBuffer ← atomicAdd cellBuffer cellPtr FY (encodeFixedPoint (v_y velContrib));
    cellBuffer ← atomicAdd cellBuffer cellPtr FZ (encodeFixedPoint (v_z velContrib));
    atomicAdd cellBuffer cellPtr FMass (encodeFixedPoint massContrib)))) cellBuffer.

(** The first loop of P2G2: the density seen by a particle. *)
Definition p2g2Density (cellBuffer : list Cell) (cellIndex : ivec3) (cellDiff : vec3)
    : option Q :=
  Loop 0 3 (λ gx, Loop 0 3 (λ gy, Loop 0 3 (λ gz density,
    let weight := weightOf cellDiff gx gy gz in
    let cellX := iadd cellIndex (IVec3 gx gy gz) in
    let cellPtr := cellPtrOf cellX in
    mass ← decodeFixedPoint <$> atomicLoad cellBuffer cellPtr FMass;
    Some (density + mass * weight)%Q))) 0%Q.

Definition p2g2Kernel (u : Uniforms) (particleBuffer : list Particle)
    (instanceIndex : nat) (cellBuffer : list Cell) : option (list Cell) :=
  if Z.of_nat instanceIndex >=? particleCountUniform u then Some cellBuffer else
  p ← particleBuffer !! instanceIndex;
  let particlePosition := position p in
  let gridPosition := gridPositionOf particlePosition in
  let cellIndex := cellIndexOf gridPosition in
  let cellDiff := cellDiffOf gridPosition in
  density ← p2g2Density cellBuffer cellIndex cellDiff;
  volume ← fdiv 1 density;
  let pressure := 0%Q in
  let stress := mat3_splat (- pressure) in
  let dudv := C p in
  let strain := madd dudv (transpose dudv) in
  let stress := madd stress (mscale strain (dynamicViscosityUniform u)) in
  let eq16Term0 := mscale (smulm (volume * -4) stress) (dtUniform u) in
  Loop 0 3 (λ gx, Loop 0 3 (λ gy, Loop 0 3 (λ gz cellBuffer,
    let weight := weightOf cellDiff gx gy gz in
    let cellX := iadd cellIndex (IVec3 gx gy gz) in
    let cellDist := cellDistOf cellX gridPosition in
    let momentum := mmulv (mscale eq16Term0 weight) cellDist in
    let cellPtr := cellPtrOf cellX in
    cellBuffer ← atomicAdd cellBuffer cellPtr FX (encodeFixedPoint (v_x momentum));
    cellBuffer ← atomicAdd cellBuffer cellPtr FY (encodeFixedPoint (v_y momentum));
    atomicAdd cellBuffer cellPtr FZ (encodeFixedPoint (v_z momentum))))) cellBuffer.

Definition updateGridKernel (cellBuffer : list Cell)
    (instanceIndex : nat) (cellBufferFloat : list vec4) : option (list vec4) :=
  if Z.of_nat instanceIndex >=? cellCount then Some cellBufferFloat else
  let i := Z.of_nat instanceIndex in
  mass ← decodeFixedPoint <$> atomicLoad cellBuffer i FMass;
  if Qle_bool mass 0 then Some cellBufferFloat else
  vx ← (x ← atomicLoad cellBuffer i FX; fdiv (decodeFixedPoint x) mass);
  vy ← (y ← atomicLoad cellBuffer i FY; fdiv (decodeFixedPoint y) mass);
  vz ← (z ← atomicLoad cellBuffer i FZ; fdiv (decodeFixedPoint z) mass);
  let x := Z.quot i (i_z gridSize * i_y gridSize) in
  let y := Z.rem (Z.quot i (i_z gridSize)) (i_y gridSize) in
  let z := Z.rem i (i_z gridSize) in
  let vx := if (x <? 1) || (x >? i_x gridSize - 2) then 0%Q else vx in
  let vy := if (y <? 1) || (y >? i_y gridSize - 2) then 0%Q else vy in
  let vz := if (z <? 1) || (z >? i_z gridSize - 2) then 0%Q else vz in
  assign cellBufferFloat i (Vec4 vx vy vz mass).

Section Transcendental.

(** The functions the model does not compute. *)
Variables (sin cos sqrt : Q → Q).

Definition vlength (v : vec3) : Q := sqrt (dot v v).

(** [normalize(v) = v / length(v)]. *)
Definition normalize (v : vec3) : option vec3 :=
  let len := vlength v in
  x ← fdiv (v_x v) len; y ← fdiv (v_y v) len; z ← fdiv (v_z v) len;
  Some (Vec3 x y z).

Definition g2pKernel (u : Uniforms) (targets : Targets) (cellBufferFloat : list vec4)
    (instanceIndex : nat) (particleBuffer : list Particle) : option (list Particle) :=
  if Z.of_nat instanceIndex >=? particleCountUniform u then Some particleBuffer else
  p ← particleBuffer !! instanceIndex;
  let particlePosition := position p in
  let gridPosition := gridPositionOf particlePosition in
  let cellIndex := cellIndexOf gridPosition in
  let cellDiff := cellDiffOf gridPosition in
  '(B, particleVelocity) ←
    Loop 0 3 (λ gx, Loop 0 3 (λ gy, Loop 0 3 (λ gz '(B, particleVelocity),
      let weight := weightOf cellDiff gx gy gz in
      let cellX := iadd cellIndex (IVec3 gx gy gz) in
      let cellDist := cellDistOf cellX gridPosition in
      let cellPtr := cellPtrOf cellX in
      c ← element cellBufferFloat cellPtr;
      let weightedVelocity := vscale (Vec3 (q_x c) (q_y c) (q_z c)) weight in
      let term := Mat3 (vscale weightedVelocity (v_x cellDist))
                       (vscale weightedVelocity (v_y cellDist))
                       (vscale weightedVelocity (v_z cellDist)) in
      Some (madd B term,
            vadd particleVelocity (vscale weightedVelocity (fluidStrengthUniform u))))))
      (mat3_splat 0, vec3_splat 0);
  let C' := mscale (mscale B 4) (fluidStrengthUniform u) in
  let particleVelocity := vadd particleVelocity (vscale (gravityUniform u) (dtUniform u)) in
  let particleVelocity := vdiv particleVelocity gridSizeUniform in
  cubeTarget ← cubeTargetBuffer targets !! instanceIndex;
  coneTarget ← coneTargetBuffer targets !! instanceIndex;
  monkeyTarget ← monkeyTargetBuffer targets !! instanceIndex;
  let currentTarget :=
    if currentShapeIndexUniform u =? 0 then cubeTarget
    else if currentShapeIndexUniform u =? 1 then coneTarget
    else monkeyTarget in
  let nextTarget :=
    if nextShapeIndexUniform u =? 0 then cubeTarget
    else if nextShapeIndexUniform u =? 1 then coneTarget
    else monkeyTarget in
  let targetPos :=
    vadd currentTarget (vscale (vsub nextTarget currentTarget) (morphProgressUniform u)) in
  let toTarget := vsub targetPos particlePosition in
  let springStrength := 200%Q in
  let springForce := vscale toTarget springStrength in
  let particleVelocity := vadd particleVelocity (vscale springForce (dtUniform u)) in
  let damping := (85 # 100)%Q in
  let particleVelocity := vscale particleVelocity damping in
  let pos := vscale particlePosition (turbulenceFreqUniform u) in
  let t := timeUniform u in
  let wave1X := (sin (v_y pos + t) * cos (v_z pos + t * (13 # 10)))%Q in
  let wave1Y := (sin (v_z pos + t * (11 # 10)) * cos (v_x pos + t * (9 # 10)))%Q in
  let wave1Z := (sin (v_x pos + t * (8 # 10)) * cos (v_y pos + t * (12 # 10)))%Q in
  let wave1 := vscale (Vec3 wave1X wave1Y wave1Z) (turbulenceStrengthUniform u) in
  let particleVelocity := vadd particleVelocity (vscale wave1 (dtUniform u)) in
  let w := timeUniform u in
  let pos2 := vadd (vscale particlePosition (wave2FreqUniform u)) (Vec3 0 (w * (1 # 2)) 0) in
  let noiseScale := 10%Q in
  let n1 := (sin (v_x pos2 * noiseScale)
             * cos (v_y pos2 * (noiseScale * (11 # 10)))
             * sin (v_z pos2 * (noiseScale * (9 # 10))))%Q in
  let n2 := (sin (v_y pos2 * (noiseScale * (12 # 10)))
             * cos (v_z pos2 * (noiseScale * (8 # 10)))
             * sin (v_x pos2 * (noiseScale * (13 # 10))))%Q in
  let n3 := (sin (v_z pos2 * (noiseScale * (95 # 100)))
             * cos (v_x pos2 * (noiseScale * (115 # 100)))
             * sin (v_y pos2 * (noiseScale * (105 # 100))))%Q in
  let curlX := (n3 - n2)%Q in
  let curlY := (n1 - n3 + (3 # 10))%Q in
  let curlZ := (n2 - n1)%Q in
  direction ← normalize (Vec3 curlX curlY curlZ);
  let smokeFlow := vscale direction (wave2StrengthUniform u) in
  let morphTurbulence := (1 - morphProgressUniform u)%Q in
  let particleVelocity :=
    vadd particleVelocity (vscale (vscale smokeFlow (dtUniform u)) morphTurbulence) in
  let dist :=
    vlength (cross (mouseRayDirectionUniform u)
                   (vsub particlePosition (mouseRayOriginUniform u))) in
  let force := (let b := Qmax (1 - dist * 4) 0 in b * b * b)%Q in
  let particleVelocity := vadd particleVelocity (vscale (mouseForceUniform u) force) in
  let particlePosition := vadd particlePosition (vscale particleVelocity (dtUniform u)) in
  let particlePosition :=
    vclamp particlePosition
      (vdiv (vec3_splat (1 # 2)) gridSizeUniform)
      (vdiv (vsubs (vec3_of_ivec3 gridSize) 1) gridSizeUniform) in
  let particleVelocity := vmul particleVelocity gridSizeUniform in
  assign particleBuffer (Z.of_nat instanceIndex)
    (mkParticle particlePosition particleVelocity C' (targetPosition p)).

(** *** Host side: morph state and pointer force *)

(** The pointer force of [render]. *)
Definition pointerForce (mouseCoord prevMouseCoord : vec3) : vec3 :=
  let mouseForce := vscale (vsub mouseCoord prevMouseCoord) 10 in
  let mouseForceLength := vlength mouseForce in
  if Qltb (3 # 10) mouseForceLength
  then vscale mouseForce (10 / mouseForceLength)
  else mouseForce.

End Transcendental.

Record MorphState := mkMorph {
  currentShapeIndex : Z;
  nextShapeIndex : Z;
  morphProgress : Q;
  autoMorphRotation : Q;
}.

Definition morphDuration : Q := 3 # 10.

(** [Math.PI * 2], as the 64-bit float it is. *)
Definition fullRotation : Q := 884279719003555 # 140737488355328.

(** The state the module is loaded with. *)
Definition initialMorph : MorphState :=
  {| currentShapeIndex := 0; nextShapeIndex := 1; morphProgress := 0;
     autoMorphRotation := 0 |}.

Definition startMorph (s : MorphState) : MorphState :=
  {| currentShapeIndex := currentShapeIndex s;
     nextShapeIndex := Z.rem (currentShapeIndex s + 1) 3;
     morphProgress := 0;
     autoMorphRotation := autoMorphRotation s |}.

Definition updateMorphing (deltaTime rotationDelta : Q) (s : MorphState) : MorphState :=
  let s := {| currentShapeIndex := currentShapeIndex s;
              nextShapeIndex := nextShapeIndex s;
              morphProgress := morphProgress s;
              autoMorphRotation := autoMorphRotation s + rotationDelta |} in
  let s :=
    if Qle_bool fullRotation (autoMorphRotation s)
    then startMorph {| currentShapeIndex := currentShapeIndex s;
                       nextShapeIndex := nextShapeIndex s;
                       morphProgress := morphProgress s;
                       autoMorphRotation := 0 |}
    else s in
  if Qltb (morphProgress s) 1 then
    let progress := (morphProgress s + deltaTime / morphDuration)%Q in
    if Qle_bool 1 progress
    then {| currentShapeIndex := nextShapeIndex s;
            nextShapeIndex := nextShapeIndex s;
            morphProgress := 1;
            autoMorphRotation := autoMorphRotation s |}
    else {| currentShapeIndex := currentShapeIndex s;
            nextShapeIndex := nextShapeIndex s;
            morphProgress := progress;
            autoMorphRotation := autoMorphRotation s |}
  else s.

(** The time step of [render]: the clock delta clamped to [1e-5, 1/60]. *)
Definition frameDeltaTime (clockDelta : Q) : Q := clamp clockDelta (1 # 100000) (1 # 60).

(** The morph part of one [render] call. *)
Definition renderMorph (clockDelta : Q) (s : MorphState) : MorphState :=
  let deltaTime := frameDeltaTime clockDelta in
  let rotationThisFrame := (deltaTime * 1)%Q in
  updateMorphing deltaTime rotationThisFrame s.

(** Does the rotation accumulator reach a full turn in this frame? *)
Definition morphTriggered (clockDelta : Q) (s : MorphState) : bool :=
  Qle_bool fullRotation (autoMorphRotation s + frameDeltaTime clockDelta * 1)%Q.

(** A run of frames, given the clock delta of each. *)
Definition renderFrames (clockDeltas : list Q) (s : MorphState) : MorphState :=
  foldl (λ s d, renderMorph d s) s clockDeltas.

(** Number of frames of a run in which a morph was triggered. *)
Fixpoint triggerCount (clockDeltas : list Q) (s : MorphState) : nat :=
  match clockDeltas with
  | [] => O
  | d :: rest =>
      ((if morphTriggered d s then 1 else 0) + triggerCount rest (renderMorph d s))%nat
  end.

(** Simulated time of a run. *)
Definition simulatedTime (clockDeltas : list Q) : Q :=
  foldr (λ d acc, frameDeltaTime d + acc)%Q 0%Q clockDeltas.

(** ** One frame *)

Record Host := mkHost {
  morph : MorphState;
  mouseCoord : vec3;
  prevMouseCoord : vec3;
  uniforms : Uniforms;
}.

Record Gpu := mkGpu {
  gpu_particleBuffer : list Particle;
  gpu_cellBuffer : list Cell;
  gpu_cellBufferFloat : list vec4;
}.

(** The host part of [render]: time step, morph state, uniforms, pointer
    force.  [mouseCoord] is written by the pointer-move handler between
    frames. *)
Definition renderHost (sqrt : Q → Q) (clockDelta elapsedTime : Q) (h : Host) : Host :=
  let deltaTime := frameDeltaTime clockDelta in
  let m := renderMorph clockDelta (morph h) in
  let u := uniforms h in
  {| morph := m;
     mouseCoord := mouseCoord h;
     prevMouseCoord := mouseCoord h;
     uniforms := {|
       particleCountUniform := particleCountUniform u;
       dynamicViscosityUniform := dynamicViscosityUniform u;
       dtUniform := deltaTime;
       gravityUniform := gravityUniform u;
       mouseRayOriginUniform := mouseRayOriginUniform u;
       mouseRayDirectionUniform := mouseRayDirectionUniform u;
       mouseForceUniform := pointerForce sqrt (mouseCoord h) (prevMouseCoord h);
       timeUniform := elapsedTime;
       turbulenceStrengthUniform := turbulenceStrengthUniform u;
       turbulenceFreqUniform := turbulenceFreqUniform u;
       wave2StrengthUniform := wave2StrengthUniform u;
       morphProgressUniform := morphProgress m;
       currentShapeIndexUniform := currentShapeIndex m;
       nextShapeIndexUniform := nextShapeIndex m;
       wave2FreqUniform := wave2FreqUniform u;
       fluidStrengthUniform := fluidStrengthUniform u |} |}.

(** The five compute passes of [render], each a full dispatch. *)
Definition renderCompute (sin cos sqrt : Q → Q) (u : Uniforms) (targets : Targets)
    (g : Gpu) : option Gpu :=
  cb ← compute clearGridKernel cellCount (gpu_cellBuffer g);
  cb ← compute (p2g1Kernel u (gpu_particleBuffer g)) params_particleCount cb;
  cb ← compute (p2g2Kernel u (gpu_particleBuffer g)) params_particleCount cb;
  fb ← compute (updateGridKernel cb) cellCount (gpu_cellBufferFloat g);
  pb ← compute (g2pKernel sin cos sqrt u targets fb) params_particleCount
         (gpu_particleBuffer g);
  Some (mkGpu pb cb fb).

Definition render (sin cos sqrt : Q → Q) (targets : Targets)
    (clockDelta elapsedTime : Q) (hg : Host * Gpu) : option (Host * Gpu) :=
  let h := renderHost sqrt clockDelta elapsedTime (hg.1) in
  g ← renderCompute sin cos sqrt (uniforms h) targets (hg.2);
  Some (h, g).

(** ** Auxiliary definitions for the statements *)

(** A square root on the rationals that is exact on the squares of
    rationals (and rounds numerator and denominator down elsewhere); it
    instantiates the [sqrt] parameter in the examples. *)
Definition sqrt_on_squares (q : Q) : Q :=
  Z.sqrt (Qnum (Qred q)) # Pos.sqrt (Qden (Qred q)).

(** The displacement scaled by ten, before the length test. *)
Definition scaledDisplacement (mouseCoord prevMouseCoord : vec3) : vec3 :=
  vscale (vsub mouseCoord prevMouseCoord) 10.

(** The grid update of the specification for the cell at lattice
    coordinates [(x, y, z)]: momentum over mass, with the component of every
    axis on which the cell lies in the outermost border set to zero. *)
Definition spec_boundaryVelocity (coord size : Z) (v : Q) : Q :=
  if decide (coord < 1 ∨ coord > size - 2) then 0%Q else v.

Definition spec_gridUpdate (x y z : Z) (cell : Cell) : vec4 :=
  let mass := decodeFixedPoint (cell_mass cell) in
  Vec4 (spec_boundaryVelocity x (i_x gridSize) (decodeFixedPoint (cell_x cell) / mass)%Q)
       (spec_boundaryVelocity y (i_y gridSize) (decodeFixedPoint (cell_y cell) / mass)%Q)
       (spec_boundaryVelocity z (i_z gridSize) (decodeFixedPoint (cell_z cell) / mass)%Q)
       mass.

(** Invariant of the morph state after [k] triggered morphs: the next shape
    is shape [k + 1] in the cycle; either the morph is complete and the
    current shape is the next one, or it is under way from shape [k] and
    began no earlier than the rotation accumulator was last at zero. *)
Definition morph_inv (k : nat) (s : MorphState) : Prop :=
  nextShapeIndex s = (Z.of_nat k + 1) mod 3 ∧
  ((morphProgress s = 1%Q ∧ currentShapeIndex s = nextShapeIndex s) ∨
   ((morphProgress s < 1)%Q ∧ currentShapeIndex s = Z.of_nat k mod 3 ∧
    (autoMorphRotation s <= morphDuration * morphProgress s)%Q)).

(** State of the first morph at simulated time [T]. *)
Definition first_morph_at (T : Q) (s : MorphState) : Prop :=
  (autoMorphRotation s == T)%Q ∧ nextShapeIndex s = 1 ∧
  (((T < morphDuration)%Q ∧ currentShapeIndex s = 0 ∧
    (morphProgress s == T / morphDuration)%Q) ∨
   ((morphDuration <= T)%Q ∧ currentShapeIndex s = 1 ∧ morphProgress s = 1%Q)).

(** Executable stand-ins for the sine and cosine, used to run the kernels in
    the examples: Bhaskara's rational approximation of the sine on
    [[0, pi]], extended by symmetry and periodicity, with [355 / 113] for
    [pi]. *)
Definition pi_approx : Q := 355 # 113.

Definition sin_approx (x : Q) : Q :=
  let turns := (x / (2 * pi_approx))%Q in
  let a := ((turns - inject_Z (Qfloor turns)) * (2 * pi_approx))%Q in
  let half (b : Q) : Q :=
    (16 * b * (pi_approx - b)
     / (5 * pi_approx * pi_approx - 4 * b * (pi_approx - b)))%Q in
  Qred (if Qle_bool a pi_approx then half a else - half (a - pi_approx))%Q.

Definition cos_approx (x : Q) : Q := sin_approx (x + pi_approx / 2)%Q.

(** The bounds of the position clamp of G2P. *)
Definition clampMin : vec3 := vdiv (vec3_splat (1 # 2)) gridSizeUniform.
Definition clampMax : vec3 := vdiv (vsubs (vec3_of_ivec3 gridSize) 1) gridSizeUniform.

(** Componentwise [lo <= v <= hi]. *)
Definition within (v lo hi : vec3) : Prop :=
  ((v_x lo <= v_x v)%Q ∧ (v_x v <= v_x hi)%Q) ∧
  ((v_y lo <= v_y v)%Q ∧ (v_y v <= v_y hi)%Q) ∧
  ((v_z lo <= v_z v)%Q ∧ (v_z v <= v_z hi)%Q).

(** Inputs of the examples: the uniforms of a frame in which the morph to
    shape 1 is complete and the pointer has not moved, a float grid at rest,
    and one particle resting at its target close to the upper [z] wall. *)
Definition example_uniforms : Uniforms := {|
  particleCountUniform := params_particleCount;
  dynamicViscosityUniform := params_viscosity;
  dtUniform := 1 # 60;
  gravityUniform := Vec3 0 params_gravity 0;
  mouseRayOriginUniform := Vec3 0 0 0;
  mouseRayDirectionUniform := Vec3 0 0 0;
  mouseForceUniform := Vec3 0 0 0;
  timeUniform := 1;
  turbulenceStrengthUniform := params_turbulenceStrength;
  turbulenceFreqUniform := params_turbulenceFreq;
  wave2StrengthUniform := params_wave2Strength;
  morphProgressUniform := 1;
  currentShapeIndexUniform := 1;
  nextShapeIndexUniform := 1;
  wave2FreqUniform := params_wave2Freq;
  fluidStrengthUniform := params_fluidStrength;
|}.

Definition example_position : vec3 := Vec3 (3 # 128) (3 # 128) (49 # 50).

Definition example_particle : Particle :=
  mkParticle example_position (Vec3 0 0 0) (mat3_splat 0) example_position.

Definition example_targets : Targets :=
  mkTargets [example_position] [example_position] [example_position].

Definition example_floatGrid : list vec4 := replicate (Z.to_nat 8384) (Vec4 0 0 0 0).

(** ** Scatter operations

    The atomic additions of a kernel invocation, as a list: cell index,
    field and addend of each, in program order. *)

Fixpoint foldM {A St} (f : A → St → option St) (l : list A) (s : St) : option St :=
  match l with
  | [] => Some s
  | a :: rest => s' ← f a s; foldM f rest s'
  end.

Definition Op : Type := Z * Field * Z.

Definition applyOp (op : Op) (cellBuffer : list Cell) : option (list Cell) :=
  atomicAdd cellBuffer op.1.1 op.1.2 op.2.

Definition applyOps (ops : list Op) (cellBuffer : list Cell) : option (list Cell) :=
  foldM applyOp ops cellBuffer.

(** The offsets [(gx, gy, gz)] of the 27 cells of a stencil, in loop order. *)
Definition stencilOffsets : list ivec3 :=
  flat_map (λ gx, flat_map (λ gy, map (λ gz, IVec3 gx gy gz) (seqZ 0 3)) (seqZ 0 3))
    (seqZ 0 3).

(** Weight and cell index of the stencil cell at offset [g] of a particle. *)
Definition stencilWeight (p : Particle) (g : ivec3) : Q :=
  weightOf (cellDiffOf (gridPositionOf (position p))) (i_x g) (i_y g) (i_z g).

Definition stencilPtr (p : Particle) (g : ivec3) : Z :=
  cellPtrOf (iadd (cellIndexOf (gridPositionOf (position p))) g).

(** The additions of one iteration of the P2G1 loops. *)
Definition p2g1CellOps (p : Particle) (g : ivec3) : list Op :=
  let gridPosition := gridPositionOf (position p) in
  let cellX := iadd (cellIndexOf gridPosition) g in
  let cellDist := cellDistOf cellX gridPosition in
  let velContrib := smulv (stencilWeight p g) (vadd (velocity p) (mmulv (C p) cellDist)) in
  [ (stencilPtr p g, FX, encodeFixedPoint (v_x velContrib));
    (stencilPtr p g, FY, encodeFixedPoint (v_y velContrib));
    (stencilPtr p g, FZ, encodeFixedPoint (v_z velContrib));
    (stencilPtr p g, FMass, encodeFixedPoint (stencilWeight p g)) ].

Definition p2g1Ops (p : Particle) : list Op := flat_map (p2g1CellOps p) stencilOffsets.

(** The additions of one iteration of the second loops of P2G2. *)
Definition p2g2CellOps (u : Uniforms) (p : Particle) (volume : Q) (g : ivec3) : list Op :=
  let gridPosition := gridPositionOf (position p) in
  let cellX := iadd (cellIndexOf gridPosition) g in
  let cellDist := cellDistOf cellX gridPosition in
  let strain := madd (C p) (transpose (C p)) in
  let stress := madd (mat3_splat (- 0)) (mscale strain (dynamicViscosityUniform u)) in
  let eq16Term0 := mscale (smulm (volume * -4) stress) (dtUniform u) in
  let momentum := mmulv (mscale eq16Term0 (stencilWeight p g)) cellDist in
  [ (stencilPtr p g, FX, encodeFixedPoint (v_x momentum));
    (stencilPtr p g, FY, encodeFixedPoint (v_y momentum));
    (stencilPtr p g, FZ, encodeFixedPoint (v_z momentum)) ].

Definition p2g2Ops (u : Uniforms) (p : Particle) (volume : Q) : list Op :=
  flat_map (p2g2CellOps u p volume) stencilOffsets.

(** The density sum of P2G2 over the stencil, for given cell masses. *)
Definition densityOf (mass : Z → Z) (p : Particle) : Q :=
  foldl (λ density g, density + decodeFixedPoint (mass (stencilPtr p g)) * stencilWeight p g)%Q
    0%Q stencilOffsets.

(** The density a particle would see from its own deposits alone. *)
Definition ownDensity (p : Particle) : Q :=
  foldl (λ density g,
           density + decodeFixedPoint (encodeFixedPoint (stencilWeight p g))
                     * stencilWeight p g)%Q
    0%Q stencilOffsets.

(** Sum of the addends that a list of operations sends to a field of a cell. *)
Definition depositAt (ops : list Op) (ptr : Z) (f : Field) : Z :=
  foldr (λ op acc,
           if decide (op.1.1 = ptr ∧ op.1.2 = f) then op.2 + acc else acc) 0 ops.

(** The operations of a P2G1 pass over the particles [order]. *)
Definition activeParticles (u : Uniforms) (particleBuffer : list Particle)
    (order : list nat) : list Particle :=
  omap (λ i, if Z.of_nat i >=? particleCountUniform u then None
             else particleBuffer !! i) order.

Definition p2g1PassOps (u : Uniforms) (particleBuffer : list Particle)
    (order : list nat) : list Op :=
  flat_map p2g1Ops (activeParticles u particleBuffer order).

(** No cell accumulates more mass than a signed 32-bit integer holds
    (the cells to look at are those some operation points to). *)
Definition massFits (ops : list Op) : Prop :=
  Forall (λ op : Op, depositAt ops op.1.1 FMass ≤ i32_max) ops.


(** The grid as [clearGridKernel] leaves it. *)
Definition clearedGrid : list Cell := replicate (Z.to_nat cellCount) (mkCell 0 0 0 0).

(** Sum over all cells of the decoded mass. *)
Definition totalMass (cellBuffer : list Cell) : Q :=
  foldr (λ c acc, decodeFixedPoint (cell_mass c) + acc)%Q 0%Q cellBuffer.

(** A particle whose stencil lies inside the grid on every axis. *)
Definition interior (p : Particle) : Prop :=
  within (position p)
    (vec3_splat (1 / inject_Z gridSize1d))
    (vec3_splat ((inject_Z gridSize1d - 1) / inject_Z gridSize1d)) ∧
  (v_x (position p) < (inject_Z gridSize1d - 1) / inject_Z gridSize1d)%Q ∧
  (v_y (position p) < (inject_Z gridSize1d - 1) / inject_Z gridSize1d)%Q ∧
  (v_z (position p) < (inject_Z gridSize1d - 1) / inject_Z gridSize1d)%Q.

(** Every active particle of the pass is in the buffer, with its stencil
    inside the grid. *)
Definition activeInterior (u : Uniforms) (particleBuffer : list Particle)
    (order : list nat) : Prop :=
  Forall (λ i : nat, Z.of_nat i < particleCountUniform u →
                     ∃ p : Particle, particleBuffer !! i = Some p ∧ interior p) order.

(** The additions an invocation of P2G1 performs: none when the instance
    is not an active particle. *)
Definition p2g1Contrib (u : Uniforms) (particleBuffer : list Particle)
    (instanceIndex : nat) : option (list Op) :=
  if Z.of_nat instanceIndex >=? particleCountUniform u then Some []
  else p ← particleBuffer !! instanceIndex; Some (p2g1Ops p).

(** The additions an invocation of P2G2 performs on a given grid. *)
Definition p2g2Contrib (u : Uniforms) (particleBuffer : list Particle)
    (instanceIndex : nat) (cellBuffer : list Cell) : option (list Op) :=
  if Z.of_nat instanceIndex >=? particleCountUniform u then Some []
  else
    p ← particleBuffer !! instanceIndex;
    density ← p2g2Density cellBuffer (cellIndexOf (gridPositionOf (position p)))
                (cellDiffOf (gridPositionOf (position p)));
    volume ← fdiv 1 density;
    Some (p2g2Ops u p volume).

(** A second example particle, moving and shearing, next to the first; and
    a cleared grid long enough for the stencils of both. *)
Definition example_particle2 : Particle :=
  mkParticle (Vec3 (7 # 256) (3 # 128) (123 # 128)) (Vec3 (1 # 2) (-1 # 3) 2)
    (Mat3 (Vec3 1 0 (1 # 2)) (Vec3 0 (-1) 0) (Vec3 (1 # 4) 0 0))
    (Vec3 (7 # 256) (3 # 128) (123 # 128)).

Definition example_particles : list Particle := [example_particle; example_particle2].

Definition example_grid : list Cell := replicate (Z.to_nat 8384) (mkCell 0 0 0 0).

Definition sumZ (l : list Z) : Z := foldr Z.add 0 l.
Definition sumQ (l : list Q) : Q := foldr Qplus 0%Q l.

(** Sum of all the addends that a list of operations sends to mass fields. *)
Definition massTotal (ops : list Op) : Z :=
  foldr (λ op acc, if decide (op.1.2 = FMass) then op.2 + acc else acc) 0 ops.

(** Particles at rest on the bounds of the position clamp of G2P: on the
    lower bound along [x], and on the upper bound along every axis. *)
Definition lowerBoundParticle : Particle :=
  mkParticle (Vec3 (1 # 128) (1 # 2) (1 # 2)) (Vec3 0 0 0) (mat3_splat 0)
    (Vec3 (1 # 128) (1 # 2) (1 # 2)).

Definition upperBoundParticle : Particle :=
  mkParticle (Vec3 (63 # 64) (63 # 64) (63 # 64)) (Vec3 0 0 0) (mat3_splat 0)
    (Vec3 (63 # 64) (63 # 64) (63 # 64)).

(** Every field of the cell is a signed 32-bit integer. *)
Definition cell_ok (c : Cell) : Prop := ∀ f : Field, i32_min ≤ get f c ≤ i32_max.

(** The mass stored in a cell of the buffer (zero outside of it). *)
Definition massOf (cellBuffer : list Cell) (ptr : Z) : Z :=
  match atomicLoad cellBuffer ptr FMass with Some m => m | None => 0 end.

(** ** Host side: the models, the mesh rotation and the render path *)

(** [Math.PI], as the 64-bit float it is. *)
Definition Math_PI : Q := 884279719003555 # 281474976710656.

(** A model container ([THREE.Group]): its rotation about the vertical
    axis and its visibility; nothing else of it is written by the frame. *)
Record Container := mkContainer { rotation_y : Q; visible : bool }.

(** The state [updateModels] works on.  [containers] is the array
    [[window.monitorContainer, window.mobileContainer, window.vrContainer]];
    an entry is [None] while the container is undefined. *)
Record Models := mkModels {
  containers : list (option Container);
  currentModelThresholdUniform : Q;
  nextModelThresholdUniform : Q;
  glitchIntensity : Q;
}.

(** [if (containers[i]) containers[i].visible = v]. *)
Definition setVisible (i : Z) (v : bool) (cs : list (option Container))
    : list (option Container) :=
  match element cs i with
  | Some (Some c) => <[Z.to_nat i := Some (mkContainer (rotation_y c) v)]> cs
  | _ => cs
  end.

Definition updateModels (meshRotationY : Q) (m : MorphState) (s : Models) : Models :=
  let containers :=
    fmap (M := list)
      (fmap (M := option) (λ c, mkContainer (meshRotationY + Math_PI) (visible c)))
      (containers s) in
  if Qltb (morphProgress m) 1 then
    let containers := setVisible (currentShapeIndex m) true containers in
    let containers := setVisible (nextShapeIndex m) true containers in
    let otherIndex :=
      find (λ i, negb (i =? currentShapeIndex m) && negb (i =? nextShapeIndex m))
        [0; 1; 2] in
    let containers :=
      match otherIndex with
      | Some i => setVisible i false containers
      | None => containers
      end in
    {| containers := containers;
       currentModelThresholdUniform := morphProgress m;
       nextModelThresholdUniform := 1 - morphProgress m;
       glitchIntensity := 1 - Qabs (morphProgress m - (1 # 2)) * 2 |}
  else
    {| containers :=
         imap (λ index,
                 fmap (M := option)
                   (λ c, mkContainer (rotation_y c)
                           (bool_decide (Z.of_nat index = currentShapeIndex m))))
           containers;
       currentModelThresholdUniform := -1;
       nextModelThresholdUniform := 1;
       glitchIntensity := 0 |}.

(** What [loadModels] and [setupUniforms] leave: the three containers, the
    monitor visible, and the model uniforms. *)
Definition initialModels : Models :=
  {| containers := [Some (mkContainer 0 true); Some (mkContainer 0 false);
                    Some (mkContainer 0 false)];
     currentModelThresholdUniform := -1;
     nextModelThresholdUniform := -1;
     glitchIntensity := 0 |}.

(** The part of the host state of a frame that is not in [Host]: the
    rotation of the particle mesh and the models. *)
Record Scene := mkScene { meshRotationY : Q; models : Models }.

Definition initialScene : Scene := mkScene 0 initialModels.

(** The frame on the morph state and the scene: rotation of the mesh,
    [updateMorphing], [updateModels]. *)
Definition renderScene (clockDelta : Q) (ms : MorphState * Scene) : MorphState * Scene :=
  let deltaTime := frameDeltaTime clockDelta in
  let rotationThisFrame := (deltaTime * 1)%Q in
  let rotationY := (meshRotationY (ms.2) + rotationThisFrame)%Q in
  let m := updateMorphing deltaTime rotationThisFrame (ms.1) in
  (m, mkScene rotationY (updateModels rotationY m (models (ms.2)))).

Definition sceneFrames (clockDeltas : list Q) (ms : MorphState * Scene)
    : MorphState * Scene :=
  foldl (λ ms d, renderScene d ms) ms clockDeltas.

(** The two ways [render] draws the frame: through the post-processing
    target when the glitch intensity is positive, directly otherwise. *)
Inductive RenderPath := PostProcessed | Direct.

Definition renderPath (s : Models) : RenderPath :=
  if Qltb 0 (glitchIntensity s) then PostProcessed else Direct.

(** *** The opacity of the model materials *)

Section Shading.

Variable sin : Q → Q.

(** [step(edge, x)]: zero below the edge, one from the edge on. *)
Definition step (edge x : Q) : Q := if Qltb x edge then 0%Q else 1%Q.

Definition glitchPatternOf (worldY t : Q) : Q :=
  let scan1 := sin (worldY * 80 + t * 25)%Q in
  let scan2 := sin (worldY * 120 + t * -40)%Q in
  let scan3 := sin (worldY * 200 + t * 60)%Q in
  let scan4 := sin (worldY * 150 + t * -35)%Q in
  let jitter := sin (worldY * 300 + t * 100)%Q in
  (scan1 * (4 # 10) + scan2 * (25 # 100) + scan3 * (15 # 100) + scan4 * (15 # 100)
   + jitter * (2 # 10))%Q.

(** [opacityNode] of the material of model [materialModelIndexUniform], at
    a fragment of height [worldY]. *)
Definition opacityNode (materialModelIndexUniform : Z) (u : Uniforms) (s : Models)
    (worldY : Q) : Q :=
  let t := timeUniform u in
  let glitchPattern := glitchPatternOf worldY t in
  let threshold := 2%Q in
  let threshold :=
    if materialModelIndexUniform =? currentShapeIndexUniform u
    then (currentModelThresholdUniform s * 2 - 1)%Q
    else if materialModelIndexUniform =? nextShapeIndexUniform u
    then (nextModelThresholdUniform s * 2 - 1)%Q
    else threshold in
  let bandVisible := step threshold glitchPattern in
  bandVisible.

End Shading.

(** Is the container there and visible? *)
Definition isVisible (c : option Container) : bool :=
  match c with Some c => visible c | None => false end.

(** Number of visible containers. *)
Definition visibleCount (cs : list (option Container)) : nat :=
  length (List.filter isVisible cs).

(** ** Loading: the bounds of the shapes and the target buffers

    A position of the loaded data is the array [[pos[0], pos[1], pos[2]]],
    read here as the vector of these three numbers. *)

(** The bounds [globalMinX .. globalMaxZ] of the points seen so far. *)
Record Bounds := mkBounds {
  globalMinX : Q; globalMaxX : Q;
  globalMinY : Q; globalMaxY : Q;
  globalMinZ : Q; globalMaxZ : Q;
}.

(** One step of the scan of [setupBuffers].  The scan starts with the
    minima at [Infinity] and the maxima at [-Infinity], which is [None]
    here: the first point replaces all six. *)
Definition growBounds (b : option Bounds) (pos : vec3) : option Bounds :=
  Some match b with
       | None => mkBounds (v_x pos) (v_x pos) (v_y pos) (v_y pos) (v_z pos) (v_z pos)
       | Some b =>
           mkBounds (Qmin (globalMinX b) (v_x pos)) (Qmax (globalMaxX b) (v_x pos))
                    (Qmin (globalMinY b) (v_y pos)) (Qmax (globalMaxY b) (v_y pos))
                    (Qmin (globalMinZ b) (v_z pos)) (Qmax (globalMaxZ b) (v_z pos))
       end.

(** The points of a shape that the loading looks at: those at the indices
    below [Math.min(maxParticles, shapePositions.length)]. *)
Definition usedPoints (shapePositions : list vec3) : list vec3 :=
  take (Z.to_nat maxParticles) shapePositions.

(** The scan over the points of the three shapes, one shape after the
    other. *)
Definition scanShapes (cubePositions conePositions monkeyPositions : list vec3)
    : option Bounds :=
  let scan (b : option Bounds) (shapePositions : list vec3) :=
    foldl growBounds b (usedPoints shapePositions) in
  scan (scan (scan None cubePositions) conePositions) monkeyPositions.

Definition globalMaxRange (b : Bounds) : Q :=
  let rangeX := (globalMaxX b - globalMinX b)%Q in
  let rangeY := (globalMaxY b - globalMinY b)%Q in
  let rangeZ := (globalMaxZ b - globalMinZ b)%Q in
  Qmax (Qmax rangeX rangeY) rangeZ.

(** [normalizePosition]: no result when the division is by zero (the
    JavaScript value is then not a finite number). *)
Definition normalizePosition (b : Bounds) (pos : vec3) : option vec3 :=
  x ← fdiv (v_x pos - (globalMinX b + globalMaxX b) / 2) (globalMaxRange b);
  y ← fdiv (v_z pos - (globalMinZ b + globalMaxZ b) / 2) (globalMaxRange b);
  z ← fdiv (v_y pos - (globalMinY b + globalMaxY b) / 2) (globalMaxRange b);
  Some (Vec3 ((1 # 2) - x * 1) ((1 # 2) + y * 1) ((1 # 2) + z * 1))%Q.

(** [normalizePosition(shapePositions[i])].  Beyond the end of the list
    [shapePositions[i]] is [undefined], whose element access throws: no
    result.  The bounds are there whenever a point is. *)
Definition normalizedAt (b : option Bounds) (shapePositions : list vec3) (i : nat)
    : option vec3 :=
  pos ← shapePositions !! i; bounds ← b; normalizePosition bounds pos.

(** One iteration of the loop of [setupBuffers] that fills the three
    target arrays. *)
Definition fillTargets (b : option Bounds)
    (cubePositions conePositions monkeyPositions : list vec3) (i : nat) (t : Targets)
    : option Targets :=
  cubeNorm ← normalizedAt b cubePositions i;
  coneNorm ← normalizedAt b conePositions i;
  monkeyNorm ← normalizedAt b monkeyPositions i;
  Some (mkTargets (<[i := cubeNorm]> (cubeTargetBuffer t))
                  (<[i := coneNorm]> (coneTargetBuffer t))
                  (<[i := monkeyNorm]> (monkeyTargetBuffer t))).

(** [Math.min(maxParticles, positions.length)], as a number of loop
    iterations. *)
Definition particlesToUse (positions : list vec3) : nat :=
  Z.to_nat (Z.min maxParticles (Z.of_nat (length positions))).

(** The three target arrays, each of [maxParticles] vectors, zero at
    first, after the loop. *)
Definition setupTargets (cubePositions conePositions monkeyPositions : list vec3)
    : option Targets :=
  let b := scanShapes cubePositions conePositions monkeyPositions in
  foldM (fillTargets b cubePositions conePositions monkeyPositions)
    (seq 0 (particlesToUse cubePositions))
    (mkTargets (replicate (Z.to_nat maxParticles) (Vec3 0 0 0))
               (replicate (Z.to_nat maxParticles) (Vec3 0 0 0))
               (replicate (Z.to_nat maxParticles) (Vec3 0 0 0))).

(** [particleArray]: a flat array of [particleStructSize] numbers for each
    of [maxParticles] particles, zero at first. *)
Definition particleStructSize : Z := 18.

(** One iteration of the loop of [setupBuffers] that fills
    [particleArray]: the position goes to the slots 0, 1, 2 of the particle
    and to the slots 15, 16, 17. *)
Definition fillParticle (b : option Bounds) (sourcePositions : list vec3) (i : nat)
    (particleArray : list Q) : option (list Q) :=
  pos ← sourcePositions !! i;
  bounds ← b;
  x ← fdiv (v_x pos - (globalMinX bounds + globalMaxX bounds) / 2) (globalMaxRange bounds);
  z ← fdiv (v_y pos - (globalMinY bounds + globalMaxY bounds) / 2) (globalMaxRange bounds);
  y ← fdiv (v_z pos - (globalMinZ bounds + globalMaxZ bounds) / 2) (globalMaxRange bounds);
  let x := ((1 # 2) - x * 1)%Q in
  let z := ((1 # 2) + z * 1)%Q in
  let y := ((1 # 2) + y * 1)%Q in
  let base := (i * Z.to_nat particleStructSize)%nat in
  Some (<[(base + 17)%nat := z]> (<[(base + 16)%nat := y]> (<[(base + 15)%nat := x]>
       (<[(base + 2)%nat := z]> (<[(base + 1)%nat := y]> (<[base := x]> particleArray)))))).

Definition setupParticleArray (cubePositions conePositions monkeyPositions : list vec3)
    : option (list Q) :=
  let sourcePositions := cubePositions in
  let b := scanShapes cubePositions conePositions monkeyPositions in
  foldM (fillParticle b sourcePositions)
    (seq 0 (particlesToUse sourcePositions))
    (replicate (Z.to_nat (maxParticles * particleStructSize)) 0%Q).

(** Componentwise [lo <= v <= hi] for the six bounds. *)
Definition inBounds (b : Bounds) (pos : vec3) : Prop :=
  ((globalMinX b <= v_x pos)%Q ∧ (v_x pos <= globalMaxX b)%Q) ∧
  ((globalMinY b <= v_y pos)%Q ∧ (v_y pos <= globalMaxY b)%Q) ∧
  ((globalMinZ b <= v_z pos)%Q ∧ (v_z pos <= globalMaxZ b)%Q).

Definition unitCube (v : vec3) : Prop := within v (Vec3 0 0 0) (Vec3 1 1 1).

(** The number that the loading writes to slot [k] of a particle whose
    normalised position is [v]; [None] for the slots it leaves alone. *)
Definition particleSlot (v : vec3) (k : nat) : option Q :=
  match k with
  | 0 | 15 => Some (v_x v)
  | 1 | 16 => Some (v_y v)
  | 2 | 17 => Some (v_z v)
  | _ => None
  end%nat.

(** ** Momentum sent to the grid *)

(** Sum of the addends that a list of operations sends to the field [f]. *)
Definition fieldTotal (f : Field) (ops : list Op) : Z :=
  foldr (λ op acc, if decide (op.1.2 = f) then op.2 + acc else acc) 0 ops.

(** [velContrib] of P2G1 for the stencil cell at offset [g]. *)
Definition velContribOf (p : Particle) (g : ivec3) : vec3 :=
  let gridPosition := gridPositionOf (position p) in
  let cellX := iadd (cellIndexOf gridPosition) g in
  let cellDist := cellDistOf cellX gridPosition in
  smulv (stencilWeight p g) (vadd (velocity p) (mmulv (C p) cellDist)).

(** [momentum] of P2G2 for the stencil cell at offset [g], for a given
    volume. *)
Definition momentumOf (u : Uniforms) (p : Particle) (volume : Q) (g : ivec3) : vec3 :=
  let gridPosition := gridPositionOf (position p) in
  let cellX := iadd (cellIndexOf gridPosition) g in
  let cellDist := cellDistOf cellX gridPosition in
  let strain := madd (C p) (transpose (C p)) in
  let stress := madd (mat3_splat (- 0)) (mscale strain (dynamicViscosityUniform u)) in
  let eq16Term0 := mscale (smulm (volume * -4) stress) (dtUniform u) in
  mmulv (mscale eq16Term0 (stencilWeight p g)) cellDist.

(** Every component is in the range of the codec. *)
Definition fitsCodec (v : vec3) : Prop :=
  codec_range (v_x v) ∧ codec_range (v_y v) ∧ codec_range (v_z v).

(** The three components of a vector, by field. *)
Definition component (f : Field) (v : vec3) : Q :=
  match f with FX => v_x v | FY => v_y v | FZ => v_z v | FMass => 0%Q end.

(** ** The grid update over the whole grid *)

(** The lattice coordinates that [updateGridKernel] computes from the
    index of its cell. *)
Definition gridCoordsOf (i : Z) : ivec3 :=
  IVec3 (Z.quot i (i_z gridSize * i_y gridSize))
        (Z.rem (Z.quot i (i_z gridSize)) (i_y gridSize))
        (Z.rem i (i_z gridSize)).

(** Is the coordinate on the outermost layer of the grid? *)
Definition onBorder (coord : Z) : Prop := coord = 0 ∨ coord = gridSize1d - 1.

(** Inputs of the examples of a whole frame: two active particles, their
    targets, and grids of full size. *)
Definition example_uniforms2 : Uniforms := {|
  particleCountUniform := 2;
  dynamicViscosityUniform := params_viscosity;
  dtUniform := 1 # 60;
  gravityUniform := Vec3 0 params_gravity 0;
  mouseRayOriginUniform := Vec3 0 0 0;
  mouseRayDirectionUniform := Vec3 0 0 0;
  mouseForceUniform := Vec3 0 0 0;
  timeUniform := 1;
  turbulenceStrengthUniform := params_turbulenceStrength;
  turbulenceFreqUniform := params_turbulenceFreq;
  wave2StrengthUniform := params_wave2Strength;
  morphProgressUniform := 1;
  currentShapeIndexUniform := 1;
  nextShapeIndexUniform := 1;
  wave2FreqUniform := params_wave2Freq;
  fluidStrengthUniform := params_fluidStrength;
|}.

Definition example_targets2 : Targets :=
  mkTargets [example_position; example_position] [example_position; example_position]
    [example_position; example_position].

Definition example_gpu : Gpu :=
  mkGpu example_particles (replicate (Z.to_nat cellCount) (mkCell 3 0 0 9))
    (replicate (Z.to_nat cellCount) (Vec4 0 0 0 0)).

(** ** Equality of vectors and matrices of rationals, component by
    component *)

Definition veq (a b : vec3) : Prop :=
  (v_x a == v_x b)%Q ∧ (v_y a == v_y b)%Q ∧ (v_z a == v_z b)%Q.

Definition meq (a b : mat3) : Prop :=
  veq (col0 a) (col0 b) ∧ veq (col1 a) (col1 b) ∧ veq (col2 a) (col2 b).

(** The three axes, to name a component of a vector or a column of a
    matrix. *)
Inductive Axis := AX | AY | AZ.

Definition coord (a : Axis) (v : vec3) : Q :=
  match a with AX => v_x v | AY => v_y v | AZ => v_z v end.

Definition column (a : Axis) (m : mat3) : vec3 :=
  match a with AX => col0 m | AY => col1 m | AZ => col2 m end.

(** The centre of a cell, in grid units. *)
Definition cellCentre (cellX : ivec3) : vec3 := vadds (vec3_of_ivec3 cellX) (1 # 2).

(** An affine velocity field on the grid: [A x + b]. *)
Definition affineField (A : mat3) (b : vec3) (x : vec3) : vec3 := vadd (mmulv A x) b.

(** The velocity part of a cell of the float grid. *)
Definition xyz (c : vec4) : vec3 := Vec3 (q_x c) (q_y c) (q_z c).

(** One iteration of the gather loops of G2P, at the stencil offset [g]:
    the state is the matrix [B] and the velocity gathered so far. *)
Definition g2pGatherStep (u : Uniforms) (cellBufferFloat : list vec4) (p : Particle)
    (g : ivec3) (st : mat3 * vec3) : option (mat3 * vec3) :=
  let '(B, particleVelocity) := st in
  let gridPosition := gridPositionOf (position p) in
  let weight := stencilWeight p g in
  let cellX := iadd (cellIndexOf gridPosition) g in
  let cellDist := cellDistOf cellX gridPosition in
  let cellPtr := cellPtrOf cellX in
  c ← element cellBufferFloat cellPtr;
  let weightedVelocity := vscale (Vec3 (q_x c) (q_y c) (q_z c)) weight in
  let term := Mat3 (vscale weightedVelocity (v_x cellDist))
                   (vscale weightedVelocity (v_y cellDist))
                   (vscale weightedVelocity (v_z cellDist)) in
  Some (madd B term, vadd particleVelocity (vscale weightedVelocity (fluidStrengthUniform u))).

(** The distance from the particle to the stencil cell at offset [g]. *)
Definition stencilDist (p : Particle) (g : ivec3) : vec3 :=
  cellDistOf (iadd (cellIndexOf (gridPositionOf (position p))) g)
    (gridPositionOf (position p)).

(** A float grid of [n] cells whose velocity is the affine field [A x + b]
    at the centre of each cell, and a field for the examples. *)
Definition affineGrid (A : mat3) (b : vec3) (n : nat) : list vec4 :=
  map (λ i, let v := affineField A b (cellCentre (gridCoordsOf (Z.of_nat i))) in
            Vec4 (v_x v) (v_y v) (v_z v) 1)
    (seq 0 n).

Definition example_gradient : mat3 :=
  Mat3 (Vec3 1 0 (1 # 2)) (Vec3 0 (-1) 0) (Vec3 (1 # 4) 3 0).

Definition example_offset : vec3 := Vec3 (1 # 2) (-1 # 3) 2.

(** A run of frames, each given by its clock delta and elapsed time, with
    no pointer event in between: [mouseCoord] is not written. *)
Definition hostFrames (sqrt : Q → Q) (frames : list (Q * Q)) (h : Host) : Host :=
  foldl (λ h f, renderHost sqrt (f.1) (f.2) h) h frames.

(** ** Facts about truncation and wrap-around *)

Lemma Qle_bool_true (a b : Q) : Qle_bool a b = true ↔ (a <= b)%Q.
Proof. apply Qle_bool_iff. Qed.

Lemma Qle_bool_false (a b : Q) : Qle_bool a b = false ↔ (b < a)%Q.
Proof.
  split; intros H.
  - destruct (Qlt_le_dec b a) as [Hlt|Hle]; [exact Hlt|].
    apply Qle_bool_iff in Hle. congruence.
  - destruct (Qle_bool a b) eqn:E; [|reflexivity].
    apply Qle_bool_iff in E. lra.
Qed.

Lemma Qeq_bool_false (a b : Q) : Qeq_bool a b = false ↔ ¬ (a == b)%Q.
Proof.
  split; [apply Qeq_bool_neq|]. intros H.
  destruct (Qeq_bool a b) eqn:E; [|done]. apply Qeq_bool_eq in E. done.
Qed.

Lemma Qltb_true (a b : Q) : Qltb a b = true ↔ (a < b)%Q.
Proof.
  unfold Qltb. rewrite negb_true_iff. apply Qle_bool_false.
Qed.

Lemma Qltb_false (a b : Q) : Qltb a b = false ↔ (b <= a)%Q.
Proof.
  unfold Qltb. rewrite negb_false_iff. apply Qle_bool_true.
Qed.

Lemma Qmin_spec (a b : Q) :
  ((a <= b)%Q ∧ Qmin a b = a) ∨ ((b < a)%Q ∧ Qmin a b = b).
Proof.
  unfold Qmin. destruct (Qle_bool a b) eqn:E.
  - left. split; [by apply Qle_bool_true|done].
  - right. split; [by apply Qle_bool_false|done].
Qed.

Lemma Qmax_spec (a b : Q) :
  ((a <= b)%Q ∧ Qmax a b = b) ∨ ((b < a)%Q ∧ Qmax a b = a).
Proof.
  unfold Qmax. destruct (Qle_bool a b) eqn:E.
  - left. split; [by apply Qle_bool_true|done].
  - right. split; [by apply Qle_bool_false|done].
Qed.

Lemma clamp_bounds (x lo hi : Q) :
  (lo <= hi)%Q → (lo <= clamp x lo hi)%Q ∧ (clamp x lo hi <= hi)%Q.
Proof.
  intros Hlh. unfold clamp.
  destruct (Qmax_spec x lo) as [[H1 ->]|[H1 ->]];
    destruct (Qmin_spec lo hi) as [[H2 E2]|[H2 E2]];
    destruct (Qmin_spec x hi) as [[H3 E3]|[H3 E3]];
    rewrite ?E2, ?E3; split; lra.
Qed.

Lemma Qtrunc_nonneg (q : Q) :
  (0 <= q)%Q → Qtrunc q = Qfloor q.
Proof.
  destruct q as [n d]. unfold Qle, Qtrunc, Qfloor. simpl. intros H.
  rewrite Z.mul_1_r in H. apply Z.quot_div_nonneg; lia.
Qed.

Lemma Qtrunc_nonpos (q : Q) :
  (q <= 0)%Q → Qtrunc q = (- Qfloor (- q))%Z.
Proof.
  destruct q as [n d]. unfold Qle, Qtrunc, Qfloor, Qopp. simpl. intros H.
  rewrite Z.mul_1_r in H.
  replace n with (- - n) at 1 by lia.
  rewrite Z.quot_opp_l by lia. f_equal.
  apply Z.quot_div_nonneg; lia.
Qed.

(** Truncation lies between zero and the argument, less than one away. *)
Lemma Qtrunc_bounds_nonneg (q : Q) :
  (0 <= q)%Q →
  (0 <= inject_Z (Qtrunc q))%Q ∧ (inject_Z (Qtrunc q) <= q)%Q ∧
  (q < inject_Z (Qtrunc q) + 1)%Q.
Proof.
  intros H. rewrite (Qtrunc_nonneg q H).
  pose proof (Qfloor_le q) as H1. pose proof (Qlt_floor q) as H2.
  rewrite inject_Z_plus in H2. change (inject_Z 1) with 1%Q in H2.
  assert (0 <= Qfloor q)%Z as H3.
  { rewrite <- (Qfloor_Z 0). by apply Qfloor_resp_le. }
  assert (0 <= inject_Z (Qfloor q))%Q as H4.
  { change 0%Q with (inject_Z 0). by rewrite <- Zle_Qle. }
  repeat split; lra.
Qed.

Lemma Qtrunc_bounds_nonpos (q : Q) :
  (q <= 0)%Q →
  (inject_Z (Qtrunc q) <= 0)%Q ∧ (q <= inject_Z (Qtrunc q))%Q ∧
  (inject_Z (Qtrunc q) - 1 < q)%Q.
Proof.
  intros H. rewrite (Qtrunc_nonpos q H).
  assert (0 <= - q)%Q as Hn by lra.
  pose proof (Qfloor_le (- q)) as H1. pose proof (Qlt_floor (- q)) as H2.
  rewrite inject_Z_plus in H2. change (inject_Z 1) with 1%Q in H2.
  assert (0 <= Qfloor (- q))%Z as H3.
  { rewrite <- (Qfloor_Z 0). by apply Qfloor_resp_le. }
  rewrite inject_Z_opp.
  assert (0 <= inject_Z (Qfloor (- q)))%Q as H4.
  { change 0%Q with (inject_Z 0). by rewrite <- Zle_Qle. }
  repeat split; lra.
Qed.

Lemma Qtrunc_abs_error (q : Q) :
  (Qabs (inject_Z (Qtrunc q) - q) < 1)%Q.
Proof.
  destruct (Qlt_le_dec q 0) as [Hneg|Hpos].
  - destruct (Qtrunc_bounds_nonpos q) as (H1 & H2 & H3); [lra|].
    apply Qabs_Qlt_condition. split; lra.
  - destruct (Qtrunc_bounds_nonneg q Hpos) as (H1 & H2 & H3).
    apply Qabs_Qlt_condition. split; lra.
Qed.

Lemma Qtrunc_mono (a b : Q) : (a <= b)%Q → (Qtrunc a <= Qtrunc b)%Z.
Proof.
  intros Hab.
  destruct (Qlt_le_dec a 0) as [Ha|Ha]; destruct (Qlt_le_dec b 0) as [Hb|Hb].
  - rewrite !Qtrunc_nonpos by lra.
    assert (Qfloor (- b) <= Qfloor (- a))%Z by (apply Qfloor_resp_le; lra). lia.
  - destruct (Qtrunc_bounds_nonpos a) as (H1 & _); [lra|].
    destruct (Qtrunc_bounds_nonneg b Hb) as (H2 & _).
    rewrite Zle_Qle. lra.
  - lra.
  - rewrite !Qtrunc_nonneg by lra. by apply Qfloor_resp_le.
Qed.

Lemma Qtrunc_inject_Z (z : Z) : Qtrunc (inject_Z z) = z.
Proof. unfold Qtrunc, inject_Z. simpl. apply Z.quot_1_r. Qed.

Lemma wrap_i32_id (z : Z) : i32_min <= z <= i32_max → wrap_i32 z = z.
Proof.
  unfold i32_min, i32_max, wrap_i32. intros H.
  rewrite Z.mod_small by lia. lia.
Qed.

Lemma wrap_i32_add_l (a b : Z) : wrap_i32 (wrap_i32 a + b) = wrap_i32 (a + b).
Proof.
  unfold wrap_i32.
  replace ((a + 2147483648) mod 4294967296 - 2147483648 + b + 2147483648)
    with ((a + 2147483648) mod 4294967296 + b) by lia.
  rewrite Zplus_mod_idemp_l. f_equal. f_equal. lia.
Qed.

Lemma wrap_i32_range (z : Z) : i32_min <= wrap_i32 z <= i32_max.
Proof.
  unfold i32_min, i32_max, wrap_i32.
  pose proof (Z.mod_pos_bound (z + 2147483648) 4294967296). lia.
Qed.

(** In range, the conversion is plain truncation. *)
Lemma int_in_range (f : Q) :
  (inject_Z i32_min <= f)%Q → (f <= inject_Z i32_max)%Q → int f = Qtrunc f.
Proof.
  intros H1 H2. unfold int.
  apply Qtrunc_mono in H1, H2. rewrite Qtrunc_inject_Z in H1, H2. lia.
Qed.

(** ** The fixed-point codec *)

Lemma encodeFixedPoint_trunc (r : Q) :
  codec_range r → encodeFixedPoint r = Qtrunc (r * fixedPointMultiplier).
Proof. intros [H1 H2]. unfold encodeFixedPoint. by apply int_in_range. Qed.

Lemma decode_encode_error (r : Q) :
  codec_range r →
  (Qabs (decodeFixedPoint (encodeFixedPoint r) - r) < 1 / fixedPointMultiplier)%Q.
Proof.
  intros Hr. rewrite (encodeFixedPoint_trunc r Hr).
  pose proof (Qtrunc_abs_error (r * fixedPointMultiplier)) as He.
  unfold decodeFixedPoint, float.
  set (t := inject_Z (Qtrunc (r * fixedPointMultiplier))) in *. clearbody t.
  apply Qabs_Qlt_condition in He. apply Qabs_Qlt_condition.
  unfold fixedPointMultiplier in *.
  assert (t / 10000000 - r == (t - r * 10000000) / 10000000)%Q as -> by (field; lra).
  assert (1 / 10000000 == 1 # 10000000)%Q as -> by reflexivity.
  destruct He as [He1 He2]. split.
  - apply Qlt_shift_div_l; [reflexivity|]. lra.
  - apply Qlt_shift_div_r; [reflexivity|]. lra.
Qed.

(** C2 (as amended): the encoder truncates toward zero, it does not round;
    with [SCALE = 10^7], [encode r] is the integer part of [r * SCALE],
    [decode i = i / SCALE] as in the specification, and for every [r] in the
    valid range the round trip is strictly less than [1 / SCALE] away from
    [r]. *)
Theorem fixed_point_codec (r : Q) :
  codec_range r →
  fixedPointMultiplier = 10000000%Q ∧
  encodeFixedPoint r = Qtrunc (r * fixedPointMultiplier) ∧
  (∀ i : Z, decodeFixedPoint i = (inject_Z i / fixedPointMultiplier)%Q ∧
            decodeFixedPoint i = spec_decode i) ∧
  (Qabs (decodeFixedPoint (encodeFixedPoint r) - r) < 1 / fixedPointMultiplier)%Q.
Proof.
  intros Hr. split; [reflexivity|]. split; [by apply encodeFixedPoint_trunc|].
  split; [intros i; split; reflexivity|]. by apply decode_encode_error.
Qed.

Lemma fixed_point_codec_witness :
  encodeFixedPoint (1 # 3) = 3333333 ∧
  (Qabs (decodeFixedPoint (encodeFixedPoint (1 # 3)) - (1 # 3))
     < 1 / fixedPointMultiplier)%Q.
Proof.
  assert (codec_range (1 # 3)) as Hr by (split; vm_compute; discriminate).
  destruct (fixed_point_codec (1 # 3) Hr) as (_ & _ & _ & H).
  split; [reflexivity | exact H].
Defined.

(** C2 fails as stated: at [r = 9e-8] the scaled value is [0.9], which the
    code sends to [0] where rounding gives [1], and the round trip is off by
    [9e-8], more than [0.5 / SCALE = 5e-8]. *)
Lemma fixed_point_codec_counterexample :
  codec_range (9 # 100000000) ∧
  encodeFixedPoint (9 # 100000000) = 0 ∧
  spec_encode (9 # 100000000) = 1 ∧
  ¬ (Qabs (decodeFixedPoint (encodeFixedPoint (9 # 100000000)) - (9 # 100000000))
       <= (1 # 2) / SCALE)%Q.
Proof.
  split; [split; vm_compute; discriminate|].
  split; [reflexivity|]. split; [reflexivity|].
  vm_compute. intros H. by apply H.
Qed.

(** ** Pointer force *)

Lemma dot_vscale (v : vec3) (k : Q) :
  (dot (vscale v k) (vscale v k) == k * k * dot v v)%Q.
Proof. destruct v as [a b c]. unfold dot, vscale, vmap. simpl. ring. Qed.

(** C9 (as amended): the force passed to the kernels is [pointerForce] of
    the current and the previous pointer position, and its length test
    compares with [0.3], not with [10].  A scaled displacement of length at
    most [0.3] is passed on unchanged; a longer one is multiplied by the positive factor
    [10 / length], which keeps its direction and, when [length] is its exact
    magnitude, gives it the magnitude [10] exactly. *)
Theorem pointer_force_rescaled (sqrt : Q → Q) (current previous : vec3) :
  (∀ (clockDelta elapsedTime : Q) (h : Host),
     mouseForceUniform (uniforms (renderHost sqrt clockDelta elapsedTime h))
     = pointerForce sqrt (mouseCoord h) (prevMouseCoord h)) ∧
  ((vlength sqrt (scaledDisplacement current previous) <= 3 # 10)%Q →
     pointerForce sqrt current previous = scaledDisplacement current previous) ∧
  ((3 # 10 < vlength sqrt (scaledDisplacement current previous))%Q →
     ∃ k : Q,
       (0 < k)%Q ∧
       (k * vlength sqrt (scaledDisplacement current previous) == 10)%Q ∧
       pointerForce sqrt current previous
       = vscale (scaledDisplacement current previous) k ∧
       ((vlength sqrt (scaledDisplacement current previous)
         * vlength sqrt (scaledDisplacement current previous)
         == dot (scaledDisplacement current previous)
                (scaledDisplacement current previous))%Q →
        (dot (pointerForce sqrt current previous)
             (pointerForce sqrt current previous) == 100)%Q)).
Proof.
  split; [reflexivity|].
  unfold pointerForce. fold (scaledDisplacement current previous).
  set (f := scaledDisplacement current previous).
  set (len := vlength sqrt f). clearbody len. split.
  - intros Hle. apply Qltb_false in Hle. by rewrite Hle.
  - intros Hlt. pose proof Hlt as Hb. apply Qltb_true in Hb. rewrite Hb.
    exists (10 / len)%Q.
    assert (¬ len == 0)%Q as Hnz by lra.
    split; [apply Qlt_shift_div_l; lra|].
    split; [field; exact Hnz|]. split; [reflexivity|].
    intros Hexact. rewrite dot_vscale, <- Hexact. field. exact Hnz.
Qed.

Lemma pointer_force_rescaled_witness :
  pointerForce sqrt_on_squares (Vec3 (1 # 100) 0 0) (Vec3 0 0 0)
  = scaledDisplacement (Vec3 (1 # 100) 0 0) (Vec3 0 0 0) ∧
  (dot (pointerForce sqrt_on_squares (Vec3 (3 # 10) (4 # 10) 0) (Vec3 0 0 0))
       (pointerForce sqrt_on_squares (Vec3 (3 # 10) (4 # 10) 0) (Vec3 0 0 0)) == 100)%Q.
Proof.
  split.
  - apply (pointer_force_rescaled sqrt_on_squares (Vec3 (1 # 100) 0 0) (Vec3 0 0 0)).
    vm_compute. discriminate.
  - destruct (pointer_force_rescaled sqrt_on_squares
                (Vec3 (3 # 10) (4 # 10) 0) (Vec3 0 0 0)) as (_ & _ & H).
    destruct H as (k & _ & _ & _ & H); [reflexivity|].
    apply H. reflexivity.
Defined.

(** C9 fails as stated: a pointer displacement of [(0.1, 0, 0)] gives the
    scaled vector [(1, 0, 0)], whose magnitude [1] does not exceed [10]; it
    is nevertheless longer than [0.3] and is rescaled to [(10, 0, 0)]. *)
Lemma pointer_force_counterexample :
  (dot (scaledDisplacement (Vec3 (1 # 10) 0 0) (Vec3 0 0 0))
       (scaledDisplacement (Vec3 (1 # 10) 0 0) (Vec3 0 0 0)) == 1)%Q ∧
  (vlength sqrt_on_squares (scaledDisplacement (Vec3 (1 # 10) 0 0) (Vec3 0 0 0)) == 1)%Q ∧
  (v_x (pointerForce sqrt_on_squares (Vec3 (1 # 10) 0 0) (Vec3 0 0 0)) == 10)%Q ∧
  ¬ (v_x (pointerForce sqrt_on_squares (Vec3 (1 # 10) 0 0) (Vec3 0 0 0))
     == v_x (scaledDisplacement (Vec3 (1 # 10) 0 0) (Vec3 0 0 0)))%Q.
Proof.
  split; [reflexivity|]. split; [reflexivity|]. split; [reflexivity|].
  vm_compute. discriminate.
Qed.

(** ** Grid update *)

Lemma element_lookup {A} (buf : list A) (i : Z) :
  0 ≤ i → element buf i = buf !! Z.to_nat i.
Proof. intros H. unfold element. by rewrite (proj2 (Z.leb_le 0 i) H). Qed.

Lemma element_Some {A} (buf : list A) (i : Z) (a : A) :
  element buf i = Some a ↔ 0 ≤ i < Z.of_nat (length buf) ∧ buf !! Z.to_nat i = Some a.
Proof.
  unfold element. destruct (0 <=? i) eqn:E.
  - apply Z.leb_le in E. split.
    + intros H. split; [|done]. apply lookup_lt_Some in H. lia.
    + by intros [_ H].
  - apply Z.leb_gt in E. split; [done|]. intros [H _]. lia.
Qed.

Lemma element_None {A} (buf : list A) (i : Z) :
  element buf i = None ↔ ¬ (0 ≤ i < Z.of_nat (length buf)).
Proof.
  unfold element. destruct (0 <=? i) eqn:E.
  - apply Z.leb_le in E. rewrite lookup_ge_None. lia.
  - apply Z.leb_gt in E. split; [lia|done].
Qed.

Lemma cellPtrOf_coords (x y z : Z) :
  0 ≤ x < i_x gridSize → 0 ≤ y < i_y gridSize → 0 ≤ z < i_z gridSize →
  0 ≤ cellPtrOf (IVec3 x y z) < cellCount ∧
  Z.quot (cellPtrOf (IVec3 x y z)) (i_z gridSize * i_y gridSize) = x ∧
  Z.rem (Z.quot (cellPtrOf (IVec3 x y z)) (i_z gridSize)) (i_y gridSize) = y ∧
  Z.rem (cellPtrOf (IVec3 x y z)) (i_z gridSize) = z.
Proof.
  unfold cellPtrOf, cellCount, gridSize, gridSize1d. simpl. intros Hx Hy Hz.
  change (64 * 64) with 4096. change (64 * 64 * 64) with 262144.
  assert (0 ≤ x * 4096 + y * 64 + z) as Hnn by lia.
  split; [lia|].
  rewrite !Z.quot_div_nonneg by lia.
  rewrite !Z.rem_mod_nonneg by (try lia; apply Z.div_pos; lia).
  assert ((x * 4096 + y * 64 + z) `div` 64 = x * 64 + y) as Hd.
  { symmetry. apply (Z.div_unique _ 64 (x * 64 + y) z); lia. }
  repeat split.
  - symmetry. apply (Z.div_unique _ 4096 x (y * 64 + z)); lia.
  - rewrite Hd. symmetry. apply (Z.mod_unique _ 64 x y); lia.
  - symmetry. apply (Z.mod_unique _ 64 (x * 64 + y) z); lia.
Qed.

Lemma boundary_test (coord size : Z) (v : Q) :
  (if (coord <? 1) || (coord >? size - 2) then 0%Q else v)
  = spec_boundaryVelocity coord size v.
Proof.
  unfold spec_boundaryVelocity.
  destruct (coord <? 1) eqn:E1; destruct (coord >? size - 2) eqn:E2; simpl;
    rewrite ?Z.ltb_lt, ?Z.ltb_ge, ?Z.gtb_gt in *; case_decide; try done; try lia.
Qed.

(** C5: for a cell of positive decoded mass at lattice coordinates
    [(x, y, z)], the grid update writes into the float buffer, at the index
    of that cell, the decoded momentum divided by the mass, each component
    zeroed when the coordinate of its axis is below [1] or above
    [size - 2], with the mass as fourth component. *)
Theorem updateGrid_stores_velocity (cellBuffer : list Cell) (cellBufferFloat : list vec4)
    (x y z : Z) (cell : Cell) :
  0 ≤ x < i_x gridSize → 0 ≤ y < i_y gridSize → 0 ≤ z < i_z gridSize →
  cellBuffer !! Z.to_nat (cellPtrOf (IVec3 x y z)) = Some cell →
  (Z.to_nat (cellPtrOf (IVec3 x y z)) < length cellBufferFloat)%nat →
  (0 < decodeFixedPoint (cell_mass cell))%Q →
  updateGridKernel cellBuffer (Z.to_nat (cellPtrOf (IVec3 x y z))) cellBufferFloat
  = Some (<[Z.to_nat (cellPtrOf (IVec3 x y z)) := spec_gridUpdate x y z cell]>
            cellBufferFloat).
Proof.
  intros Hx Hy Hz Hcell Hlen Hmass.
  destruct (cellPtrOf_coords x y z Hx Hy Hz) as ([Hp0 Hp1] & Hqx & Hqy & Hqz).
  set (ptr := cellPtrOf (IVec3 x y z)) in *. clearbody ptr.
  unfold updateGridKernel. rewrite Z2Nat.id by done.
  assert ((ptr >=? cellCount) = false) as ->.
  { rewrite Z.geb_leb. apply Z.leb_gt. lia. }
  unfold atomicLoad. rewrite !element_lookup by done. rewrite Hcell.
  cbn [fmap option_fmap option_map mbind option_bind get].
  rewrite Hqx, Hqy, Hqz.
  assert (Qle_bool (decodeFixedPoint (cell_mass cell)) 0 = false) as ->
    by (by apply Qle_bool_false).
  unfold fdiv.
  assert (Qeq_bool (decodeFixedPoint (cell_mass cell)) 0 = false) as ->.
  { apply Qeq_bool_false. lra. }
  cbn [mbind option_bind]. rewrite !boundary_test.
  unfold assign. rewrite element_lookup by done.
  destruct (lookup_lt_is_Some_2 cellBufferFloat (Z.to_nat ptr) Hlen) as [old ->].
  reflexivity.
Qed.

Lemma updateGrid_stores_velocity_witness :
  updateGridKernel (replicate 4228 (mkCell 5000000 0 (-2500000) 2500000))
    (Z.to_nat (cellPtrOf (IVec3 1 2 3))) (replicate 4228 (Vec4 0 0 0 0))
  = Some (<[Z.to_nat (cellPtrOf (IVec3 1 2 3)) :=
             spec_gridUpdate 1 2 3 (mkCell 5000000 0 (-2500000) 2500000)]>
            (replicate 4228 (Vec4 0 0 0 0))).
Proof.
  apply updateGrid_stores_velocity.
  - vm_compute. split; [discriminate|reflexivity].
  - vm_compute. split; [discriminate|reflexivity].
  - vm_compute. split; [discriminate|reflexivity].
  - reflexivity.
  - rewrite length_replicate. vm_compute. lia.
  - reflexivity.
Defined.

(** ** Morph state machine *)

Lemma updateMorphing_trigger (deltaTime rotationDelta : Q) (s : MorphState) :
  (fullRotation <= autoMorphRotation s + rotationDelta)%Q →
  updateMorphing deltaTime rotationDelta s =
  if Qle_bool 1 (0 + deltaTime / morphDuration)
  then mkMorph (Z.rem (currentShapeIndex s + 1) 3) (Z.rem (currentShapeIndex s + 1) 3) 1 0
  else mkMorph (currentShapeIndex s) (Z.rem (currentShapeIndex s + 1) 3)
         (0 + deltaTime / morphDuration) 0.
Proof.
  intros H. apply Qle_bool_true in H. unfold updateMorphing. cbn.
  rewrite H. reflexivity.
Qed.

Lemma updateMorphing_idle (deltaTime rotationDelta : Q) (s : MorphState) :
  (autoMorphRotation s + rotationDelta < fullRotation)%Q →
  updateMorphing deltaTime rotationDelta s =
  if Qltb (morphProgress s) 1 then
    if Qle_bool 1 (morphProgress s + deltaTime / morphDuration)
    then mkMorph (nextShapeIndex s) (nextShapeIndex s) 1
           (autoMorphRotation s + rotationDelta)
    else mkMorph (currentShapeIndex s) (nextShapeIndex s)
           (morphProgress s + deltaTime / morphDuration)
           (autoMorphRotation s + rotationDelta)
  else mkMorph (currentShapeIndex s) (nextShapeIndex s) (morphProgress s)
         (autoMorphRotation s + rotationDelta).
Proof.
  intros H. apply Qle_bool_false in H. unfold updateMorphing. cbn.
  rewrite H. reflexivity.
Qed.

Lemma frameDeltaTime_bounds (d : Q) :
  (1 # 100000 <= frameDeltaTime d)%Q ∧ (frameDeltaTime d <= 1 # 60)%Q.
Proof. apply clamp_bounds. lra. Qed.

Lemma div_morphDuration (a : Q) : (a / morphDuration == a * (10 # 3))%Q.
Proof. unfold morphDuration. field. Qed.

Lemma fullRotation_large : (6 < fullRotation)%Q.
Proof. reflexivity. Qed.

(** One frame of the first morph. *)
Lemma first_morph_step (T d : Q) (s : MorphState) :
  first_morph_at T s →
  (T + frameDeltaTime d < fullRotation)%Q →
  first_morph_at (T + frameDeltaTime d) (renderMorph d s) ∧ morphTriggered d s = false.
Proof.
  intros (Hrot & Hnext & Hcase) HT.
  pose proof (frameDeltaTime_bounds d) as [Hd1 Hd2].
  unfold morphTriggered, renderMorph.
  set (dt := frameDeltaTime d) in *. clearbody dt.
  assert (autoMorphRotation s + dt * 1 < fullRotation)%Q as Hidle by lra.
  split; [|by apply Qle_bool_false].
  rewrite (updateMorphing_idle dt (dt * 1) s Hidle).
  destruct s as [c n p r]. cbn in *. subst n.
  destruct Hcase as [(HTlt & -> & Hp)|(HTge & -> & ->)].
  - rewrite div_morphDuration in Hp.
    assert (Qltb p 1 = true) as ->.
    { apply Qltb_true. unfold morphDuration in HTlt. lra. }
    destruct (Qle_bool 1 (p + dt / morphDuration)) eqn:E.
    + apply Qle_bool_true in E. rewrite div_morphDuration in E.
      split; [cbn; lra|]. split; [done|]. right. cbn.
      split; [unfold morphDuration; lra|done].
    + apply Qle_bool_false in E. rewrite div_morphDuration in E.
      split; [cbn; lra|]. split; [done|]. left. cbn.
      split; [unfold morphDuration; lra|]. split; [done|].
      rewrite !div_morphDuration. lra.
  - assert (Qltb 1 1 = false) as -> by reflexivity.
    split; [cbn; lra|]. split; [done|]. right. cbn.
    split; [lra|done].
Qed.

Lemma first_morph_run (ds : list Q) : ∀ (T : Q) (s : MorphState),
  first_morph_at T s →
  (T + simulatedTime ds < fullRotation)%Q →
  first_morph_at (T + simulatedTime ds) (renderFrames ds s) ∧ triggerCount ds s = O.
Proof.
  induction ds as [|d ds IH]; intros T s Hs HT.
  - cbn in *. split; [|done].
    destruct Hs as (H1 & H2 & H3). split; [lra|]. split; [done|].
    destruct H3 as [(Ha & Hb & Hc)|(Ha & Hb & Hc)]; [left|right].
    + split; [lra|]. split; [done|]. rewrite Hc, !div_morphDuration. lra.
    + split; [lra|done].
  - cbn [simulatedTime foldr] in HT. fold (simulatedTime ds) in HT.
    pose proof (frameDeltaTime_bounds d) as [Hd1 Hd2].
    assert (0 <= simulatedTime ds)%Q as Hnn.
    { clear. induction ds as [|e ds IH]; cbn; [lra|].
      pose proof (frameDeltaTime_bounds e) as [He _]. fold (simulatedTime ds). lra. }
    destruct (first_morph_step T d s Hs) as [Hs' Htrig]; [lra|].
    destruct (IH (T + frameDeltaTime d)%Q (renderMorph d s) Hs') as [Hfin Hcount]; [lra|].
    cbn [renderFrames foldl triggerCount simulatedTime foldr].
    fold (simulatedTime ds). fold (renderFrames ds (renderMorph d s)).
    rewrite Htrig, Hcount. split; [|done].
    destruct Hfin as (H1 & H2 & H3). split; [lra|]. split; [done|].
    destruct H3 as [(Ha & Hb & Hc)|(Ha & Hb & Hc)]; [left|right].
    + split; [lra|]. split; [done|]. rewrite Hc, !div_morphDuration. lra.
    + split; [lra|done].
Qed.

Lemma first_morph_initial : first_morph_at 0 initialMorph.
Proof.
  split; [reflexivity|]. split; [reflexivity|]. left.
  split; [reflexivity|]. split; reflexivity.
Qed.

Lemma morph_inv_initial : morph_inv 0 initialMorph.
Proof.
  split; [reflexivity|]. right. split; [reflexivity|]. split; [reflexivity|].
  cbn. unfold morphDuration. lra.
Qed.

Lemma cycle_next (k : nat) :
  Z.rem ((Z.of_nat k + 1) mod 3 + 1) 3 = (Z.of_nat (k + 1) + 1) mod 3.
Proof.
  pose proof (Z.mod_pos_bound (Z.of_nat k + 1) 3 ltac:(lia)) as Hb.
  rewrite Z.rem_mod_nonneg by lia.
  rewrite Zplus_mod_idemp_l. f_equal. lia.
Qed.

(** One frame keeps the invariant and counts the trigger. *)
Lemma morph_inv_step (k : nat) (d : Q) (s : MorphState) :
  morph_inv k s →
  morph_inv (k + (if morphTriggered d s then 1 else 0)) (renderMorph d s).
Proof.
  intros [Hnext Hcase].
  pose proof (frameDeltaTime_bounds d) as [Hd1 Hd2].
  pose proof fullRotation_large as Hfull.
  unfold morphTriggered, renderMorph.
  set (dt := frameDeltaTime d) in *. clearbody dt.
  destruct (Qle_bool fullRotation (autoMorphRotation s + dt * 1)) eqn:Etrig.
  - apply Qle_bool_true in Etrig.
    rewrite (updateMorphing_trigger dt (dt * 1) s Etrig).
    assert (Qle_bool 1 (0 + dt / morphDuration) = false) as ->.
    { apply Qle_bool_false. rewrite div_morphDuration. lra. }
    destruct Hcase as [[Hp Hc]|(Hp & Hc & Hr)].
    + split; cbn [nextShapeIndex currentShapeIndex morphProgress autoMorphRotation].
      * rewrite Hc, Hnext. apply cycle_next.
      * right. split; [rewrite div_morphDuration; lra|].
        split; [rewrite Hc, Hnext; f_equal; lia|].
        rewrite div_morphDuration. unfold morphDuration. lra.
    + exfalso. unfold morphDuration in Hr. lra.
  - apply Qle_bool_false in Etrig.
    rewrite (updateMorphing_idle dt (dt * 1) s Etrig).
    replace (k + 0)%nat with k by lia.
    destruct Hcase as [[Hp Hc]|(Hp & Hc & Hr)].
    + rewrite Hp. assert (Qltb 1 1 = false) as -> by reflexivity.
      split; [done|]. left. done.
    + assert (Qltb (morphProgress s) 1 = true) as -> by (by apply Qltb_true).
      destruct (Qle_bool 1 (morphProgress s + dt / morphDuration)) eqn:E.
      * split; [done|]. by left.
      * apply Qle_bool_false in E. split; [done|]. right.
        cbn [nextShapeIndex currentShapeIndex morphProgress autoMorphRotation].
        split; [done|]. split; [done|].
        rewrite div_morphDuration in *. unfold morphDuration in *. lra.
Qed.

Lemma morph_inv_run (ds : list Q) : ∀ (k : nat) (s : MorphState),
  morph_inv k s → morph_inv (k + triggerCount ds s) (renderFrames ds s).
Proof.
  induction ds as [|d ds IH]; intros k s Hs.
  - cbn. by replace (k + 0)%nat with k by lia.
  - cbn [triggerCount renderFrames foldl]. fold (renderFrames ds (renderMorph d s)).
    rewrite Nat.add_assoc. apply IH. by apply morph_inv_step.
Qed.

(** C8: the morph state machine.  A frame in which the rotation
    accumulator reaches a full turn sets it back to zero, restarts the
    progress from zero and makes the shape after the current one the next
    shape, in the cycle [0, 1, 2, 0]; in every frame of a morph the progress
    grows by [deltaTime / morphDuration] and, when it reaches one, stays
    there and the current shape becomes the next shape.  From the initial
    state the current shape is [1] once [morphDuration] of simulated time
    has elapsed; after [k] full turns the next shape is shape [k + 1] of the
    cycle, and the current shape is [0] again once the third morph (the one
    started by the second full turn) has completed. *)
Theorem morph_state_machine :
  (∀ (deltaTime rotationDelta : Q) (s : MorphState),
     (fullRotation <= autoMorphRotation s + rotationDelta)%Q →
     (deltaTime / morphDuration < 1)%Q →
     autoMorphRotation (updateMorphing deltaTime rotationDelta s) = 0%Q ∧
     nextShapeIndex (updateMorphing deltaTime rotationDelta s)
       = Z.rem (currentShapeIndex s + 1) 3 ∧
     currentShapeIndex (updateMorphing deltaTime rotationDelta s) = currentShapeIndex s ∧
     morphProgress (updateMorphing deltaTime rotationDelta s)
       = (0 + deltaTime / morphDuration)%Q) ∧
  (∀ s : MorphState,
     morphProgress (startMorph s) = 0%Q ∧
     (currentShapeIndex s = 0 → nextShapeIndex (startMorph s) = 1) ∧
     (currentShapeIndex s = 1 → nextShapeIndex (startMorph s) = 2) ∧
     (currentShapeIndex s = 2 → nextShapeIndex (startMorph s) = 0)) ∧
  (∀ (deltaTime rotationDelta : Q) (s : MorphState),
     (autoMorphRotation s + rotationDelta < fullRotation)%Q →
     (morphProgress s < 1)%Q →
     ((morphProgress s + deltaTime / morphDuration < 1)%Q →
        morphProgress (updateMorphing deltaTime rotationDelta s)
          = (morphProgress s + deltaTime / morphDuration)%Q ∧
        currentShapeIndex (updateMorphing deltaTime rotationDelta s)
          = currentShapeIndex s) ∧
     ((1 <= morphProgress s + deltaTime / morphDuration)%Q →
        morphProgress (updateMorphing deltaTime rotationDelta s) = 1%Q ∧
        currentShapeIndex (updateMorphing deltaTime rotationDelta s)
          = nextShapeIndex s)) ∧
  (∀ clockDeltas : list Q,
     (morphDuration <= simulatedTime clockDeltas)%Q →
     (simulatedTime clockDeltas < fullRotation)%Q →
     currentShapeIndex (renderFrames clockDeltas initialMorph) = 1) ∧
  (∀ clockDeltas : list Q,
     nextShapeIndex (renderFrames clockDeltas initialMorph)
       = (Z.of_nat (triggerCount clockDeltas initialMorph) + 1) mod 3) ∧
  (∀ clockDeltas : list Q,
     morphProgress (renderFrames clockDeltas initialMorph) = 1%Q →
     currentShapeIndex (renderFrames clockDeltas initialMorph)
       = (Z.of_nat (triggerCount clockDeltas initialMorph) + 1) mod 3 ∧
     (triggerCount clockDeltas initialMorph = 2%nat →
      currentShapeIndex (renderFrames clockDeltas initialMorph) = 0)).
Proof.
  split; [|split; [|split; [|split; [|split]]]].
  - intros dt rd s Htrig Hdt.
    rewrite (updateMorphing_trigger dt rd s Htrig).
    assert (Qle_bool 1 (0 + dt / morphDuration) = false) as ->.
    { apply Qle_bool_false. lra. }
    done.
  - intros s. split; [done|]. cbn. repeat split; intros ->; reflexivity.
  - intros dt rd s Hidle Hp.
    rewrite (updateMorphing_idle dt rd s Hidle).
    assert (Qltb (morphProgress s) 1 = true) as -> by (by apply Qltb_true).
    split; intros H.
    + assert (Qle_bool 1 (morphProgress s + dt / morphDuration) = false) as ->
        by (by apply Qle_bool_false).
      done.
    + assert (Qle_bool 1 (morphProgress s + dt / morphDuration) = true) as ->
        by (by apply Qle_bool_true).
      done.
  - intros ds H1 H2.
    destruct (first_morph_run ds 0 initialMorph first_morph_initial) as [H _]; [lra|].
    destruct H as (_ & _ & [(Ha & _)|(_ & Hc & _)]); [lra|done].
  - intros ds.
    by pose proof (morph_inv_run ds 0 initialMorph morph_inv_initial) as [Hn _].
  - intros ds Hp.
    pose proof (morph_inv_run ds 0 initialMorph morph_inv_initial) as [Hn Hc].
    cbn [Nat.add] in *.
    assert (currentShapeIndex (renderFrames ds initialMorph)
            = (Z.of_nat (triggerCount ds initialMorph) + 1) mod 3) as Hcur.
    { destruct Hc as [[_ Hc]|(Hlt & _)]; [congruence|]. rewrite Hp in Hlt. lra. }
    split; [done|]. intros Hk. rewrite Hcur, Hk. reflexivity.
Qed.

Lemma morph_state_machine_witness :
  currentShapeIndex (renderFrames (repeat (1 # 60)%Q 18) initialMorph) = 1 ∧
  currentShapeIndex (renderFrames (repeat (1 # 60)%Q 771) initialMorph) = 0 ∧
  nextShapeIndex (updateMorphing (1 # 60) (1 # 60) (mkMorph 1 1 1 (63 # 10))) = 2.
Proof.
  destruct morph_state_machine as (Htrig & _ & _ & Hfirst & _ & Hthree).
  split; [|split].
  - apply Hfirst; vm_compute; [discriminate|reflexivity].
  - apply Hthree; vm_compute; reflexivity.
  - destruct (Htrig (1 # 60)%Q (1 # 60)%Q (mkMorph 1 1 1 (63 # 10))) as (_ & H & _);
      [vm_compute; discriminate | reflexivity | exact H].
Defined.

(** C10: the state after initialisation is current shape [0], next shape
    [1], progress [0].  While less than [morphDuration] of simulated time
    has elapsed the current shape is still [0] and the progress is the
    elapsed time over [morphDuration] (it has risen by
    [deltaTime / morphDuration] in every frame); from then on, and before a
    full turn of rotation has accumulated, the progress is [1] and the
    current shape is [1].  In neither case has a morph been triggered. *)
Theorem initial_morph_runs_unprompted (clockDeltas : list Q) :
  currentShapeIndex initialMorph = 0 ∧
  nextShapeIndex initialMorph = 1 ∧
  morphProgress initialMorph = 0%Q ∧
  ((simulatedTime clockDeltas < morphDuration)%Q →
     currentShapeIndex (renderFrames clockDeltas initialMorph) = 0 ∧
     nextShapeIndex (renderFrames clockDeltas initialMorph) = 1 ∧
     (morphProgress (renderFrames clockDeltas initialMorph)
        == simulatedTime clockDeltas / morphDuration)%Q ∧
     triggerCount clockDeltas initialMorph = O) ∧
  ((morphDuration <= simulatedTime clockDeltas)%Q →
   (simulatedTime clockDeltas < fullRotation)%Q →
     currentShapeIndex (renderFrames clockDeltas initialMorph) = 1 ∧
     morphProgress (renderFrames clockDeltas initialMorph) = 1%Q ∧
     (autoMorphRotation (renderFrames clockDeltas initialMorph) < fullRotation)%Q ∧
     triggerCount clockDeltas initialMorph = O).
Proof.
  split; [reflexivity|]. split; [reflexivity|]. split; [reflexivity|].
  pose proof fullRotation_large as Hfull.
  split.
  - intros Hlt.
    destruct (first_morph_run clockDeltas 0 initialMorph first_morph_initial)
      as [(Hr & Hn & Hc) Hk]; [unfold morphDuration in Hlt; lra|].
    destruct Hc as [(_ & Hc & Hp)|(Hge & _)]; [|lra].
    split; [done|]. split; [done|]. split; [|done].
    rewrite Hp, !div_morphDuration. lra.
  - intros Hge Hlt.
    destruct (first_morph_run clockDeltas 0 initialMorph first_morph_initial)
      as [(Hr & Hn & Hc) Hk]; [lra|].
    destruct Hc as [(Ha & _)|(_ & Hc & Hp)]; [lra|].
    split; [done|]. split; [done|]. split; [lra|done].
Qed.

Lemma initial_morph_runs_unprompted_witness :
  (morphProgress (renderFrames (repeat (1 # 60)%Q 9) initialMorph)
     == simulatedTime (repeat (1 # 60)%Q 9) / morphDuration)%Q ∧
  currentShapeIndex (renderFrames (repeat (1 # 60)%Q 18) initialMorph) = 1 ∧
  triggerCount (repeat (1 # 60)%Q 18) initialMorph = O.
Proof.
  split.
  - destruct (initial_morph_runs_unprompted (repeat (1 # 60)%Q 9))
      as (_ & _ & _ & H & _).
    destruct H as (_ & _ & H & _); [reflexivity | exact H].
  - destruct (initial_morph_runs_unprompted (repeat (1 # 60)%Q 18))
      as (_ & _ & _ & _ & H).
    destruct H as (H1 & _ & _ & H2); [vm_compute; discriminate | reflexivity |].
    split; [exact H1 | exact H2].
Defined.

(** ** Grid to particle: the position clamp *)

Lemma vclamp_within (v lo hi : vec3) :
  (v_x lo <= v_x hi)%Q → (v_y lo <= v_y hi)%Q → (v_z lo <= v_z hi)%Q →
  within (vclamp v lo hi) lo hi.
Proof.
  intros Hx Hy Hz. unfold within, vclamp. cbn.
  split; [|split]; by apply clamp_bounds.
Qed.

Lemma clamp_range_values :
  clampMin = Vec3 ((1 # 2) / 64) ((1 # 2) / 64) ((1 # 2) / 64) ∧
  clampMax = Vec3 ((64 - 1) / 64) ((64 - 1) / 64) ((64 - 1) / 64).
Proof. split; reflexivity. Qed.

Lemma assign_Some {A} (buf : list A) (i : Z) (a : A) (buf' : list A) :
  assign buf i a = Some buf' →
  0 ≤ i < Z.of_nat (length buf) ∧ buf' = <[Z.to_nat i := a]> buf.
Proof.
  unfold assign. destruct (element buf i) as [old|] eqn:E; [|done].
  apply element_Some in E as [Hi _]. cbn. intros [= <-]. done.
Qed.

(** What an invocation of the G2P kernel leaves in the particle buffer. *)
Lemma g2pKernel_result (sin cos sqrt : Q → Q) (u : Uniforms) (targets : Targets)
    (cellBufferFloat : list vec4) (instanceIndex : nat)
    (particleBuffer particleBuffer' : list Particle) :
  g2pKernel sin cos sqrt u targets cellBufferFloat instanceIndex particleBuffer
    = Some particleBuffer' →
  (particleCountUniform u ≤ Z.of_nat instanceIndex ∧ particleBuffer' = particleBuffer) ∨
  (Z.of_nat instanceIndex < particleCountUniform u ∧
   ∃ p' : Particle,
     particleBuffer' = <[instanceIndex := p']> particleBuffer ∧
     (instanceIndex < length particleBuffer)%nat ∧
     within (position p') clampMin clampMax).
Proof.
  unfold g2pKernel.
  destruct (Z.of_nat instanceIndex >=? particleCountUniform u) eqn:Eact.
  { intros [= <-]. left. rewrite Z.geb_leb in Eact. apply Z.leb_le in Eact. done. }
  rewrite Z.geb_leb in Eact. apply Z.leb_gt in Eact.
  intros H. right. split; [done|].
  destruct (particleBuffer !! instanceIndex) as [p|] eqn:Ep; [|done].
  cbn [mbind option_bind] in H.
  match type of H with
  | option_bind _ _ _ ?g = _ => destruct g as [[B vel]|]; [|done]
  | mbind _ ?g = _ => destruct g as [[B vel]|]; [|done]
  end.
  cbn [mbind option_bind] in H.
  destruct (cubeTargetBuffer targets !! instanceIndex) as [cube|]; [|done].
  destruct (coneTargetBuffer targets !! instanceIndex) as [cone|]; [|done].
  destruct (monkeyTargetBuffer targets !! instanceIndex) as [monkey|]; [|done].
  cbn [mbind option_bind] in H.
  match type of H with
  | option_bind _ _ _ ?g = _ => destruct g as [direction|]; [|done]
  | mbind _ ?g = _ => destruct g as [direction|]; [|done]
  end.
  cbn [mbind option_bind] in H.
  apply assign_Some in H as [Hi ->]. rewrite Nat2Z.id.
  eexists. split; [reflexivity|]. split; [lia|].
  cbn [position]. apply vclamp_within; vm_compute; discriminate.
Qed.

Lemma g2pKernel_other (sin cos sqrt : Q → Q) (u : Uniforms) (targets : Targets)
    (cellBufferFloat : list vec4) (j i : nat) (pb pb' : list Particle) :
  g2pKernel sin cos sqrt u targets cellBufferFloat j pb = Some pb' →
  i ≠ j → pb' !! i = pb !! i.
Proof.
  intros H Hne. apply g2pKernel_result in H as [[_ ->]|(_ & p' & -> & _)]; [done|].
  by apply list_lookup_insert_ne.
Qed.

Lemma g2p_dispatch_other (sin cos sqrt : Q → Q) (u : Uniforms) (targets : Targets)
    (cellBufferFloat : list vec4) (order : list nat) : ∀ (pb pb' : list Particle) (i : nat),
  dispatch (g2pKernel sin cos sqrt u targets cellBufferFloat) order pb = Some pb' →
  i ∉ order → pb' !! i = pb !! i.
Proof.
  induction order as [|j rest IH]; intros pb pb' i H Hi.
  - cbn in H. by injection H as <-.
  - cbn [dispatch] in H.
    destruct (g2pKernel sin cos sqrt u targets cellBufferFloat j pb) as [pb1|] eqn:E;
      [|done].
    cbn [mbind option_bind] in H.
    apply not_elem_of_cons in Hi as [Hne Hrest].
    rewrite (IH pb1 pb' i H Hrest). by apply (g2pKernel_other _ _ _ _ _ _ _ _ _ _ E).
Qed.

(** C4 (as amended): after a G2P pass, every active particle the pass has
    run on has its position within the bounds of the clamp of the kernel,
    [0.5 / gridSize] and [(gridSize - 1) / gridSize = 1 - 1 / gridSize] on
    each axis. *)
Theorem g2p_position_within_clamp (sin cos sqrt : Q → Q) (u : Uniforms)
    (targets : Targets) (cellBufferFloat : list vec4) (order : list nat)
    (particleBuffer particleBuffer' : list Particle) (instanceIndex : nat) :
  dispatch (g2pKernel sin cos sqrt u targets cellBufferFloat) order particleBuffer
    = Some particleBuffer' →
  instanceIndex ∈ order →
  Z.of_nat instanceIndex < particleCountUniform u →
  ∃ p' : Particle,
    particleBuffer' !! instanceIndex = Some p' ∧
    within (position p')
      (vec3_splat ((1 # 2) / inject_Z gridSize1d))
      (vec3_splat (1 - 1 / inject_Z gridSize1d)).
Proof.
  revert particleBuffer.
  induction order as [|j rest IH]; intros pb H Hin Hact.
  - by apply elem_of_nil in Hin.
  - cbn [dispatch] in H.
    destruct (g2pKernel sin cos sqrt u targets cellBufferFloat j pb) as [pb1|] eqn:E;
      [|done].
    cbn [mbind option_bind] in H.
    destruct (decide (instanceIndex ∈ rest)) as [Hrest|Hrest].
    + by apply (IH pb1).
    + apply elem_of_cons in Hin as [->|Hin]; [|done].
      rewrite (g2p_dispatch_other _ _ _ _ _ _ _ _ _ _ H Hrest).
      apply g2pKernel_result in E as [[Hge _]|(_ & p' & -> & Hlen & Hw)]; [lia|].
      exists p'. split; [by apply list_lookup_insert_eq|].
      destruct Hw as ((Hx1 & Hx2) & (Hy1 & Hy2) & (Hz1 & Hz2)).
      unfold clampMin, clampMax, gridSizeUniform, gridSize, gridSize1d in *.
      cbn in *.
      assert ((1 # 2) / 64 == 1 # 128)%Q as E1 by reflexivity.
      assert ((64 - 1) / 64 == 63 # 64)%Q as E2 by reflexivity.
      assert (1 - 1 / 64 == 63 # 64)%Q as E3 by reflexivity.
      unfold float in *. change (inject_Z 64) with 64%Q in *.
      rewrite E1, E2 in *. unfold within. cbn. rewrite E1, E3.
      repeat split; assumption.
Qed.

Lemma g2p_position_within_clamp_witness :
  ∃ (pb' : list Particle) (p' : Particle),
    dispatch (g2pKernel sin_approx cos_approx sqrt_on_squares example_uniforms
                example_targets example_floatGrid) [O] [example_particle] = Some pb' ∧
    pb' !! O = Some p' ∧
    within (position p')
      (vec3_splat ((1 # 2) / inject_Z gridSize1d))
      (vec3_splat (1 - 1 / inject_Z gridSize1d)).
Proof.
  assert (∃ pb' : list Particle,
            dispatch (g2pKernel sin_approx cos_approx sqrt_on_squares example_uniforms
                        example_targets example_floatGrid) [O] [example_particle]
            = Some pb') as [pb' E].
  { eexists. vm_compute. reflexivity. }
  destruct (g2p_position_within_clamp sin_approx cos_approx sqrt_on_squares
              example_uniforms example_targets example_floatGrid [O] [example_particle]
              pb' O E) as (p' & Hp & Hw).
  - apply list_elem_of_here.
  - reflexivity.
  - exists pb', p'. split; [exact E|]. split; [exact Hp | exact Hw].
Defined.

(** C4 fails as stated: the kernel clamps at [(gridSize - 1) / gridSize],
    so a particle may stay above [1 - 1.5 / gridSize].  A particle at rest at
    [z = 0.98], with its target there and the grid at rest, is left by the
    kernel at a [z] above [1 - 1.5 / 64 = 0.9765625]. *)
Lemma g2p_position_counterexample :
  ∃ (pb' : list Particle) (p' : Particle),
    g2pKernel sin_approx cos_approx sqrt_on_squares example_uniforms
      example_targets example_floatGrid O [example_particle] = Some pb' ∧
    pb' !! O = Some p' ∧
    ¬ (v_z (position p') <= 1 - (3 # 2) / inject_Z gridSize1d)%Q.
Proof.
  eexists. eexists. split; [vm_compute; reflexivity|]. split; [reflexivity|].
  vm_compute. intros H. by apply H.
Qed.

(** ** Loops as folds *)

Lemma foldM_app {A St} (f : A → St → option St) (l1 l2 : list A) (s : St) :
  foldM f (l1 ++ l2) s = foldM f l1 s ≫= foldM f l2.
Proof.
  revert s. induction l1 as [|a l1 IH]; intros s; cbn; [done|].
  destruct (f a s) as [s'|]; cbn; [apply IH|done].
Qed.

Lemma foldM_ext {A St} (f g : A → St → option St) (l : list A) (s : St) :
  (∀ a s, f a s = g a s) → foldM f l s = foldM g l s.
Proof.
  intros H. revert s. induction l as [|a l IH]; intros s; cbn; [done|].
  rewrite H. destruct (g a s); cbn; [apply IH|done].
Qed.

Lemma foldM_flat_map {A B St} (f : B → St → option St) (g : A → list B)
    (l : list A) (s : St) :
  foldM f (flat_map g l) s = foldM (λ a, foldM f (g a)) l s.
Proof.
  revert s. induction l as [|a l IH]; intros s; cbn; [done|].
  rewrite foldM_app. destruct (foldM f (g a) s); cbn; [apply IH|done].
Qed.

Lemma foldM_map {A B St} (f : B → St → option St) (g : A → B) (l : list A) (s : St) :
  foldM f (map g l) s = foldM (λ a, f (g a)) l s.
Proof.
  revert s. induction l as [|a l IH]; intros s; cbn; [done|].
  destruct (f (g a) s); cbn; [apply IH|done].
Qed.

Lemma dispatch_foldM {St} (kernel : nat → St → option St) (order : list nat) (s : St) :
  dispatch kernel order s = foldM kernel order s.
Proof. revert s. induction order as [|i l IH]; intros s; cbn; [done|].
  destruct (kernel i s); cbn; [apply IH|done].
Qed.

Lemma LoopN_foldM {St} (body : Z → St → option St) (n : nat) (i : Z) (s : St) :
  LoopN n i body s = foldM body (seqZ i (Z.of_nat n)) s.
Proof.
  revert i s. induction n as [|n IH]; intros i s; [done|].
  rewrite Nat2Z.inj_succ, seqZ_cons by lia. cbn [LoopN foldM].
  destruct (body i s) as [s'|]; cbn; [|done].
  rewrite IH. do 2 f_equal; lia.
Qed.

Lemma Loop_foldM {St} (body : Z → St → option St) (a b : Z) (s : St) :
  a ≤ b → Loop a b body s = foldM body (seqZ a (b - a)) s.
Proof. intros H. unfold Loop. rewrite LoopN_foldM. by rewrite Z2Nat.id by lia. Qed.

(** The three nested loops of a kernel visit the offsets of the stencil. *)
Lemma stencil_loops {St} (body : Z → Z → Z → St → option St) (s : St) :
  Loop 0 3 (λ gx, Loop 0 3 (λ gy, Loop 0 3 (λ gz, body gx gy gz))) s
  = foldM (λ g, body (i_x g) (i_y g) (i_z g)) stencilOffsets s.
Proof.
  unfold stencilOffsets.
  rewrite foldM_flat_map, Loop_foldM by lia. apply foldM_ext. intros gx s1.
  rewrite foldM_flat_map, Loop_foldM by lia. apply foldM_ext. intros gy s2.
  rewrite foldM_map, Loop_foldM by lia. done.
Qed.

(** ** Atomic additions commute *)

Lemma get_set (f f' : Field) (v : Z) (c : Cell) :
  get f (set f' v c) = if decide (f = f') then v else get f c.
Proof. by destruct f, f', c. Qed.

Lemma applyOp_Some (op : Op) (cb cb' : list Cell) :
  applyOp op cb = Some cb' ↔
  0 ≤ op.1.1 < Z.of_nat (length cb) ∧
  ∃ c : Cell, cb !! Z.to_nat op.1.1 = Some c ∧
    cb' = <[Z.to_nat op.1.1 := set op.1.2 (wrap_i32 (get op.1.2 c + op.2)) c]> cb.
Proof.
  destruct op as [[ptr f] v]. unfold applyOp, atomicAdd, assign. cbn [fst snd].
  destruct (element cb ptr) as [c|] eqn:E; cbn [mbind option_bind].
  - apply element_Some in E as [Hr Hc]. split.
    + intros [= <-]. split; [done|]. by exists c.
    + intros (_ & c' & Hc' & ->). rewrite Hc in Hc'. by injection Hc' as <-.
  - apply element_None in E. split; [done|]. by intros [Hr _].
Qed.

Lemma applyOp_None (op : Op) (cb : list Cell) :
  applyOp op cb = None ↔ ¬ (0 ≤ op.1.1 < Z.of_nat (length cb)).
Proof.
  destruct (applyOp op cb) as [cb'|] eqn:E.
  - apply applyOp_Some in E as [Hr _]. split; [done|]. by intros [].
  - split; [|done]. intros _ Hr.
    destruct (lookup_lt_is_Some_2 cb (Z.to_nat op.1.1)) as [c Hc]; [lia|].
    assert (applyOp op cb = Some
              (<[Z.to_nat op.1.1 := set op.1.2 (wrap_i32 (get op.1.2 c + op.2)) c]> cb))
      as E'; [|congruence].
    apply applyOp_Some. split; [done|]. by exists c.
Qed.

Lemma applyOp_length (op : Op) (cb cb' : list Cell) :
  applyOp op cb = Some cb' → length cb' = length cb.
Proof. intros H. apply applyOp_Some in H as (_ & c & _ & ->). apply length_insert. Qed.

Lemma set_set_commute (fa fb : Field) (va vb : Z) (c : Cell) :
  set fb (wrap_i32 (get fb (set fa (wrap_i32 (get fa c + va)) c) + vb))
    (set fa (wrap_i32 (get fa c + va)) c)
  = set fa (wrap_i32 (get fa (set fb (wrap_i32 (get fb c + vb)) c) + va))
      (set fb (wrap_i32 (get fb c + vb)) c).
Proof.
  destruct c as [x y z m]; destruct fa, fb; cbn; try reflexivity;
    f_equal; rewrite !wrap_i32_add_l; f_equal; lia.
Qed.

(** Two atomic additions give the same buffer in either order. *)
Lemma applyOp_commute (a b : Op) (cb : list Cell) :
  applyOp a cb ≫= applyOp b = applyOp b cb ≫= applyOp a.
Proof.
  destruct (applyOp a cb) as [cba|] eqn:Ea; destruct (applyOp b cb) as [cbb|] eqn:Eb;
    cbn [mbind option_bind].
  - apply applyOp_Some in Ea as (Ha & ca & Hca & ->).
    apply applyOp_Some in Eb as (Hb & cc & Hcc & ->).
    set (ia := Z.to_nat a.1.1) in *. set (ib := Z.to_nat b.1.1) in *.
    assert (ia < length cb)%nat as Hia by (apply lookup_lt_Some in Hca; done).
    assert (ib < length cb)%nat as Hib by (apply lookup_lt_Some in Hcc; done).
    destruct (decide (ia = ib)) as [Heq|Hne].
    + assert (cc = ca) as -> by congruence.
      transitivity (Some (<[ia := set b.1.2 (wrap_i32
          (get b.1.2 (set a.1.2 (wrap_i32 (get a.1.2 ca + a.2)) ca) + b.2))
          (set a.1.2 (wrap_i32 (get a.1.2 ca + a.2)) ca)]> cb)).
      * apply applyOp_Some. rewrite length_insert. split; [done|].
        eexists. fold ib. rewrite <- Heq.
        split; [by apply list_lookup_insert_eq|]. by rewrite list_insert_insert_eq.
      * symmetry. rewrite (set_set_commute a.1.2 b.1.2 a.2 b.2 ca).
        apply applyOp_Some. rewrite length_insert. split; [done|].
        eexists. fold ia. rewrite <- Heq.
        split; [by apply list_lookup_insert_eq|]. by rewrite list_insert_insert_eq.
    + transitivity (Some (<[ib := set b.1.2 (wrap_i32 (get b.1.2 cc + b.2)) cc]>
                            (<[ia := set a.1.2 (wrap_i32 (get a.1.2 ca + a.2)) ca]> cb))).
      * apply applyOp_Some. rewrite length_insert. split; [done|].
        exists cc. fold ib. split; [by rewrite list_lookup_insert_ne|done].
      * symmetry. rewrite list_insert_insert_ne by done.
        apply applyOp_Some. rewrite length_insert. split; [done|].
        exists ca. fold ia. split; [by rewrite list_lookup_insert_ne|done].
  - apply applyOp_None. apply applyOp_None in Eb.
    by rewrite (applyOp_length _ _ _ Ea).
  - symmetry. apply applyOp_None. apply applyOp_None in Ea.
    by rewrite (applyOp_length _ _ _ Eb).
  - done.
Qed.

(** A fold of pairwise commuting steps does not depend on the order. *)
Lemma foldM_perm {A St} (f : A → St → option St) (l l' : list A) :
  (∀ a b s, f a s ≫= f b = f b s ≫= f a) →
  l ≡ₚ l' → ∀ s, foldM f l s = foldM f l' s.
Proof.
  intros Hcomm Hperm. induction Hperm as [|a l l' _ IH|a b l|l l' l'' _ IH1 _ IH2];
    intros s.
  - done.
  - cbn. destruct (f a s); cbn; [apply IH|done].
  - cbn [foldM]. pose proof (Hcomm b a s) as H.
    destruct (f b s) as [sb|]; destruct (f a s) as [sa|]; cbn [mbind option_bind] in *.
    + by rewrite H.
    + by rewrite H.
    + by rewrite <- H.
    + done.
  - by rewrite IH1.
Qed.

Lemma applyOps_perm (ops ops' : list Op) (cb : list Cell) :
  ops ≡ₚ ops' → applyOps ops cb = applyOps ops' cb.
Proof. intros H. by apply foldM_perm; [apply applyOp_commute|]. Qed.

Lemma applyOps_app (ops1 ops2 : list Op) (cb : list Cell) :
  applyOps (ops1 ++ ops2) cb = applyOps ops1 cb ≫= applyOps ops2.
Proof. apply foldM_app. Qed.

Lemma applyOps_length (ops : list Op) : ∀ cb cb' : list Cell,
  applyOps ops cb = Some cb' → length cb' = length cb.
Proof.
  induction ops as [|op ops IH]; intros cb cb' H; cbn in H.
  - by injection H as <-.
  - destruct (applyOp op cb) as [cb1|] eqn:E; [|done]. cbn in H.
    rewrite (IH _ _ H). by apply applyOp_length in E.
Qed.

(** A list of additions succeeds exactly when every index is in the buffer. *)
Lemma applyOps_is_Some (ops : list Op) (cb : list Cell) :
  is_Some (applyOps ops cb) ↔ Forall (λ op : Op, 0 ≤ op.1.1 < Z.of_nat (length cb)) ops.
Proof.
  revert cb. induction ops as [|op ops IH]; intros cb.
  - split; [by constructor | by eexists].
  - cbn [applyOps foldM]. fold (applyOps ops).
    destruct (applyOp op cb) as [cb1|] eqn:E; cbn [mbind option_bind].
    + pose proof (applyOp_length _ _ _ E) as Hlen.
      apply applyOp_Some in E as [Hr _].
      split.
      * intros H. apply IH in H. constructor; [exact Hr|].
        eapply Forall_impl; [|exact H]. cbn. intros x Hx. by rewrite <- Hlen.
      * intros H. inversion H as [|? ? _ H']; subst. clear H. rename H' into H.
        apply IH.
        eapply Forall_impl; [|exact H]. cbn. intros x Hx. by rewrite Hlen.
    + apply applyOp_None in E. split; [by intros []|].
      intros H. inversion H as [|? ? Hr _]; subst. by destruct E.
Qed.

(** ** The particle-to-grid kernels as lists of additions *)

Lemma bind_Some_r {A} (m : option A) : m ≫= Some = m.
Proof. by destruct m. Qed.

Lemma p2g1Kernel_contrib (u : Uniforms) (pb : list Particle) (i : nat) (cb : list Cell) :
  p2g1Kernel u pb i cb = p2g1Contrib u pb i ≫= λ ops, applyOps ops cb.
Proof.
  unfold p2g1Kernel, p2g1Contrib.
  destruct (Z.of_nat i >=? particleCountUniform u); [done|].
  destruct (pb !! i) as [p|]; [|done]. cbn [mbind option_bind].
  rewrite stencil_loops. unfold p2g1Ops, applyOps. rewrite foldM_flat_map.
  apply foldM_ext. intros [gx gy gz] s. cbn [foldM p2g1CellOps i_x i_y i_z].
  unfold applyOp, stencilPtr, stencilWeight. cbn [fst snd i_x i_y i_z].
  destruct (atomicAdd s _ FX _) as [s1|]; [|done]. cbn [mbind option_bind].
  destruct (atomicAdd s1 _ FY _) as [s2|]; [|done]. cbn [mbind option_bind].
  destruct (atomicAdd s2 _ FZ _) as [s3|]; [|done]. cbn [mbind option_bind].
  by rewrite bind_Some_r.
Qed.

Lemma p2g2Kernel_contrib (u : Uniforms) (pb : list Particle) (i : nat) (cb : list Cell) :
  p2g2Kernel u pb i cb = p2g2Contrib u pb i cb ≫= λ ops, applyOps ops cb.
Proof.
  unfold p2g2Kernel, p2g2Contrib.
  destruct (Z.of_nat i >=? particleCountUniform u); [done|].
  destruct (pb !! i) as [p|]; [|done]. cbn [mbind option_bind].
  destruct (p2g2Density cb _ _) as [density|]; [|done]. cbn [mbind option_bind].
  destruct (fdiv 1 density) as [volume|]; [|done]. cbn [mbind option_bind].
  rewrite stencil_loops. unfold p2g2Ops, applyOps. rewrite foldM_flat_map.
  apply foldM_ext. intros [gx gy gz] s. cbn [foldM p2g2CellOps i_x i_y i_z].
  unfold applyOp, stencilPtr, stencilWeight. cbn [fst snd i_x i_y i_z].
  destruct (atomicAdd s _ FX _) as [s1|]; [|done]. cbn [mbind option_bind].
  destruct (atomicAdd s1 _ FY _) as [s2|]; [|done]. cbn [mbind option_bind].
  by rewrite bind_Some_r.
Qed.

(** Additions to the momentum fields leave every mass as it is. *)
Lemma applyOps_masses (ops : list Op) : ∀ cb cb' : list Cell,
  Forall (λ op : Op, op.1.2 ≠ FMass) ops →
  applyOps ops cb = Some cb' → cell_mass <$> cb' = cell_mass <$> cb.
Proof.
  induction ops as [|op ops IH]; intros cb cb' Hf H; cbn in H.
  - by injection H as <-.
  - inversion Hf as [|? ? Hop Hrest]; subst.
    destruct (applyOp op cb) as [cb1|] eqn:E; [|done]. cbn in H.
    rewrite (IH cb1 cb' Hrest H).
    apply applyOp_Some in E as (_ & c & Hc & ->).
    rewrite list_fmap_insert. apply list_insert_id.
    rewrite list_lookup_fmap, Hc. cbn. f_equal.
    destruct op as [[ptr f] v]. cbn in *. by destruct f, c.
Qed.

Lemma atomicLoad_mass (cb : list Cell) (ptr : Z) :
  atomicLoad cb ptr FMass = element (cell_mass <$> cb) ptr.
Proof.
  unfold atomicLoad, element. destruct (0 <=? ptr); [|done].
  by rewrite list_lookup_fmap.
Qed.

(** The density loop reads the masses only. *)
Lemma p2g2Density_masses (cb cb' : list Cell) (cellIndex : ivec3) (cellDiff : vec3) :
  cell_mass <$> cb = cell_mass <$> cb' →
  p2g2Density cb cellIndex cellDiff = p2g2Density cb' cellIndex cellDiff.
Proof.
  intros H. unfold p2g2Density. rewrite !stencil_loops.
  apply foldM_ext. intros g s. by rewrite !atomicLoad_mass, H.
Qed.

Lemma p2g2Ops_momentum (u : Uniforms) (p : Particle) (volume : Q) :
  Forall (λ op : Op, op.1.2 ≠ FMass) (p2g2Ops u p volume).
Proof.
  unfold p2g2Ops. apply Forall_flat_map. apply Forall_forall. intros g _.
  unfold p2g2CellOps. repeat constructor; done.
Qed.

Lemma p2g2Contrib_momentum (u : Uniforms) (pb : list Particle) (i : nat)
    (cb : list Cell) (ops : list Op) :
  p2g2Contrib u pb i cb = Some ops → Forall (λ op : Op, op.1.2 ≠ FMass) ops.
Proof.
  unfold p2g2Contrib.
  destruct (Z.of_nat i >=? particleCountUniform u); [by intros [= <-]|].
  destruct (pb !! i) as [p|]; [|done]. cbn [mbind option_bind].
  destruct (p2g2Density cb _ _) as [density|]; [|done]. cbn [mbind option_bind].
  destruct (fdiv 1 density) as [volume|]; [|done]. cbn [mbind option_bind].
  intros [= <-]. apply p2g2Ops_momentum.
Qed.

Lemma p2g2Contrib_masses (u : Uniforms) (pb : list Particle) (i : nat)
    (cb cb' : list Cell) :
  cell_mass <$> cb = cell_mass <$> cb' → p2g2Contrib u pb i cb = p2g2Contrib u pb i cb'.
Proof.
  intros H. unfold p2g2Contrib.
  destruct (Z.of_nat i >=? particleCountUniform u); [done|].
  destruct (pb !! i) as [p|]; [|done]. cbn [mbind option_bind].
  by rewrite (p2g2Density_masses cb cb' _ _ H).
Qed.

(** Two scatters commute when neither changes what the other one reads. *)
Lemma scatter_commute (ci cj : list Cell → option (list Op)) (cb : list Cell) :
  (∀ cb cb' ops, ci cb = Some ops → applyOps ops cb = Some cb' → cj cb' = cj cb) →
  (∀ cb cb' ops, cj cb = Some ops → applyOps ops cb = Some cb' → ci cb' = ci cb) →
  (ci cb ≫= λ ops, applyOps ops cb) ≫= (λ cb1, cj cb1 ≫= λ ops, applyOps ops cb1)
  = (cj cb ≫= λ ops, applyOps ops cb) ≫= (λ cb1, ci cb1 ≫= λ ops, applyOps ops cb1).
Proof.
  intros Hij Hji.
  destruct (ci cb) as [A|] eqn:Ei; destruct (cj cb) as [B|] eqn:Ej;
    cbn [mbind option_bind].
  - pose proof (applyOps_perm (A ++ B) (B ++ A) cb (Permutation_app_comm A B)) as Hp.
    rewrite !applyOps_app in Hp.
    destruct (applyOps A cb) as [cbA|] eqn:EA; destruct (applyOps B cb) as [cbB|] eqn:EB;
      cbn [mbind option_bind] in *.
    + by rewrite (Hij _ _ _ Ei EA), (Hji _ _ _ Ej EB), Ei, Ej.
    + rewrite (Hij _ _ _ Ei EA), Ej. done.
    + rewrite (Hji _ _ _ Ej EB), Ei. done.
    + done.
  - destruct (applyOps A cb) as [cbA|] eqn:EA; cbn [mbind option_bind]; [|done].
    by rewrite (Hij _ _ _ Ei EA), Ej.
  - destruct (applyOps B cb) as [cbB|] eqn:EB; cbn [mbind option_bind]; [|done].
    by rewrite (Hji _ _ _ Ej EB), Ei.
  - done.
Qed.

Lemma p2g1Kernel_commute (u : Uniforms) (pb : list Particle) (i j : nat) (cb : list Cell) :
  p2g1Kernel u pb i cb ≫= p2g1Kernel u pb j = p2g1Kernel u pb j cb ≫= p2g1Kernel u pb i.
Proof.
  rewrite !p2g1Kernel_contrib.
  rewrite (option_bind_ext_fun _ (λ cb1, p2g1Contrib u pb j ≫= λ ops, applyOps ops cb1))
    by (intros; apply p2g1Kernel_contrib).
  rewrite (option_bind_ext_fun (p2g1Kernel u pb i)
             (λ cb1, p2g1Contrib u pb i ≫= λ ops, applyOps ops cb1))
    by (intros; apply p2g1Kernel_contrib).
  apply (scatter_commute (λ _, p2g1Contrib u pb i) (λ _, p2g1Contrib u pb j)); done.
Qed.

Lemma p2g2Kernel_commute (u : Uniforms) (pb : list Particle) (i j : nat) (cb : list Cell) :
  p2g2Kernel u pb i cb ≫= p2g2Kernel u pb j = p2g2Kernel u pb j cb ≫= p2g2Kernel u pb i.
Proof.
  rewrite !p2g2Kernel_contrib.
  rewrite (option_bind_ext_fun _ (λ cb1, p2g2Contrib u pb j cb1 ≫= λ ops, applyOps ops cb1))
    by (intros; apply p2g2Kernel_contrib).
  rewrite (option_bind_ext_fun (p2g2Kernel u pb i)
             (λ cb1, p2g2Contrib u pb i cb1 ≫= λ ops, applyOps ops cb1))
    by (intros; apply p2g2Kernel_contrib).
  apply (scatter_commute (p2g2Contrib u pb i) (p2g2Contrib u pb j)).
  - intros c c' ops Hc Ha. apply p2g2Contrib_masses.
    apply (applyOps_masses ops); [|done]. by apply (p2g2Contrib_momentum u pb i c).
  - intros c c' ops Hc Ha. apply p2g2Contrib_masses.
    apply (applyOps_masses ops); [|done]. by apply (p2g2Contrib_momentum u pb j c).
Qed.

(** C7: the integer accumulators left by P2G1 followed by P2G2 do not
    depend on the order in which the particles are processed in either
    pass: for any two orders of the same invocations the two passes give
    the same cell buffer (momentum x, y, z and mass of every cell), or fault
    alike. *)
Theorem scatter_order_independent (u : Uniforms) (particleBuffer : list Particle)
    (order1 order1' order2 order2' : list nat) (cellBuffer : list Cell) :
  order1 ≡ₚ order1' →
  order2 ≡ₚ order2' →
  dispatch (p2g1Kernel u particleBuffer) order1 cellBuffer
    ≫= dispatch (p2g2Kernel u particleBuffer) order2
  = dispatch (p2g1Kernel u particleBuffer) order1' cellBuffer
      ≫= dispatch (p2g2Kernel u particleBuffer) order2'.
Proof.
  intros H1 H2. rewrite !dispatch_foldM.
  rewrite (foldM_perm _ order1 order1' (p2g1Kernel_commute u particleBuffer) H1).
  destruct (foldM (p2g1Kernel u particleBuffer) order1' cellBuffer) as [cb1|];
    cbn [mbind option_bind]; [|done].
  rewrite !dispatch_foldM.
  apply (foldM_perm _ order2 order2' (p2g2Kernel_commute u particleBuffer) H2).
Qed.

Lemma scatter_order_independent_witness :
  (∃ cb' : list Cell,
     dispatch (p2g1Kernel example_uniforms example_particles) [0; 1]%nat example_grid
     = Some cb') ∧
  dispatch (p2g1Kernel example_uniforms example_particles) [0; 1]%nat example_grid
    ≫= dispatch (p2g2Kernel example_uniforms example_particles) [0; 1]%nat
  = dispatch (p2g1Kernel example_uniforms example_particles) [1; 0]%nat example_grid
      ≫= dispatch (p2g2Kernel example_uniforms example_particles) [1; 0]%nat.
Proof.
  split.
  - eexists. vm_compute. reflexivity.
  - apply scatter_order_independent; apply perm_swap.
Defined.

(** ** Geometry of the stencil *)

Lemma stencilOffsets_eq :
  stencilOffsets = [
    IVec3 0 0 0; IVec3 0 0 1; IVec3 0 0 2;
    IVec3 0 1 0; IVec3 0 1 1; IVec3 0 1 2;
    IVec3 0 2 0; IVec3 0 2 1; IVec3 0 2 2;
    IVec3 1 0 0; IVec3 1 0 1; IVec3 1 0 2;
    IVec3 1 1 0; IVec3 1 1 1; IVec3 1 1 2;
    IVec3 1 2 0; IVec3 1 2 1; IVec3 1 2 2;
    IVec3 2 0 0; IVec3 2 0 1; IVec3 2 0 2;
    IVec3 2 1 0; IVec3 2 1 1; IVec3 2 1 2;
    IVec3 2 2 0; IVec3 2 2 1; IVec3 2 2 2 ].
Proof. reflexivity. Qed.

Lemma stencilOffsets_range :
  Forall (λ g : ivec3, (0 ≤ i_x g ≤ 2) ∧ (0 ≤ i_y g ≤ 2) ∧ (0 ≤ i_z g ≤ 2)) stencilOffsets.
Proof. unfold stencilOffsets. cbn. repeat constructor; cbn; lia. Qed.

Lemma fract_range (x : Q) : (0 <= fract x)%Q ∧ (fract x < 1)%Q.
Proof.
  unfold fract. pose proof (Qfloor_le x) as H1. pose proof (Qlt_floor x) as H2.
  rewrite inject_Z_plus in H2. change (inject_Z 1) with 1%Q in H2. split; lra.
Qed.

Lemma int_floor (x : Q) :
  (0 <= x)%Q → (x <= inject_Z i32_max)%Q → int x = Qfloor x.
Proof.
  intros H1 H2. rewrite int_in_range; [by apply Qtrunc_nonneg | | done].
  assert (inject_Z i32_min <= 0)%Q by (vm_compute; discriminate). lra.
Qed.

(** On one axis: a coordinate in [[1/64, 63/64)] has its base cell in
    [[0, 61]]. *)
Lemma interior_axis (x : Q) :
  (1 / inject_Z gridSize1d <= x)%Q →
  (x < (inject_Z gridSize1d - 1) / inject_Z gridSize1d)%Q →
  0 ≤ int (x * float gridSize1d) - 1 ≤ 61.
Proof.
  unfold gridSize1d, float. change (inject_Z 64) with 64%Q.
  assert (1 / 64 == 1 # 64)%Q as -> by reflexivity.
  assert ((64 - 1) / 64 == 63 # 64)%Q as -> by reflexivity.
  intros H1 H2.
  assert (1 <= x * 64)%Q as H3 by lra. assert (x * 64 < 63)%Q as H4 by lra.
  rewrite int_floor; [| lra |].
  - assert (1 ≤ Qfloor (x * 64)) as H5.
    { rewrite <- (Qfloor_Z 1). by apply Qfloor_resp_le. }
    assert (Qfloor (x * 64) < 63) as H6.
    { rewrite Zlt_Qlt. pose proof (Qfloor_le (x * 64)). change (inject_Z 63) with 63%Q.
      lra. }
    lia.
  - assert (63 <= inject_Z i32_max)%Q by (vm_compute; discriminate). lra.
Qed.

(** The 27 cell indices of an interior particle lie in the grid. *)
Lemma interior_stencil_in_grid (p : Particle) (g : ivec3) :
  interior p → g ∈ stencilOffsets → 0 ≤ stencilPtr p g < cellCount.
Proof.
  intros (((Hx1 & _) & (Hy1 & _) & (Hz1 & _)) & Hx2 & Hy2 & Hz2) Hg.
  pose proof stencilOffsets_range as Hr. rewrite list.Forall_forall in Hr.
  destruct (Hr g Hg) as (Hgx & Hgy & Hgz).
  cbn [v_x v_y v_z vec3_splat] in Hx1, Hy1, Hz1.
  pose proof (interior_axis _ Hx1 Hx2) as Ax.
  pose proof (interior_axis _ Hy1 Hy2) as Ay.
  pose proof (interior_axis _ Hz1 Hz2) as Az.
  unfold stencilPtr, cellIndexOf, gridPositionOf, ivec3_of_vec3, isubs, iadd.
  cbn [i_x i_y i_z v_x v_y v_z vmul vzip gridSizeUniform vec3_of_ivec3 gridSize].
  apply cellPtrOf_coords; unfold gridSize, gridSize1d in *; cbn [i_x i_y i_z]; lia.
Qed.

(** ** Quadratic B-spline weights *)

Lemma cellDiff_range (x : Q) : (- (1 # 2) <= fract x - (1 # 2))%Q ∧ (fract x - (1 # 2) < 1 # 2)%Q.
Proof. destruct (fract_range x). split; lra. Qed.

Lemma axis_weights_sum (d : Q) :
  ((1 # 2) * ((1 # 2) - d) * ((1 # 2) - d) + ((3 # 4) - d * d)
   + (1 # 2) * ((1 # 2) + d) * ((1 # 2) + d) == 1)%Q.
Proof. ring. Qed.

Lemma axis_weights_range (d : Q) :
  (- (1 # 2) <= d)%Q → (d <= 1 # 2)%Q →
  (0 <= (1 # 2) * ((1 # 2) - d) * ((1 # 2) - d) <= 1 # 2)%Q ∧
  (1 # 2 <= (3 # 4) - d * d <= 3 # 4)%Q ∧
  (0 <= (1 # 2) * ((1 # 2) + d) * ((1 # 2) + d) <= 1 # 2)%Q.
Proof. intros H1 H2. repeat split; nra. Qed.

(** The 27 weights of a particle sum to one. *)
Lemma stencil_weights_sum (p : Particle) :
  (sumQ (map (stencilWeight p) stencilOffsets) == 1)%Q.
Proof.
  unfold stencilWeight, weightOf.
  set (d := cellDiffOf (gridPositionOf (position p))). clearbody d.
  destruct d as [dx dy dz]. rewrite stencilOffsets_eq.
  cbn [map sumQ foldr i_x i_y i_z weights w0 w1 w2 vmap v_x v_y v_z]. ring.
Qed.

(** ** The stencil at the bounds of the clamp *)

Lemma applyOps_out_of_range (ops : list Op) (cb : list Cell) (op : Op) :
  op ∈ ops → ¬ (0 ≤ op.1.1 < Z.of_nat (length cb)) → applyOps ops cb = None.
Proof.
  intros Hin Hr. destruct (applyOps ops cb) as [cb'|] eqn:E; [|done].
  exfalso. apply Hr.
  assert (is_Some (applyOps ops cb)) as Hs by (by eexists).
  apply applyOps_is_Some in Hs. rewrite list.Forall_forall in Hs. by apply Hs.
Qed.

Lemma p2g1Ops_mass_op (p : Particle) (g : ivec3) :
  g ∈ stencilOffsets →
  (stencilPtr p g, FMass, encodeFixedPoint (stencilWeight p g)) ∈ p2g1Ops p.
Proof.
  intros Hg. unfold p2g1Ops. apply list_elem_of_In, in_flat_map.
  exists g. split; [by apply list_elem_of_In|].
  unfold p2g1CellOps. cbn. tauto.
Qed.

Lemma clearedGrid_length : Z.of_nat (length clearedGrid) = cellCount.
Proof. unfold clearedGrid. rewrite length_replicate. by rewrite Z2Nat.id. Qed.

(** C1 (the code departs from the claim): a particle on the lower bound of
    the clamp, [0.5 / gridSize], has base cell [-1] on that axis, and its
    first stencil cell has the flattened index [-2081]; a particle on the
    upper bound, [(gridSize - 1) / gridSize], reaches lattice coordinate
    [64], and its last stencil cell has the index [266304], beyond
    [cellCount = 262144].  P2G1 has no defined result on either. *)
Theorem stencil_outside_grid_at_clamp_bounds :
  (within (position lowerBoundParticle) clampMin clampMax ∧
   stencilPtr lowerBoundParticle (IVec3 0 0 0) = -2081 ∧
   p2g1Kernel setupUniforms [lowerBoundParticle] 0 clearedGrid = None) ∧
  (within (position upperBoundParticle) clampMin clampMax ∧
   stencilPtr upperBoundParticle (IVec3 2 2 2) = 266304 ∧
   cellCount = 262144 ∧
   p2g1Kernel setupUniforms [upperBoundParticle] 0 clearedGrid = None).
Proof.
  split.
  - split; [repeat split; vm_compute; discriminate|]. split; [reflexivity|].
    rewrite p2g1Kernel_contrib. cbn [p2g1Contrib mbind option_bind].
    change (p2g1Contrib setupUniforms [lowerBoundParticle] 0)
      with (Some (p2g1Ops lowerBoundParticle)). cbn [mbind option_bind].
    apply (applyOps_out_of_range _ _
             (stencilPtr lowerBoundParticle (IVec3 0 0 0), FMass,
              encodeFixedPoint (stencilWeight lowerBoundParticle (IVec3 0 0 0)))).
    + apply p2g1Ops_mass_op. rewrite stencilOffsets_eq. apply list_elem_of_here.
    + rewrite clearedGrid_length. cbn [fst snd].
      change (stencilPtr lowerBoundParticle (IVec3 0 0 0)) with (-2081).
      unfold cellCount, gridSize, gridSize1d. cbn [i_x i_y i_z]. lia.
  - split; [repeat split; vm_compute; discriminate|]. split; [reflexivity|].
    split; [reflexivity|].
    rewrite p2g1Kernel_contrib.
    change (p2g1Contrib setupUniforms [upperBoundParticle] 0)
      with (Some (p2g1Ops upperBoundParticle)). cbn [mbind option_bind].
    apply (applyOps_out_of_range _ _
             (stencilPtr upperBoundParticle (IVec3 2 2 2), FMass,
              encodeFixedPoint (stencilWeight upperBoundParticle (IVec3 2 2 2)))).
    + apply p2g1Ops_mass_op. rewrite stencilOffsets_eq.
      apply list_elem_of_In. cbn. tauto.
    + rewrite clearedGrid_length. cbn [fst snd].
      change (stencilPtr upperBoundParticle (IVec3 2 2 2)) with 266304.
      unfold cellCount, gridSize, gridSize1d. cbn [i_x i_y i_z]. lia.
Qed.

(** ** What a list of additions leaves in a cell *)

Lemma depositAt_cons (op : Op) (ops : list Op) (ptr : Z) (f : Field) :
  depositAt (op :: ops) ptr f
  = (if decide (op.1.1 = ptr ∧ op.1.2 = f) then op.2 else 0) + depositAt ops ptr f.
Proof. unfold depositAt. cbn [foldr]. case_decide; lia. Qed.

Lemma depositAt_app (ops1 ops2 : list Op) (ptr : Z) (f : Field) :
  depositAt (ops1 ++ ops2) ptr f = depositAt ops1 ptr f + depositAt ops2 ptr f.
Proof.
  induction ops1 as [|op ops1 IH]; [done|].
  rewrite <- app_comm_cons, !depositAt_cons, IH. lia.
Qed.

Lemma depositAt_nonneg (ops : list Op) (ptr : Z) (f : Field) :
  Forall (λ op : Op, op.1.2 = f → 0 ≤ op.2) ops → 0 ≤ depositAt ops ptr f.
Proof.
  induction 1 as [|op ops Hop _ IH]; [done|].
  rewrite depositAt_cons. case_decide as Hd; [|lia].
  destruct Hd as [_ Hf]. specialize (Hop Hf). lia.
Qed.

Lemma depositAt_absent (ops : list Op) (ptr : Z) (f : Field) :
  Forall (λ op : Op, op.1.1 ≠ ptr) ops → depositAt ops ptr f = 0.
Proof.
  induction 1 as [|op ops Hop _ IH]; [done|].
  rewrite depositAt_cons, IH. case_decide as Hd; [|done]. by destruct Hd.
Qed.

(** Lower bound: a deposit is at least any one of its non-negative parts. *)
Lemma depositAt_member (ops : list Op) (op : Op) :
  Forall (λ o : Op, o.1.2 = op.1.2 → 0 ≤ o.2) ops →
  op ∈ ops → op.2 ≤ depositAt ops op.1.1 op.1.2.
Proof.
  intros Hnn Hin. induction ops as [|o ops IH]; [by apply elem_of_nil in Hin|].
  inversion Hnn as [|? ? Ho Hrest]; subst.
  rewrite depositAt_cons.
  pose proof (depositAt_nonneg ops op.1.1 op.1.2 Hrest) as Hd.
  apply elem_of_cons in Hin as [->|Hin].
  - rewrite decide_True by done. lia.
  - specialize (IH Hrest Hin). case_decide as Hc; [|lia].
    destruct Hc as [_ Hf]. specialize (Ho Hf). lia.
Qed.

Lemma cell_ok_set (f : Field) (z : Z) (c : Cell) :
  cell_ok c → cell_ok (set f (wrap_i32 z) c).
Proof.
  intros Hc f'. rewrite get_set. case_decide; [apply wrap_i32_range | apply Hc].
Qed.

Lemma applyOps_cell_ok (ops : list Op) : ∀ cb cb' : list Cell,
  Forall cell_ok cb → applyOps ops cb = Some cb' → Forall cell_ok cb'.
Proof.
  induction ops as [|op ops IH]; intros cb cb' Hok H; cbn in H.
  - by injection H as <-.
  - destruct (applyOp op cb) as [cb1|] eqn:E; [|done]. cbn in H.
    apply (IH cb1 cb'); [|done].
    apply applyOp_Some in E as (_ & c & Hc & ->).
    apply Forall_insert; [done|]. apply cell_ok_set.
    rewrite list.Forall_forall in Hok. apply Hok. by apply list_elem_of_lookup_2 in Hc.
Qed.

(** Modulo [2^32], a field ends at its initial value plus its deposit. *)
Lemma applyOps_lookup (ops : list Op) : ∀ (cb cb' : list Cell) (i : nat) (c : Cell),
  applyOps ops cb = Some cb' → cb !! i = Some c →
  ∃ c' : Cell, cb' !! i = Some c' ∧
    ∀ f : Field,
      wrap_i32 (get f c') = wrap_i32 (get f c + depositAt ops (Z.of_nat i) f).
Proof.
  induction ops as [|op ops IH]; intros cb cb' i c H Hc; cbn in H.
  - injection H as <-. exists c. split; [done|]. intros f. f_equal. cbn. lia.
  - destruct (applyOp op cb) as [cb1|] eqn:E; [|done]. cbn in H.
    apply applyOp_Some in E as (Hr & c0 & Hc0 & ->).
    destruct (decide (i = Z.to_nat op.1.1)) as [->|Hne].
    + assert (c0 = c) as -> by congruence.
      destruct (IH _ cb' (Z.to_nat op.1.1)
                  (set op.1.2 (wrap_i32 (get op.1.2 c + op.2)) c) H) as (c' & Hc' & Hf).
      { apply list_lookup_insert_eq. by apply lookup_lt_Some in Hc. }
      exists c'. split; [done|]. intros f. rewrite Hf, get_set, depositAt_cons.
      rewrite Z2Nat.id by lia.
      destruct (decide (f = op.1.2)) as [->|Hfne].
      * rewrite decide_True by done. rewrite wrap_i32_add_l. f_equal. lia.
      * rewrite decide_False by (intros [_ ?]; congruence). f_equal.
    + destruct (IH _ cb' i c H) as (c' & Hc' & Hf).
      { by rewrite list_lookup_insert_ne. }
      exists c'. split; [done|]. intros f. rewrite Hf, depositAt_cons.
      rewrite decide_False; [f_equal|]. intros [Hp _]. apply Hne. lia.
Qed.

Lemma zero_grid_ok (n : nat) : Forall cell_ok (replicate n (mkCell 0 0 0 0)).
Proof.
  apply Forall_replicate. intros f. destruct f; cbn; unfold i32_min, i32_max; lia.
Qed.

(** From a grid of zeros, a field holds its deposit, when that fits. *)
Lemma zero_grid_lookup (ops : list Op) (n : nat) (cb' : list Cell) (i : nat) (f : Field) :
  applyOps ops (replicate n (mkCell 0 0 0 0)) = Some cb' →
  (i < n)%nat →
  0 ≤ depositAt ops (Z.of_nat i) f ≤ i32_max →
  ∃ c' : Cell, cb' !! i = Some c' ∧ get f c' = depositAt ops (Z.of_nat i) f.
Proof.
  intros H Hi Hd.
  pose proof (lookup_replicate_2 n (mkCell 0 0 0 0) i Hi) as Hc.
  destruct (applyOps_lookup ops _ _ i _ H Hc) as (c' & Hc' & Hf).
  exists c'. split; [done|].
  pose proof (applyOps_cell_ok ops _ _ (zero_grid_ok n) H) as Hok.
  rewrite list.Forall_forall in Hok.
  specialize (Hok c' (list_elem_of_lookup_2 _ _ _ Hc') f).
  rewrite <- (wrap_i32_id (get f c')) by done. rewrite Hf.
  replace (get f (mkCell 0 0 0 0)) with 0 by (by destruct f).
  apply wrap_i32_id. unfold i32_min. lia.
Qed.

(** ** Weights and their encodings *)

Lemma stencilWeight_range (p : Particle) (g : ivec3) :
  (0 <= stencilWeight p g)%Q ∧ (stencilWeight p g <= 1)%Q.
Proof.
  unfold stencilWeight, weightOf, cellDiffOf, vsubs, vfract, vmap. cbn [v_x v_y v_z].
  set (gp := gridPositionOf (position p)). clearbody gp.
  destruct (cellDiff_range (v_x gp)) as [Hx1 Hx2].
  destruct (cellDiff_range (v_y gp)) as [Hy1 Hy2].
  destruct (cellDiff_range (v_z gp)) as [Hz1 Hz2].
  set (dx := (fract (v_x gp) - (1 # 2))%Q) in *. clearbody dx.
  set (dy := (fract (v_y gp) - (1 # 2))%Q) in *. clearbody dy.
  set (dz := (fract (v_z gp) - (1 # 2))%Q) in *. clearbody dz.
  destruct (axis_weights_range dx) as (Ax0 & Ax1 & Ax2); [lra|lra|].
  destruct (axis_weights_range dy) as (Ay0 & Ay1 & Ay2); [lra|lra|].
  destruct (axis_weights_range dz) as (Az0 & Az1 & Az2); [lra|lra|].
  assert (∀ a b c : Q, (0 <= a <= 3 # 4)%Q → (0 <= b <= 3 # 4)%Q → (0 <= c <= 3 # 4)%Q →
            (0 <= a * b * c)%Q ∧ (a * b * c <= 1)%Q) as Hprod.
  { intros a b c Ha Hb Hc.
    assert (0 <= a * b)%Q by nra. assert (a * b <= 9 # 16)%Q by nra. split; nra. }
  unfold weights, w0, w1, w2, vmap. cbn [v_x v_y v_z].
  destruct (i_x g) as [|[?|?|]|?]; destruct (i_y g) as [|[?|?|]|?];
    destruct (i_z g) as [|[?|?|]|?]; apply Hprod; cbn [v_x v_y v_z]; lra.
Qed.

Lemma encodeFixedPoint_nonneg (w : Q) : (0 <= w)%Q → 0 ≤ encodeFixedPoint w.
Proof.
  intros Hw. unfold encodeFixedPoint, int.
  assert (0 <= w * fixedPointMultiplier)%Q as H.
  { unfold fixedPointMultiplier. lra. }
  destruct (Qtrunc_bounds_nonneg _ H) as (H0 & _).
  change 0%Q with (inject_Z 0) in H0. rewrite <- Zle_Qle in H0.
  unfold i32_min, i32_max. lia.
Qed.

(** The encoding of a weight loses less than one unit. *)
Lemma encode_weight_bounds (w : Q) :
  (0 <= w)%Q → (w <= 1)%Q →
  (inject_Z (encodeFixedPoint w) <= w * fixedPointMultiplier)%Q ∧
  (w * fixedPointMultiplier - 1 < inject_Z (encodeFixedPoint w))%Q.
Proof.
  intros H0 H1.
  assert (codec_range w) as Hr.
  { unfold codec_range, fixedPointMultiplier.
    assert (inject_Z i32_min <= 0)%Q by (vm_compute; discriminate).
    assert (10000000 <= inject_Z i32_max)%Q by (vm_compute; discriminate).
    split; lra. }
  rewrite (encodeFixedPoint_trunc w Hr).
  assert (0 <= w * fixedPointMultiplier)%Q as Hn by (unfold fixedPointMultiplier; lra).
  destruct (Qtrunc_bounds_nonneg _ Hn) as (_ & Ha & Hb). split; lra.
Qed.

Lemma encode_weights_sum (ws : list Q) :
  Forall (λ w : Q, (0 <= w)%Q ∧ (w <= 1)%Q) ws →
  (inject_Z (sumZ (map encodeFixedPoint ws)) <= sumQ ws * fixedPointMultiplier)%Q ∧
  (sumQ ws * fixedPointMultiplier - inject_Z (Z.of_nat (length ws))
     <= inject_Z (sumZ (map encodeFixedPoint ws)))%Q.
Proof.
  induction 1 as [|w ws [H0 H1] _ [IH1 IH2]].
  - cbn [map sumZ sumQ foldr length]. change (inject_Z (Z.of_nat 0)) with 0%Q.
    change (inject_Z 0) with 0%Q. unfold fixedPointMultiplier. split; lra.
  - cbn [map sumZ sumQ foldr length]. fold (sumZ (map encodeFixedPoint ws)).
    fold (sumQ ws).
    rewrite Nat2Z.inj_succ, <- Z.add_1_r, !inject_Z_plus.
    change (inject_Z 1) with 1%Q.
    destruct (encode_weight_bounds w H0 H1) as [E1 E2]. split; lra.
Qed.

(** ** Total mass *)

Lemma sumZ_app (l1 l2 : list Z) : sumZ (l1 ++ l2) = sumZ l1 + sumZ l2.
Proof. induction l1 as [|a l1 IH]; cbn; [done|]. fold (sumZ (l1 ++ l2)). rewrite IH.
  fold (sumZ l1). lia. Qed.

Lemma sumZ_map_add {A} (a b : A → Z) (l : list A) :
  sumZ (map (λ i, a i + b i) l) = sumZ (map a l) + sumZ (map b l).
Proof.
  induction l as [|x l IH]; cbn; [done|].
  fold (sumZ (map (λ i, a i + b i) l)). fold (sumZ (map a l)). fold (sumZ (map b l)). lia.
Qed.

Lemma sumZ_indicator (n : nat) (ptr v : Z) :
  sumZ (map (λ i : nat, if decide (ptr = Z.of_nat i) then v else 0) (seq 0 n))
  = if decide (0 ≤ ptr < Z.of_nat n) then v else 0.
Proof.
  induction n as [|n IH].
  - cbn. case_decide; [lia|done].
  - rewrite seq_S, map_app, sumZ_app, IH. cbn.
    repeat case_decide; lia.
Qed.

Lemma massTotal_cons (op : Op) (ops : list Op) :
  massTotal (op :: ops) = (if decide (op.1.2 = FMass) then op.2 else 0) + massTotal ops.
Proof. unfold massTotal. cbn [foldr]. case_decide; lia. Qed.

Lemma massTotal_app (ops1 ops2 : list Op) :
  massTotal (ops1 ++ ops2) = massTotal ops1 + massTotal ops2.
Proof.
  induction ops1 as [|op ops1 IH]; [done|].
  rewrite <- app_comm_cons, !massTotal_cons, IH. lia.
Qed.

(** Summed over the cells of the buffer, the deposits of mass are all the
    mass that was sent. *)
Lemma sum_deposits (n : nat) (ops : list Op) :
  Forall (λ op : Op, 0 ≤ op.1.1 < Z.of_nat n) ops →
  sumZ (map (λ i : nat, depositAt ops (Z.of_nat i) FMass) (seq 0 n)) = massTotal ops.
Proof.
  induction 1 as [|op ops Hop _ IH].
  - cbn. induction (seq 0 n) as [|i l IHl]; cbn; [done|].
    fold (sumZ (map (λ _ : nat, 0) l)). unfold depositAt in IHl. cbn in IHl. lia.
  - rewrite massTotal_cons, <- IH.
    rewrite (map_ext _ (λ i : nat,
               (if decide (op.1.1 = Z.of_nat i) then
                  (if decide (op.1.2 = FMass) then op.2 else 0) else 0)
               + depositAt ops (Z.of_nat i) FMass)).
    + rewrite sumZ_map_add, sumZ_indicator. rewrite decide_True by done. done.
    + intros i. rewrite depositAt_cons. repeat case_decide; try lia; tauto.
Qed.

(** ** The P2G1 pass *)

Lemma activeParticles_cons (u : Uniforms) (pb : list Particle) (i : nat) (order : list nat) :
  activeParticles u pb (i :: order)
  = match (if Z.of_nat i >=? particleCountUniform u then None else pb !! i) with
    | Some p => p :: activeParticles u pb order
    | None => activeParticles u pb order
    end.
Proof. reflexivity. Qed.

Lemma activeInterior_elem (u : Uniforms) (pb : list Particle) (order : list nat)
    (p : Particle) :
  activeInterior u pb order → p ∈ activeParticles u pb order → interior p.
Proof.
  induction 1 as [|i order Hi _ IH]; intros Hp.
  - by apply elem_of_nil in Hp.
  - rewrite activeParticles_cons in Hp.
    destruct (Z.of_nat i >=? particleCountUniform u) eqn:E; [by apply IH|].
    rewrite Z.geb_leb in E. apply Z.leb_gt in E.
    destruct (Hi E) as (q & Hq & Hint). rewrite Hq in Hp.
    apply elem_of_cons in Hp as [->|Hp]; [done | by apply IH].
Qed.

(** A pass over particles that are all in the buffer is the list of their
    additions. *)
Lemma p2g1_pass_ops (u : Uniforms) (pb : list Particle) (order : list nat) :
  activeInterior u pb order →
  ∀ cb : list Cell,
    dispatch (p2g1Kernel u pb) order cb = applyOps (p2g1PassOps u pb order) cb.
Proof.
  induction 1 as [|i order Hi _ IH]; intros cb; [done|].
  cbn [dispatch]. rewrite p2g1Kernel_contrib. unfold p2g1PassOps, p2g1Contrib.
  rewrite activeParticles_cons.
  destruct (Z.of_nat i >=? particleCountUniform u) eqn:E.
  - cbn. apply IH.
  - rewrite Z.geb_leb in E. apply Z.leb_gt in E.
    destruct (Hi E) as (q & -> & _). cbn [mbind option_bind flat_map].
    rewrite applyOps_app.
    destruct (applyOps (p2g1Ops q) cb) as [cb1|]; cbn [mbind option_bind]; [|done].
    apply IH.
Qed.

Lemma p2g1CellOps_spec (p : Particle) (g : ivec3) :
  Forall (λ op : Op, op.1.1 = stencilPtr p g ∧ (op.1.2 = FMass → 0 ≤ op.2))
    (p2g1CellOps p g) ∧
  massTotal (p2g1CellOps p g) = encodeFixedPoint (stencilWeight p g).
Proof.
  split.
  - unfold p2g1CellOps. repeat constructor; cbn; try done.
    intros _. apply encodeFixedPoint_nonneg. apply stencilWeight_range.
  - unfold p2g1CellOps. rewrite !massTotal_cons. cbn [fst snd].
    rewrite !decide_False by done. rewrite decide_True by done.
    unfold massTotal. cbn [foldr]. lia.
Qed.

Lemma p2g1Ops_spec (p : Particle) :
  Forall (λ op : Op, (∃ g, g ∈ stencilOffsets ∧ op.1.1 = stencilPtr p g) ∧
                     (op.1.2 = FMass → 0 ≤ op.2)) (p2g1Ops p).
Proof.
  unfold p2g1Ops. apply Forall_flat_map. apply list.Forall_forall. intros g Hg.
  destruct (p2g1CellOps_spec p g) as [H _].
  eapply Forall_impl; [|exact H]. cbn. intros op [H1 H2]. split; [|done]. by exists g.
Qed.

Lemma p2g1Ops_massTotal (p : Particle) :
  massTotal (p2g1Ops p)
  = sumZ (map encodeFixedPoint (map (stencilWeight p) stencilOffsets)).
Proof.
  unfold p2g1Ops. induction stencilOffsets as [|g l IH]; [done|].
  cbn [flat_map map sumZ foldr]. rewrite massTotal_app, IH.
  destruct (p2g1CellOps_spec p g) as [_ ->]. done.
Qed.

(** The mass one particle sends to the grid: one unit of the fixed-point
    scale, less at most one count for each of the 27 cells. *)
Lemma p2g1Ops_massTotal_bounds (p : Particle) :
  10000000 - 27 ≤ massTotal (p2g1Ops p) ≤ 10000000.
Proof.
  rewrite p2g1Ops_massTotal.
  destruct (encode_weights_sum (map (stencilWeight p) stencilOffsets)) as [H1 H2].
  { apply Forall_map. apply list.Forall_forall. intros g _. apply stencilWeight_range. }
  rewrite (stencil_weights_sum p) in H1, H2.
  rewrite length_map in H2.
  replace (length stencilOffsets) with 27%nat in H2 by (by rewrite stencilOffsets_eq).
  unfold fixedPointMultiplier in *.
  set (t := sumZ _) in *. clearbody t.
  change (inject_Z (Z.of_nat 27)) with 27%Q in H2.
  split.
  - rewrite Zle_Qle. change (inject_Z (10000000 - 27)) with (10000000 - 27)%Q. lra.
  - rewrite Zle_Qle. change (inject_Z 10000000) with 10000000%Q. lra.
Qed.

Lemma pass_massTotal_bounds (ps : list Particle) :
  (10000000 - 27) * Z.of_nat (length ps) ≤ massTotal (flat_map p2g1Ops ps)
  ≤ 10000000 * Z.of_nat (length ps).
Proof.
  induction ps as [|p ps IH]; [cbn; lia|].
  cbn [flat_map length]. rewrite massTotal_app, Nat2Z.inj_succ.
  pose proof (p2g1Ops_massTotal_bounds p). lia.
Qed.

Lemma pass_ops_spec (u : Uniforms) (pb : list Particle) (order : list nat) :
  activeInterior u pb order →
  Forall (λ op : Op, 0 ≤ op.1.1 < cellCount ∧ (op.1.2 = FMass → 0 ≤ op.2))
    (p2g1PassOps u pb order).
Proof.
  intros Hact. unfold p2g1PassOps. apply Forall_flat_map. apply list.Forall_forall.
  intros p Hp. pose proof (activeInterior_elem u pb order p Hact Hp) as Hint.
  eapply Forall_impl; [|apply p2g1Ops_spec]. cbn.
  intros op [(g & Hg & ->) Hnn]. split; [|done]. by apply interior_stencil_in_grid.
Qed.

Lemma massFits_all (ops : list Op) (ptr : Z) :
  massFits ops → depositAt ops ptr FMass ≤ i32_max.
Proof.
  intros Hfit.
  destruct (decide (Exists (λ op : Op, op.1.1 = ptr) ops)) as [Hex|Hnex].
  - apply Exists_exists in Hex as (op & Hop & <-).
    unfold massFits in Hfit. rewrite Forall_forall in Hfit. by apply Hfit.
  - rewrite depositAt_absent; [unfold i32_max; lia|].
    by apply Forall_Exists_neg.
Qed.

Lemma map_fmap {A B} (f : A → B) (l : list A) : map f l = f <$> l.
Proof. reflexivity. Qed.

(** The masses a pass leaves in a grid of zeros are the deposits. *)
Lemma zero_grid_masses (ops : list Op) (n : nat) (cb' : list Cell) :
  applyOps ops (replicate n (mkCell 0 0 0 0)) = Some cb' →
  Forall (λ op : Op, op.1.2 = FMass → 0 ≤ op.2) ops →
  massFits ops →
  map cell_mass cb' = map (λ i : nat, depositAt ops (Z.of_nat i) FMass) (seq 0 n).
Proof.
  intros H Hnn Hfit. rewrite !map_fmap. apply list_eq. intros i.
  pose proof (applyOps_length _ _ _ H) as Hlen. rewrite length_replicate in Hlen.
  rewrite !list_lookup_fmap.
  destruct (decide (i < n)%nat) as [Hi|Hi].
  - destruct (zero_grid_lookup ops n cb' i FMass H Hi) as (c' & -> & Hm).
    { split; [by apply depositAt_nonneg | by apply massFits_all]. }
    rewrite lookup_seq_lt by done. cbn. f_equal. exact Hm.
  - rewrite lookup_ge_None_2 by lia. rewrite lookup_seq_ge by lia. done.
Qed.

Lemma totalMass_sum (cb : list Cell) :
  (totalMass cb == inject_Z (sumZ (map cell_mass cb)) / fixedPointMultiplier)%Q.
Proof.
  unfold fixedPointMultiplier. induction cb as [|c cb IH].
  - reflexivity.
  - cbn [totalMass map sumZ foldr]. fold (totalMass cb). fold (sumZ (map cell_mass cb)).
    rewrite IH, inject_Z_plus. unfold decodeFixedPoint, float, fixedPointMultiplier.
    field.
Qed.

Lemma cellCount_value : cellCount = 262144.
Proof. reflexivity. Qed.

Lemma clearedGrid_unfold :
  clearedGrid = replicate (Z.to_nat cellCount) (mkCell 0 0 0 0).
Proof. reflexivity. Qed.

(** A pass over interior particles succeeds on the cleared grid. *)
Lemma p2g1_pass_succeeds (u : Uniforms) (pb : list Particle) (order : list nat) :
  activeInterior u pb order →
  ∃ cb' : list Cell,
    dispatch (p2g1Kernel u pb) order clearedGrid = Some cb' ∧
    applyOps (p2g1PassOps u pb order) (replicate (Z.to_nat cellCount) (mkCell 0 0 0 0))
    = Some cb'.
Proof.
  intros Hact. rewrite (p2g1_pass_ops u pb order Hact).
  assert (is_Some (applyOps (p2g1PassOps u pb order) clearedGrid)) as [cb' E].
  { apply applyOps_is_Some. rewrite clearedGrid_length.
    eapply Forall_impl; [|apply (pass_ops_spec u pb order Hact)].
    intros op [H _]. exact H. }
  exists cb'. split; [exact E|]. rewrite clearedGrid_unfold in E. exact E.
Qed.

Lemma div_scale (a : Q) : (a / fixedPointMultiplier == a * (1 # 10000000))%Q.
Proof. unfold fixedPointMultiplier. field. Qed.

Lemma depositAt_le_massTotal (ops : list Op) (ptr : Z) :
  Forall (λ op : Op, op.1.2 = FMass → 0 ≤ op.2) ops →
  depositAt ops ptr FMass ≤ massTotal ops.
Proof.
  induction 1 as [|op ops Hop _ IH]; [done|].
  rewrite depositAt_cons, massTotal_cons.
  destruct (decide (op.1.2 = FMass)) as [Hf|Hf].
  - specialize (Hop Hf). case_decide; lia.
  - rewrite decide_False by (intros [_ ?]; done). lia.
Qed.

(** Few enough particles cannot overflow the mass of any cell. *)
Lemma massFits_few (u : Uniforms) (pb : list Particle) (order : list nat) :
  activeInterior u pb order →
  10000000 * Z.of_nat (length (activeParticles u pb order)) ≤ i32_max →
  massFits (p2g1PassOps u pb order).
Proof.
  intros Hact Hfew. unfold massFits. apply list.Forall_forall. intros op _.
  pose proof (pass_ops_spec u pb order Hact) as Hspec.
  assert (Forall (λ op : Op, op.1.2 = FMass → 0 ≤ op.2) (p2g1PassOps u pb order)) as Hnn.
  { eapply Forall_impl; [|exact Hspec]. cbn beta. by intros o [_ H]. }
  pose proof (depositAt_le_massTotal _ op.1.1 Hnn) as H1.
  pose proof (pass_massTotal_bounds (activeParticles u pb order)) as [_ H2].
  fold (p2g1PassOps u pb order) in H2. lia.
Qed.

Lemma example_interior : activeInterior example_uniforms example_particles [0; 1]%nat.
Proof.
  repeat constructor; intros _; eexists; (split; [reflexivity|]);
    repeat split; vm_compute; first [discriminate | reflexivity].
Qed.

(** C3: after P2G1 has run from the cleared grid on particles whose
    stencils lie in the grid, and no cell has overflowed, the decoded masses
    of all cells sum to the number of particles processed, up to one
    decoded unit ([decode 1 = 1e-7]) for each of the 27 additions of a
    particle: the 27 weights of a particle sum to exactly one, and each
    encoded weight is short of the weight by less than one unit. *)
Theorem p2g1_mass_conservation (u : Uniforms) (particleBuffer : list Particle)
    (order : list nat) :
  activeInterior u particleBuffer order →
  massFits (p2g1PassOps u particleBuffer order) →
  ∃ cellBuffer' : list Cell,
    dispatch (p2g1Kernel u particleBuffer) order clearedGrid = Some cellBuffer' ∧
    (∀ p : Particle, p ∈ activeParticles u particleBuffer order →
       (sumQ (map (stencilWeight p) stencilOffsets) == 1)%Q) ∧
    (inject_Z (Z.of_nat (length (activeParticles u particleBuffer order)))
       - 27 * inject_Z (Z.of_nat (length (activeParticles u particleBuffer order)))
         * decodeFixedPoint 1
     <= totalMass cellBuffer')%Q ∧
    (totalMass cellBuffer'
     <= inject_Z (Z.of_nat (length (activeParticles u particleBuffer order))))%Q.
Proof.
  intros Hact Hfit.
  destruct (p2g1_pass_succeeds u particleBuffer order Hact) as (cb' & Hd & Ha).
  exists cb'. split; [exact Hd|]. split; [intros p _; apply stencil_weights_sum|].
  pose proof (pass_ops_spec u particleBuffer order Hact) as Hspec.
  assert (Forall (λ op : Op, op.1.2 = FMass → 0 ≤ op.2)
            (p2g1PassOps u particleBuffer order)) as Hnn.
  { eapply Forall_impl; [|exact Hspec]. cbn. by intros op [_ H]. }
  assert (Forall (λ op : Op, 0 ≤ op.1.1 < Z.of_nat (Z.to_nat cellCount))
            (p2g1PassOps u particleBuffer order)) as Hrange.
  { eapply Forall_impl; [|exact Hspec]. cbn. intros op [H _].
    rewrite Z2Nat.id; [done|]. rewrite cellCount_value. lia. }
  pose proof (zero_grid_masses _ _ _ Ha Hnn Hfit) as Hm.
  pose proof (sum_deposits _ _ Hrange) as Hsum.
  pose proof (pass_massTotal_bounds (activeParticles u particleBuffer order)) as [B1 B2].
  fold (p2g1PassOps u particleBuffer order) in B1, B2.
  rewrite totalMass_sum, Hm, Hsum.
  set (M := massTotal (p2g1PassOps u particleBuffer order)) in *. clearbody M.
  set (N := Z.of_nat (length (activeParticles u particleBuffer order))) in *.
  clearbody N.
  rewrite Zle_Qle in B1, B2. rewrite !inject_Z_mult in B1, B2.
  change (inject_Z (10000000 - 27)) with (10000000 - 27)%Q in B1.
  change (inject_Z 10000000) with 10000000%Q in B2.
  rewrite div_scale.
  assert (decodeFixedPoint 1 == 1 # 10000000)%Q as -> by reflexivity.
  split; lra.
Qed.

Lemma p2g1_mass_conservation_witness :
  ∃ cellBuffer' : list Cell,
    dispatch (p2g1Kernel example_uniforms example_particles) [0; 1]%nat clearedGrid
    = Some cellBuffer' ∧
    (2 - 27 * 2 * decodeFixedPoint 1 <= totalMass cellBuffer')%Q ∧
    (totalMass cellBuffer' <= 2)%Q.
Proof.
  destruct (p2g1_mass_conservation example_uniforms example_particles [0; 1]%nat)
    as (cb' & Hd & _ & H1 & H2).
  - exact example_interior.
  - apply massFits_few; [exact example_interior|]. vm_compute. discriminate.
  - exists cb'. split; [exact Hd|]. split; [exact H1 | exact H2].
Defined.

(** ** The density of P2G2 *)

Lemma density_fold (cb : list Cell) (p : Particle) (l : list ivec3) : ∀ acc : Q,
  Forall (λ g : ivec3, 0 ≤ stencilPtr p g < Z.of_nat (length cb)) l →
  foldM (λ (g : ivec3) (density : Q),
           mass ← decodeFixedPoint <$>
                    atomicLoad cb
                      (cellPtrOf (iadd (cellIndexOf (gridPositionOf (position p)))
                                       (IVec3 (i_x g) (i_y g) (i_z g)))) FMass;
           Some (density
                 + mass * weightOf (cellDiffOf (gridPositionOf (position p)))
                            (i_x g) (i_y g) (i_z g))%Q) l acc
  = Some (foldl (λ density g,
                   density + decodeFixedPoint (massOf cb (stencilPtr p g))
                             * stencilWeight p g)%Q acc l).
Proof.
  induction l as [|g l IH]; intros acc Hr; [done|].
  inversion Hr as [|? ? Hg Hl]; subst.
  destruct g as [gx gy gz].
  assert (atomicLoad cb
            (cellPtrOf (iadd (cellIndexOf (gridPositionOf (position p)))
                             (IVec3 gx gy gz))) FMass
          = Some (massOf cb (stencilPtr p (IVec3 gx gy gz)))) as Hm.
  { unfold massOf, stencilPtr in *.
    destruct (atomicLoad cb _ FMass) as [m|] eqn:E; [done|].
    exfalso. unfold atomicLoad in E.
    destruct (element cb _) as [c|] eqn:Ec; [done|].
    apply element_None in Ec. by apply Ec. }
  cbn [foldM foldl i_x i_y i_z]. rewrite Hm.
  cbn [fmap option_fmap option_map mbind option_bind]. by apply IH.
Qed.

Lemma p2g2Density_densityOf (cb : list Cell) (p : Particle) :
  Forall (λ g : ivec3, 0 ≤ stencilPtr p g < Z.of_nat (length cb)) stencilOffsets →
  p2g2Density cb (cellIndexOf (gridPositionOf (position p)))
    (cellDiffOf (gridPositionOf (position p)))
  = Some (densityOf (massOf cb) p).
Proof.
  intros Hr. unfold p2g2Density, densityOf. rewrite stencil_loops.
  by apply density_fold.
Qed.

Lemma decodeFixedPoint_mono (a b : Z) :
  a ≤ b → (decodeFixedPoint a <= decodeFixedPoint b)%Q.
Proof.
  intros H. unfold decodeFixedPoint, float. rewrite !div_scale.
  rewrite Zle_Qle in H. lra.
Qed.

Lemma decodeFixedPoint_nonneg (a : Z) : 0 ≤ a → (0 <= decodeFixedPoint a)%Q.
Proof.
  intros H. pose proof (decodeFixedPoint_mono 0 a H) as Hm.
  assert (decodeFixedPoint 0 == 0)%Q as E by reflexivity. lra.
Qed.

Lemma encodeFixedPoint_mono (a b : Q) :
  (a <= b)%Q → encodeFixedPoint a ≤ encodeFixedPoint b.
Proof.
  intros H. unfold encodeFixedPoint, int.
  assert (Qtrunc (a * fixedPointMultiplier) ≤ Qtrunc (b * fixedPointMultiplier)) as Ht.
  { apply Qtrunc_mono. unfold fixedPointMultiplier. lra. }
  lia.
Qed.

(** Sums of stencil terms compare term by term. *)
Lemma stencil_sum_le (t1 t2 : ivec3 → Q) (l : list ivec3) : ∀ a b : Q,
  (a <= b)%Q → Forall (λ g, t1 g <= t2 g)%Q l →
  (foldl (λ acc g, acc + t1 g)%Q a l <= foldl (λ acc g, acc + t2 g)%Q b l)%Q.
Proof.
  induction l as [|g l IH]; intros a b Hab Hl; [done|].
  inversion Hl as [|? ? Hg Hrest]; subst. cbn [foldl]. apply IH; [lra|done].
Qed.

Lemma stencil_sum_ge_start (t : ivec3 → Q) (l : list ivec3) : ∀ a : Q,
  Forall (λ g, 0 <= t g)%Q l → (a <= foldl (λ acc g, acc + t g)%Q a l)%Q.
Proof.
  induction l as [|g l IH]; intros a Hl; [cbn; lra|].
  inversion Hl as [|? ? Hg Hrest]; subst. cbn [foldl].
  specialize (IH (a + t g)%Q Hrest). lra.
Qed.

Lemma stencil_sum_ge_member (t : ivec3 → Q) (l : list ivec3) (g : ivec3) : ∀ a : Q,
  (0 <= a)%Q → Forall (λ g, 0 <= t g)%Q l → g ∈ l →
  (t g <= foldl (λ acc g, acc + t g)%Q a l)%Q.
Proof.
  induction l as [|h l IH]; intros a Ha Hl Hg; [by apply elem_of_nil in Hg|].
  inversion Hl as [|? ? Hh Hrest]; subst. cbn [foldl].
  apply elem_of_cons in Hg as [->|Hg].
  - pose proof (stencil_sum_ge_start t l (a + t h)%Q Hrest). lra.
  - apply IH; [lra|done|done].
Qed.

(** The centre cell of the stencil has weight at least [1/8]. *)
Lemma centre_weight (p : Particle) : (1 # 8 <= stencilWeight p (IVec3 1 1 1))%Q.
Proof.
  unfold stencilWeight, weightOf, cellDiffOf, vsubs, vfract, vmap.
  cbn [v_x v_y v_z i_x i_y i_z weights w1 vmap].
  set (gp := gridPositionOf (position p)). clearbody gp.
  destruct (cellDiff_range (v_x gp)) as [Hx1 Hx2].
  destruct (cellDiff_range (v_y gp)) as [Hy1 Hy2].
  destruct (cellDiff_range (v_z gp)) as [Hz1 Hz2].
  set (dx := (fract (v_x gp) - (1 # 2))%Q) in *. clearbody dx.
  set (dy := (fract (v_y gp) - (1 # 2))%Q) in *. clearbody dy.
  set (dz := (fract (v_z gp) - (1 # 2))%Q) in *. clearbody dz.
  destruct (axis_weights_range dx) as (_ & Ax1 & _); [lra|lra|].
  destruct (axis_weights_range dy) as (_ & Ay1 & _); [lra|lra|].
  destruct (axis_weights_range dz) as (_ & Az1 & _); [lra|lra|].
  set (a := ((3 # 4) - dx * dx)%Q) in *. clearbody a.
  set (b := ((3 # 4) - dy * dy)%Q) in *. clearbody b.
  set (c := ((3 # 4) - dz * dz)%Q) in *. clearbody c.
  assert (1 # 4 <= a * b)%Q by nra. nra.
Qed.

(** The own deposits of a particle give it a density of at least [1/64]. *)
Lemma ownDensity_positive (p : Particle) : (1 # 64 <= ownDensity p)%Q.
Proof.
  unfold ownDensity.
  pose proof (stencil_sum_ge_member
    (λ g, decodeFixedPoint (encodeFixedPoint (stencilWeight p g)) * stencilWeight p g)%Q
    stencilOffsets (IVec3 1 1 1) 0%Q) as H.
  cbn beta in H.
  assert (1 # 64 <= decodeFixedPoint (encodeFixedPoint (stencilWeight p (IVec3 1 1 1)))
                    * stencilWeight p (IVec3 1 1 1))%Q as Hc.
  { pose proof (centre_weight p) as Hw.
    pose proof (encodeFixedPoint_mono _ _ Hw) as He.
    change (encodeFixedPoint (1 # 8)) with 1250000 in He.
    pose proof (decodeFixedPoint_mono _ _ He) as Hd.
    assert (decodeFixedPoint 1250000 == 1 # 8)%Q as Hv by reflexivity.
    rewrite Hv in Hd. nra. }
  assert (1 # 64 <= foldl
            (λ acc g, acc + decodeFixedPoint (encodeFixedPoint (stencilWeight p g))
                            * stencilWeight p g)%Q 0%Q stencilOffsets)%Q as Hge.
  { eapply Qle_trans; [exact Hc|]. apply H.
    - lra.
    - apply list.Forall_forall. intros g _.
      destruct (stencilWeight_range p g) as [H0 _].
      pose proof (decodeFixedPoint_nonneg _ (encodeFixedPoint_nonneg _ H0)). nra.
    - rewrite stencilOffsets_eq. apply list_elem_of_In. cbn. tauto. }
  exact Hge.
Qed.

(** Where every stencil cell holds at least what the particle itself has
    deposited in it, the density is at least the own density. *)
Lemma densityOf_ge_own (mass : Z → Z) (p : Particle) :
  Forall (λ g : ivec3, encodeFixedPoint (stencilWeight p g) ≤ mass (stencilPtr p g))
    stencilOffsets →
  (ownDensity p <= densityOf mass p)%Q.
Proof.
  intros H. unfold ownDensity, densityOf.
  apply (stencil_sum_le
    (λ g, decodeFixedPoint (encodeFixedPoint (stencilWeight p g)) * stencilWeight p g)%Q
    (λ g, decodeFixedPoint (mass (stencilPtr p g)) * stencilWeight p g)%Q); [lra|].
  eapply Forall_impl; [|exact H]. cbn beta. intros g Hg.
  destruct (stencilWeight_range p g) as [H0 _].
  pose proof (decodeFixedPoint_mono _ _ Hg). nra.
Qed.

(** ** No division by zero *)

Lemma p2g1PassOps_mass_op (u : Uniforms) (pb : list Particle) (order : list nat)
    (p : Particle) (g : ivec3) :
  p ∈ activeParticles u pb order → g ∈ stencilOffsets →
  (stencilPtr p g, FMass, encodeFixedPoint (stencilWeight p g)) ∈ p2g1PassOps u pb order.
Proof.
  intros Hp Hg. unfold p2g1PassOps. apply list_elem_of_In, in_flat_map.
  exists p. split; [by apply list_elem_of_In|].
  apply list_elem_of_In. by apply p2g1Ops_mass_op.
Qed.

(** After P2G1, every stencil cell of a particle holds at least what the
    particle has deposited in it. *)
Lemma masses_ge_own (u : Uniforms) (pb : list Particle) (order : list nat)
    (cb1 : list Cell) (p : Particle) :
  activeInterior u pb order →
  massFits (p2g1PassOps u pb order) →
  applyOps (p2g1PassOps u pb order) (replicate (Z.to_nat cellCount) (mkCell 0 0 0 0))
    = Some cb1 →
  p ∈ activeParticles u pb order →
  Forall (λ g : ivec3, encodeFixedPoint (stencilWeight p g) ≤ massOf cb1 (stencilPtr p g))
    stencilOffsets.
Proof.
  intros Hact Hfit Ha Hp. apply list.Forall_forall. intros g Hg.
  pose proof (activeInterior_elem u pb order p Hact Hp) as Hint.
  pose proof (interior_stencil_in_grid p g Hint Hg) as Hr.
  pose proof (pass_ops_spec u pb order Hact) as Hspec.
  assert (Forall (λ op : Op, op.1.2 = FMass → 0 ≤ op.2) (p2g1PassOps u pb order)) as Hnn.
  { eapply Forall_impl; [|exact Hspec]. cbn beta. by intros op [_ H]. }
  pose proof (depositAt_member (p2g1PassOps u pb order)
                (stencilPtr p g, FMass, encodeFixedPoint (stencilWeight p g)) Hnn
                (p2g1PassOps_mass_op u pb order p g Hp Hg)) as Hdep.
  cbn [fst snd] in Hdep.
  destruct (zero_grid_lookup (p2g1PassOps u pb order) (Z.to_nat cellCount) cb1
              (Z.to_nat (stencilPtr p g)) FMass Ha) as (c' & Hc' & Hm).
  { lia. }
  { rewrite Z2Nat.id by lia.
    split; [by apply depositAt_nonneg | by apply massFits_all]. }
  rewrite Z2Nat.id in Hm by lia.
  unfold massOf, atomicLoad. rewrite element_lookup by lia. rewrite Hc'.
  cbn [fmap option_fmap option_map]. change (get FMass c') with (cell_mass c') in *.
  lia.
Qed.

Lemma p2g2Ops_ptrs (u : Uniforms) (p : Particle) (volume : Q) :
  Forall (λ op : Op, ∃ g, g ∈ stencilOffsets ∧ op.1.1 = stencilPtr p g)
    (p2g2Ops u p volume).
Proof.
  unfold p2g2Ops. apply Forall_flat_map. apply list.Forall_forall. intros g Hg.
  unfold p2g2CellOps. repeat constructor; by exists g.
Qed.

Lemma fdiv_positive (a d : Q) : (0 < d)%Q → fdiv a d = Some (a / d)%Q.
Proof.
  intros H. unfold fdiv.
  assert (Qeq_bool d 0 = false) as -> by (apply Qeq_bool_false; lra). done.
Qed.

Lemma bind_Some {A B} (a : A) (f : A → option B) : Some a ≫= f = f a.
Proof. reflexivity. Qed.

Lemma p2g2Contrib_inactive (u : Uniforms) (pb : list Particle) (i : nat) (cb : list Cell) :
  particleCountUniform u ≤ Z.of_nat i → p2g2Contrib u pb i cb = Some [].
Proof.
  intros H. unfold p2g2Contrib.
  assert ((Z.of_nat i >=? particleCountUniform u) = true) as ->; [|done].
  rewrite Z.geb_leb. by apply Z.leb_le.
Qed.

(** What an active particle with an in-grid stencil and a positive density
    adds in P2G2. *)
Lemma p2g2Contrib_active (u : Uniforms) (pb : list Particle) (i : nat) (cb : list Cell)
    (q : Particle) :
  Z.of_nat i < particleCountUniform u →
  pb !! i = Some q →
  Forall (λ g : ivec3, 0 ≤ stencilPtr q g < Z.of_nat (length cb)) stencilOffsets →
  (0 < densityOf (massOf cb) q)%Q →
  p2g2Contrib u pb i cb = Some (p2g2Ops u q (1 / densityOf (massOf cb) q)).
Proof.
  intros Hact Hq Hr Hpos. unfold p2g2Contrib.
  assert ((Z.of_nat i >=? particleCountUniform u) = false) as ->.
  { rewrite Z.geb_leb. by apply Z.leb_gt. }
  rewrite Hq, bind_Some, (p2g2Density_densityOf cb q Hr), bind_Some.
  rewrite (fdiv_positive 1 _ Hpos), bind_Some. reflexivity.
Qed.

Lemma activeParticles_here (u : Uniforms) (pb : list Particle) (i : nat)
    (order : list nat) (q : Particle) :
  Z.of_nat i < particleCountUniform u → pb !! i = Some q →
  activeParticles u pb (i :: order) = q :: activeParticles u pb order.
Proof.
  intros Hact Hq. rewrite activeParticles_cons.
  assert ((Z.of_nat i >=? particleCountUniform u) = false) as ->.
  { rewrite Z.geb_leb. by apply Z.leb_gt. }
  by rewrite Hq.
Qed.

Lemma activeParticles_further (u : Uniforms) (pb : list Particle) (i : nat)
    (order : list nat) (p : Particle) :
  p ∈ activeParticles u pb order → p ∈ activeParticles u pb (i :: order).
Proof.
  intros Hp. rewrite activeParticles_cons.
  destruct (if Z.of_nat i >=? particleCountUniform u then None else pb !! i);
    [by apply list_elem_of_further | done].
Qed.

(** With positive densities, P2G2 runs to the end on any grid that has the
    masses P2G1 has left. *)
Lemma p2g2_pass_succeeds (u : Uniforms) (pb : list Particle) (order : list nat)
    (cb1 : list Cell) :
  activeInterior u pb order →
  Z.of_nat (length cb1) = cellCount →
  (∀ p : Particle, p ∈ activeParticles u pb order → (0 < densityOf (massOf cb1) p)%Q) →
  ∀ cb : list Cell,
    cell_mass <$> cb = cell_mass <$> cb1 → length cb = length cb1 →
    is_Some (dispatch (p2g2Kernel u pb) order cb).
Proof.
  intros Hact Hlen1. induction Hact as [|i order Hi Hact IH]; intros Hdens cb Hm Hl.
  - by eexists.
  - assert (∀ p, p ∈ activeParticles u pb order → (0 < densityOf (massOf cb1) p)%Q)
      as Hdens'.
    { intros p Hp. apply Hdens. by apply activeParticles_further. }
    assert (dispatch (p2g2Kernel u pb) (i :: order) cb
            = p2g2Kernel u pb i cb ≫= dispatch (p2g2Kernel u pb) order) as ->
      by reflexivity.
    rewrite p2g2Kernel_contrib, (p2g2Contrib_masses u pb i cb cb1 Hm).
    destruct (Z_lt_le_dec (Z.of_nat i) (particleCountUniform u)) as [E|E].
    + destruct (Hi E) as (q & Hq & Hint).
      assert (Forall (λ g : ivec3, 0 ≤ stencilPtr q g < Z.of_nat (length cb1))
                stencilOffsets) as Hr.
      { apply list.Forall_forall. intros g Hg. rewrite Hlen1.
        by apply interior_stencil_in_grid. }
      assert (0 < densityOf (massOf cb1) q)%Q as Hpos.
      { apply Hdens. rewrite (activeParticles_here u pb i order q E Hq).
        apply list_elem_of_here. }
      rewrite (p2g2Contrib_active u pb i cb1 q E Hq Hr Hpos), bind_Some.
      remember (p2g2Ops u q (1 / densityOf (massOf cb1) q)) as ops eqn:Hops.
      assert (is_Some (applyOps ops cb)) as [cb' Hcb'].
      { apply applyOps_is_Some. rewrite Hl, Hops.
        eapply Forall_impl; [|apply p2g2Ops_ptrs].
        intros op (g & Hg & ->). rewrite list.Forall_forall in Hr. by apply Hr. }
      rewrite Hcb', bind_Some. apply IH; [exact Hdens'| |].
      * rewrite <- Hm. apply (applyOps_masses ops); [|exact Hcb'].
        rewrite Hops. apply p2g2Ops_momentum.
      * rewrite <- Hl. by apply (applyOps_length ops).
    + rewrite (p2g2Contrib_inactive u pb i cb1 E), bind_Some.
      assert (applyOps [] cb = Some cb) as -> by reflexivity.
      rewrite bind_Some. by apply IH.
Qed.

Lemma updateGrid_skips_empty (cb : list Cell) (fb : list vec4) (i : nat) (c : Cell) :
  cb !! i = Some c → (decodeFixedPoint (cell_mass c) <= 0)%Q →
  updateGridKernel cb i fb = Some fb.
Proof.
  intros Hc Hm. unfold updateGridKernel.
  destruct (Z.of_nat i >=? cellCount); [done|].
  unfold atomicLoad. rewrite !element_lookup by lia. rewrite Nat2Z.id, Hc.
  cbn [fmap option_fmap option_map mbind option_bind get].
  by rewrite (proj2 (Qle_bool_true _ _) Hm).
Qed.

Lemma updateGrid_total (cb : list Cell) (fb : list vec4) (i : nat) :
  (i < length cb)%nat → (i < length fb)%nat → is_Some (updateGridKernel cb i fb).
Proof.
  intros Hc Hf. unfold updateGridKernel.
  destruct (Z.of_nat i >=? cellCount); [by eexists|].
  destruct (lookup_lt_is_Some_2 cb i Hc) as [c Hcell].
  destruct (lookup_lt_is_Some_2 fb i Hf) as [old Hold].
  unfold atomicLoad. rewrite !element_lookup by lia. rewrite Nat2Z.id, Hcell.
  cbn [fmap option_fmap option_map mbind option_bind get].
  destruct (Qle_bool (decodeFixedPoint (cell_mass c)) 0) eqn:E; [by eexists|].
  apply Qle_bool_false in E. rewrite !(fdiv_positive _ _ E).
  cbn [mbind option_bind]. unfold assign. rewrite element_lookup by lia.
  rewrite Nat2Z.id, Hold. by eexists.
Qed.

(** C6: the divisions by mass and by density never divide by zero.  The
    grid update returns without dividing or writing when the decoded mass of
    its cell is not positive, and runs to the end otherwise.  In P2G2, run
    on the grid that P2G1 has left (from the cleared grid, on particles with
    in-grid stencils, without overflow), the density summed over the stencil
    of every active particle is at least the density its own deposits give,
    which is positive; [1 / density] is therefore defined, and the pass runs
    to the end. *)
Theorem no_division_by_zero (u : Uniforms) (particleBuffer : list Particle)
    (order : list nat) :
  (∀ (cellBuffer : list Cell) (cellBufferFloat : list vec4) (i : nat) (c : Cell),
     cellBuffer !! i = Some c → (decodeFixedPoint (cell_mass c) <= 0)%Q →
     updateGridKernel cellBuffer i cellBufferFloat = Some cellBufferFloat) ∧
  (∀ (cellBuffer : list Cell) (cellBufferFloat : list vec4) (i : nat),
     (i < length cellBuffer)%nat → (i < length cellBufferFloat)%nat →
     is_Some (updateGridKernel cellBuffer i cellBufferFloat)) ∧
  (activeInterior u particleBuffer order →
   massFits (p2g1PassOps u particleBuffer order) →
   ∃ cellBuffer1 : list Cell,
     dispatch (p2g1Kernel u particleBuffer) order clearedGrid = Some cellBuffer1 ∧
     (∀ p : Particle, p ∈ activeParticles u particleBuffer order →
        ∃ density : Q,
          p2g2Density cellBuffer1 (cellIndexOf (gridPositionOf (position p)))
            (cellDiffOf (gridPositionOf (position p))) = Some density ∧
          (ownDensity p <= density)%Q ∧
          (0 < ownDensity p)%Q ∧
          (0 < density)%Q ∧
          fdiv 1 density = Some (1 / density)%Q) ∧
     is_Some (dispatch (p2g2Kernel u particleBuffer) order cellBuffer1)).
Proof.
  split; [apply updateGrid_skips_empty|]. split; [apply updateGrid_total|].
  intros Hact Hfit.
  destruct (p2g1_pass_succeeds u particleBuffer order Hact) as (cb1 & Hd & Ha).
  exists cb1. split; [exact Hd|].
  assert (Z.of_nat (length cb1) = cellCount) as Hlen.
  { rewrite (applyOps_length _ _ _ Ha), length_replicate, Z2Nat.id; [done|].
    rewrite cellCount_value. lia. }
  assert (∀ p : Particle, p ∈ activeParticles u particleBuffer order →
            (ownDensity p <= densityOf (massOf cb1) p)%Q) as Hown.
  { intros p Hp. apply densityOf_ge_own.
    by apply (masses_ge_own u particleBuffer order cb1 p). }
  split.
  - intros p Hp. exists (densityOf (massOf cb1) p).
    pose proof (ownDensity_positive p) as Hpos. pose proof (Hown p Hp) as Hge.
    split.
    { apply p2g2Density_densityOf. apply list.Forall_forall. intros g Hg.
      rewrite Hlen. apply interior_stencil_in_grid; [|done].
      by apply (activeInterior_elem u particleBuffer order). }
    split; [exact Hge|]. split; [lra|]. split; [lra|].
    apply fdiv_positive. lra.
  - apply (p2g2_pass_succeeds u particleBuffer order cb1 Hact Hlen); [|done|done].
    intros p Hp. pose proof (ownDensity_positive p). pose proof (Hown p Hp). lra.
Qed.

Lemma no_division_by_zero_witness :
  updateGridKernel [mkCell 5 0 0 0] O [Vec4 1 1 1 1] = Some [Vec4 1 1 1 1] ∧
  is_Some (updateGridKernel [mkCell 5 0 0 3] O [Vec4 1 1 1 1]) ∧
  ∃ cellBuffer1 : list Cell,
    dispatch (p2g1Kernel example_uniforms example_particles) [0; 1]%nat clearedGrid
    = Some cellBuffer1 ∧
    is_Some (dispatch (p2g2Kernel example_uniforms example_particles) [0; 1]%nat
               cellBuffer1).
Proof.
  destruct (no_division_by_zero example_uniforms example_particles [0; 1]%nat)
    as (Hskip & Htotal & Hpass).
  split; [|split].
  - apply (Hskip _ _ _ (mkCell 5 0 0 0)); [reflexivity|]. vm_compute. discriminate.
  - apply Htotal; cbn; lia.
  - destruct Hpass as (cb1 & Hd & _ & H2).
    + exact example_interior.
    + apply massFits_few; [exact example_interior|]. vm_compute. discriminate.
    + exists cb1. split; [exact Hd | exact H2].
Defined.

(** ** Grid clear *)

Lemma atomicStore_Some (cb : list Cell) (i : nat) (f : Field) (v : Z) (c : Cell) :
  cb !! i = Some c →
  atomicStore cb (Z.of_nat i) f v = Some (<[i := set f v c]> cb).
Proof.
  intros Hc. unfold atomicStore, assign. rewrite !element_lookup by lia.
  rewrite Nat2Z.id, Hc. reflexivity.
Qed.

Lemma clearGridKernel_cell (cb : list Cell) (i : nat) :
  Z.of_nat i < cellCount → (i < length cb)%nat →
  clearGridKernel i cb = Some (<[i := mkCell 0 0 0 0]> cb).
Proof.
  intros Hi Hlen. unfold clearGridKernel.
  assert ((Z.of_nat i >=? cellCount) = false) as ->.
  { rewrite Z.geb_leb. by apply Z.leb_gt. }
  destruct (lookup_lt_is_Some_2 cb i Hlen) as [c Hc].
  rewrite (atomicStore_Some cb i FX 0 c Hc), bind_Some.
  rewrite (atomicStore_Some _ i FY 0 (set FX 0 c)), bind_Some
    by (by apply list_lookup_insert_eq).
  rewrite list_insert_insert_eq.
  rewrite (atomicStore_Some _ i FZ 0 (set FY 0 (set FX 0 c))), bind_Some
    by (by apply list_lookup_insert_eq).
  rewrite list_insert_insert_eq.
  rewrite (atomicStore_Some _ i FMass 0 (set FZ 0 (set FY 0 (set FX 0 c))))
    by (by apply list_lookup_insert_eq).
  rewrite list_insert_insert_eq. by destruct c.
Qed.

Lemma dispatch_app {St} (kernel : nat → St → option St) (l1 l2 : list nat) (s : St) :
  dispatch kernel (l1 ++ l2) s = dispatch kernel l1 s ≫= dispatch kernel l2.
Proof.
  rewrite !dispatch_foldM, foldM_app. destruct (foldM kernel l1 s); [|done].
  cbn [mbind option_bind]. by rewrite dispatch_foldM.
Qed.

(** The first [n] invocations of the clear kernel zero the first [n]
    cells. *)
Lemma clear_prefix (n : nat) (cb : list Cell) :
  (n ≤ length cb)%nat → Z.of_nat n ≤ cellCount →
  dispatch clearGridKernel (seq 0 n) cb
  = Some (replicate n (mkCell 0 0 0 0) ++ drop n cb).
Proof.
  induction n as [|n IH]; intros Hlen Hn; [by rewrite drop_0|].
  rewrite seq_S, dispatch_app, IH by lia. rewrite bind_Some.
  cbn [dispatch Nat.add].
  destruct (lookup_lt_is_Some_2 cb n ltac:(lia)) as [c Hc].
  rewrite clearGridKernel_cell.
  - rewrite bind_Some. f_equal.
    rewrite insert_app_r_alt by (rewrite length_replicate; lia).
    rewrite length_replicate, Nat.sub_diag, (drop_S cb c n Hc).
    cbn [insert list_insert]. rewrite replicate_S_end, <- app_assoc. done.
  - lia.
  - rewrite length_app, length_replicate, length_drop. lia.
Qed.

(** The clear pass leaves the cleared grid. *)
Lemma clear_pass (cb : list Cell) :
  length cb = Z.to_nat cellCount →
  compute clearGridKernel cellCount cb = Some clearedGrid.
Proof.
  intros Hlen. unfold compute. rewrite clear_prefix.
  - rewrite drop_ge by lia. by rewrite app_nil_r, clearedGrid_unfold.
  - lia.
  - rewrite Z2Nat.id; [done|]. rewrite cellCount_value. lia.
Qed.

(** ** The frame *)

(** In a frame, P2G1 starts from the cleared grid. *)
Lemma renderCompute_from_cleared (sin cos sqrt : Q → Q) (u : Uniforms)
    (targets : Targets) (g : Gpu) :
  length (gpu_cellBuffer g) = Z.to_nat cellCount →
  renderCompute sin cos sqrt u targets g
  = compute (p2g1Kernel u (gpu_particleBuffer g)) params_particleCount clearedGrid
    ≫= λ cb1, compute (p2g2Kernel u (gpu_particleBuffer g)) params_particleCount cb1
    ≫= λ cb2, compute (updateGridKernel cb2) cellCount (gpu_cellBufferFloat g)
    ≫= λ fb, compute (g2pKernel sin cos sqrt u targets fb) params_particleCount
               (gpu_particleBuffer g)
    ≫= λ pb, Some (mkGpu pb cb2 fb).
Proof.
  intros Hlen. unfold renderCompute. by rewrite (clear_pass _ Hlen), bind_Some.
Qed.

(** ** The morph over a run of frames *)

Lemma renderFrames_snoc (ds : list Q) (d : Q) (s : MorphState) :
  renderFrames (ds ++ [d]) s = renderMorph d (renderFrames ds s).
Proof. unfold renderFrames. by rewrite foldl_app. Qed.

Lemma triggerCount_cons (d : Q) (ds : list Q) (s : MorphState) :
  triggerCount (d :: ds) s
  = ((if morphTriggered d s then 1 else 0) + triggerCount ds (renderMorph d s))%nat.
Proof. reflexivity. Qed.

Lemma simulatedTime_cons (d : Q) (ds : list Q) :
  simulatedTime (d :: ds) = (frameDeltaTime d + simulatedTime ds)%Q.
Proof. reflexivity. Qed.

(** A frame leaves the progress in [(0, 1]]. *)
Lemma renderMorph_progress (d : Q) (s : MorphState) :
  (0 <= morphProgress s)%Q → (morphProgress s <= 1)%Q →
  (0 < morphProgress (renderMorph d s))%Q ∧ (morphProgress (renderMorph d s) <= 1)%Q.
Proof.
  intros H0 H1. pose proof (frameDeltaTime_bounds d) as [Hd1 Hd2].
  unfold renderMorph. set (dt := frameDeltaTime d) in *. clearbody dt.
  destruct (Qlt_le_dec (autoMorphRotation s + dt * 1) fullRotation) as [Hidle|Htrig].
  - rewrite (updateMorphing_idle dt (dt * 1) s Hidle).
    destruct (Qltb (morphProgress s) 1) eqn:Ep.
    + destruct (Qle_bool 1 (morphProgress s + dt / morphDuration)) eqn:E; cbn.
      * split; lra.
      * apply Qle_bool_false in E. rewrite div_morphDuration in *. split; lra.
    + apply Qltb_false in Ep. cbn. split; lra.
  - rewrite (updateMorphing_trigger dt (dt * 1) s Htrig).
    destruct (Qle_bool 1 (0 + dt / morphDuration)) eqn:E; cbn.
    + split; lra.
    + apply Qle_bool_false in E. rewrite div_morphDuration in *. split; lra.
Qed.

Lemma renderFrames_progress (ds : list Q) : ∀ s : MorphState,
  (0 <= morphProgress s)%Q → (morphProgress s <= 1)%Q →
  (0 <= morphProgress (renderFrames ds s))%Q ∧ (morphProgress (renderFrames ds s) <= 1)%Q.
Proof.
  induction ds as [|d ds IH]; intros s H0 H1; [done|].
  cbn [renderFrames foldl]. fold (renderFrames ds (renderMorph d s)).
  destruct (renderMorph_progress d s H0 H1) as [Ha Hb]. apply IH; lra.
Qed.

(** A morph under way keeps the next trigger away. *)
Lemma morph_inv_no_trigger (k : nat) (d : Q) (s : MorphState) :
  morph_inv k s → morphTriggered d s = true →
  morphProgress s = 1%Q ∧ currentShapeIndex s = nextShapeIndex s.
Proof.
  intros [_ [Hdone|(Hp & _ & Hr)]] Htrig; [done|]. exfalso.
  unfold morphTriggered in Htrig. apply Qle_bool_true in Htrig.
  pose proof (frameDeltaTime_bounds d) as [_ Hd]. pose proof fullRotation_large.
  unfold morphDuration in Hr. lra.
Qed.

(** The accumulator and the simulated time over a run. *)
Lemma rotation_run (ds : list Q) : ∀ s : MorphState,
  (0 <= autoMorphRotation s)%Q → (autoMorphRotation s < fullRotation)%Q →
  (0 <= autoMorphRotation (renderFrames ds s))%Q ∧
  (autoMorphRotation (renderFrames ds s) < fullRotation)%Q ∧
  (inject_Z (Z.of_nat (triggerCount ds s)) * fullRotation
     + autoMorphRotation (renderFrames ds s)
   <= simulatedTime ds + autoMorphRotation s)%Q ∧
  (simulatedTime ds + autoMorphRotation s
   <= inject_Z (Z.of_nat (triggerCount ds s)) * (fullRotation + (1 # 60))
      + autoMorphRotation (renderFrames ds s))%Q.
Proof.
  induction ds as [|d ds IH]; intros s H0 H1.
  - cbn [renderFrames foldl triggerCount simulatedTime foldr].
    change (inject_Z (Z.of_nat 0)) with 0%Q.
    set (F := fullRotation) in *. clearbody F. repeat split; lra.
  - rewrite triggerCount_cons, simulatedTime_cons.
    cbn [renderFrames foldl]. fold (renderFrames ds (renderMorph d s)).
    pose proof (frameDeltaTime_bounds d) as [Hd1 Hd2]. pose proof fullRotation_large as HF.
    assert (∃ r1 : Q, autoMorphRotation (renderMorph d s) = r1 ∧
              ((morphTriggered d s = true ∧ r1 = 0%Q ∧
                (fullRotation <= autoMorphRotation s + frameDeltaTime d)%Q) ∨
               (morphTriggered d s = false ∧
                (r1 == autoMorphRotation s + frameDeltaTime d)%Q ∧
                (autoMorphRotation s + frameDeltaTime d < fullRotation)%Q))) as Hstep.
    { unfold morphTriggered, renderMorph.
      set (dt := frameDeltaTime d) in *. clearbody dt.
      destruct (Qle_bool fullRotation (autoMorphRotation s + dt * 1)) eqn:E.
      - apply Qle_bool_true in E. rewrite (updateMorphing_trigger dt (dt * 1) s E).
        eexists. split; [reflexivity|]. left.
        split; [done|]. split; [by destruct (Qle_bool 1 _)|lra].
      - apply Qle_bool_false in E. rewrite (updateMorphing_idle dt (dt * 1) s E).
        eexists. split; [reflexivity|]. right. split; [done|].
        split; [|lra].
        destruct (Qltb (morphProgress s) 1); [destruct (Qle_bool 1 _)|];
          cbn [autoMorphRotation]; ring. }
    destruct Hstep as (r1 & Hr1 & Hcase).
    set (s1 := renderMorph d s) in *. clearbody s1.
    set (dt := frameDeltaTime d) in *. clearbody dt.
    destruct Hcase as [(-> & -> & Hge)|(-> & Hr & Hlt)].
    + destruct (IH s1) as (A & B & C1 & C2); [rewrite Hr1; lra | rewrite Hr1; lra|].
      split; [done|]. split; [done|].
      rewrite Nat2Z.inj_add, inject_Z_plus. change (inject_Z (Z.of_nat 1)) with 1%Q.
      rewrite Hr1 in C1, C2.
      set (K := inject_Z (Z.of_nat (triggerCount ds s1))) in *. clearbody K.
      set (T := simulatedTime ds) in *. clearbody T.
      set (r' := autoMorphRotation (renderFrames ds s1)) in *. clearbody r'.
      split; lra.
    + destruct (IH s1) as (A & B & C1 & C2); [rewrite Hr1; lra | rewrite Hr1; lra|].
      split; [done|]. split; [done|].
      rewrite Nat2Z.inj_add, inject_Z_plus. change (inject_Z (Z.of_nat 0)) with 0%Q.
      rewrite Hr1 in C1, C2.
      set (K := inject_Z (Z.of_nat (triggerCount ds s1))) in *. clearbody K.
      set (T := simulatedTime ds) in *. clearbody T.
      set (r' := autoMorphRotation (renderFrames ds s1)) in *. clearbody r'.
      split; lra.
Qed.

(** ** The models *)

Lemma sceneFrames_snoc (ds : list Q) (d : Q) (ms : MorphState * Scene) :
  sceneFrames (ds ++ [d]) ms = renderScene d (sceneFrames ds ms).
Proof. unfold sceneFrames. by rewrite foldl_app. Qed.

Lemma sceneFrames_morph (ds : list Q) : ∀ ms : MorphState * Scene,
  (sceneFrames ds ms).1 = renderFrames ds (ms.1).
Proof.
  induction ds as [|d ds IH]; intros ms; [done|].
  cbn [sceneFrames renderFrames foldl].
  fold (sceneFrames ds (renderScene d ms)). fold (renderFrames ds (renderMorph d (ms.1))).
  by rewrite IH.
Qed.

Lemma sceneFrames_rotation (ds : list Q) : ∀ ms : MorphState * Scene,
  (meshRotationY (sceneFrames ds ms).2 == meshRotationY (ms.2) + simulatedTime ds)%Q.
Proof.
  induction ds as [|d ds IH]; intros ms.
  - cbn. ring.
  - cbn [sceneFrames foldl]. fold (sceneFrames ds (renderScene d ms)).
    rewrite IH, simulatedTime_cons. cbn [renderScene snd meshRotationY]. ring.
Qed.

(** The shape indices of a state that satisfies the invariant. *)
Lemma morph_inv_indices (k : nat) (s : MorphState) :
  morph_inv k s →
  0 ≤ currentShapeIndex s < 3 ∧ 0 ≤ nextShapeIndex s < 3 ∧
  ((morphProgress s < 1)%Q → currentShapeIndex s ≠ nextShapeIndex s).
Proof.
  intros [Hn Hc].
  pose proof (Z.mod_pos_bound (Z.of_nat k + 1) 3 ltac:(lia)) as Hb1.
  pose proof (Z.mod_pos_bound (Z.of_nat k) 3 ltac:(lia)) as Hb2.
  destruct Hc as [[Hp Hc]|(Hp & Hc & _)].
  - split; [lia|]. split; [lia|]. rewrite Hp. intros H. lra.
  - split; [lia|]. split; [lia|]. intros _. rewrite Hn, Hc.
    rewrite <- Zplus_mod_idemp_l.
    set (a := Z.of_nat k mod 3) in *. clearbody a.
    assert (a = 0 ∨ a = 1 ∨ a = 2) as Ha by lia.
    destruct Ha as [Ha|[Ha|Ha]]; rewrite Ha; done.
Qed.

(** [updateModels] on three present containers. *)
Lemma updateModels_three (rotationY : Q) (m : MorphState) (c0 c1 c2 : Container)
    (t1 t2 g : Q) :
  0 ≤ currentShapeIndex m < 3 → 0 ≤ nextShapeIndex m < 3 →
  ((morphProgress m < 1)%Q → currentShapeIndex m ≠ nextShapeIndex m) →
  ∃ c0' c1' c2' : Container,
    containers (updateModels rotationY m (mkModels [Some c0; Some c1; Some c2] t1 t2 g))
    = [Some c0'; Some c1'; Some c2'] ∧
    visibleCount [Some c0'; Some c1'; Some c2']
    = (if Qltb (morphProgress m) 1 then 2 else 1)%nat ∧
    ∀ (i : nat) (c : Container),
      [Some c0'; Some c1'; Some c2'] !! i = Some (Some c) →
      rotation_y c = (rotationY + Math_PI)%Q ∧
      (visible c = true ↔
       Z.of_nat i = currentShapeIndex m ∨
       ((morphProgress m < 1)%Q ∧ Z.of_nat i = nextShapeIndex m)).
Proof.
  destruct m as [cur nxt p r]. cbn [currentShapeIndex nextShapeIndex morphProgress].
  intros Hc Hn Hne. unfold updateModels.
  cbn [currentShapeIndex nextShapeIndex morphProgress containers].
  set (rot := (rotationY + Math_PI)%Q). clearbody rot.
  destruct (Qltb p 1) eqn:Ep.
  - apply Qltb_true in Ep. specialize (Hne Ep).
    assert ((cur = 0 ∨ cur = 1 ∨ cur = 2) ∧ (nxt = 0 ∨ nxt = 1 ∨ nxt = 2)) as [Hcv Hnv]
      by lia.
    destruct Hcv as [Hcv|[Hcv|Hcv]]; destruct Hnv as [Hnv|[Hnv|Hnv]]; subst cur nxt;
      try done;
      (eexists _, _, _; split; [reflexivity|]; split; [reflexivity|]);
      intros [|[|[|i]]] c Hi; try done; injection Hi as <-;
      (split; [reflexivity|]); cbn [visible];
      (split;
       [ intros Hv;
         first [ left; cbn; lia | right; split; [exact Ep | cbn; lia] | discriminate Hv ]
       | intros [Hd|[_ Hd]]; first [ reflexivity | cbn in Hd; lia ] ]).
  - apply Qltb_false in Ep.
    assert (cur = 0 ∨ cur = 1 ∨ cur = 2) as Hcv by lia.
    destruct Hcv as [Hcv|[Hcv|Hcv]]; subst cur;
      (eexists _, _, _; split; [reflexivity|]; split; [reflexivity|]);
      intros [|[|[|i]]] c Hi; try done; injection Hi as <-;
      (split; [reflexivity|]); cbn [visible];
      (split;
       [ intros Hv; first [ left; cbn; lia | discriminate Hv ]
       | intros [Hd|[Hq _]]; first [ reflexivity | cbn in Hd; lia | lra ] ]).
Qed.

(** After any run of frames the three containers are there, and the morph
    state satisfies the invariant of the cycle. *)
Lemma scene_run (ds : list Q) :
  morph_inv (triggerCount ds initialMorph) (sceneFrames ds (initialMorph, initialScene)).1 ∧
  ∃ c0 c1 c2 : Container,
    containers (models (sceneFrames ds (initialMorph, initialScene)).2)
    = [Some c0; Some c1; Some c2].
Proof.
  split.
  - rewrite sceneFrames_morph. apply (morph_inv_run ds 0 initialMorph morph_inv_initial).
  - induction ds as [|d ds IH] using rev_ind.
    + by eexists _, _, _.
    + destruct IH as (c0 & c1 & c2 & IH).
      rewrite sceneFrames_snoc.
      pose proof (morph_inv_run (ds ++ [d]) 0 initialMorph morph_inv_initial) as Hinv.
      rewrite renderFrames_snoc in Hinv. apply morph_inv_indices in Hinv as (Hc & Hn & Hne).
      pose proof (sceneFrames_morph ds (initialMorph, initialScene)) as Hm. cbn [fst] in Hm.
      destruct (sceneFrames ds (initialMorph, initialScene)) as [m [rot mo]].
      cbn [fst snd models] in *. subst m. destruct mo as [cs t1 t2 g].
      cbn [containers] in IH. subst cs.
      unfold renderScene. cbn [fst snd models meshRotationY].
      fold (renderMorph d (renderFrames ds initialMorph)).
      destruct (updateModels_three (rot + frameDeltaTime d * 1)
                  (renderMorph d (renderFrames ds initialMorph)) c0 c1 c2 t1 t2 g Hc Hn Hne)
        as (c0' & c1' & c2' & E & _).
      by exists c0', c1', c2'.
Qed.

(** The frame that ends a run, on the scene. *)
Lemma scene_last_frame (ds : list Q) (d : Q) :
  (sceneFrames (ds ++ [d]) (initialMorph, initialScene)).1
  = renderFrames (ds ++ [d]) initialMorph ∧
  ∃ (c0 c1 c2 : Container) (t1 t2 g : Q),
    models (sceneFrames (ds ++ [d]) (initialMorph, initialScene)).2
    = updateModels (meshRotationY (sceneFrames (ds ++ [d]) (initialMorph, initialScene)).2)
        (renderFrames (ds ++ [d]) initialMorph)
        (mkModels [Some c0; Some c1; Some c2] t1 t2 g).
Proof.
  split; [by rewrite sceneFrames_morph|].
  destruct (scene_run ds) as (_ & c0 & c1 & c2 & Hcs).
  rewrite sceneFrames_snoc, renderFrames_snoc.
  pose proof (sceneFrames_morph ds (initialMorph, initialScene)) as Hm. cbn [fst] in Hm.
  destruct (sceneFrames ds (initialMorph, initialScene)) as [m [rot [cs t1 t2 g]]].
  cbn [fst snd models containers] in *. subst m cs.
  exists c0, c1, c2, t1, t2, g. reflexivity.
Qed.

Lemma run_progress (ds : list Q) (d : Q) :
  (0 < morphProgress (renderFrames (ds ++ [d]) initialMorph))%Q ∧
  (morphProgress (renderFrames (ds ++ [d]) initialMorph) <= 1)%Q.
Proof.
  rewrite renderFrames_snoc.
  destruct (renderFrames_progress ds initialMorph) as [H0 H1]; [done|done|].
  by apply renderMorph_progress.
Qed.

Lemma run_indices (ds : list Q) :
  0 ≤ currentShapeIndex (renderFrames ds initialMorph) < 3 ∧
  0 ≤ nextShapeIndex (renderFrames ds initialMorph) < 3 ∧
  ((morphProgress (renderFrames ds initialMorph) < 1)%Q →
   currentShapeIndex (renderFrames ds initialMorph)
   ≠ nextShapeIndex (renderFrames ds initialMorph)) ∧
  (¬ (morphProgress (renderFrames ds initialMorph) < 1)%Q →
   currentShapeIndex (renderFrames ds initialMorph)
   = nextShapeIndex (renderFrames ds initialMorph)).
Proof.
  pose proof (morph_inv_run ds 0 initialMorph morph_inv_initial) as Hinv.
  destruct (morph_inv_indices _ _ Hinv) as (Hc & Hn & Hne).
  split; [done|]. split; [done|]. split; [done|].
  destruct Hinv as [_ [[_ He]|[Hp _]]]; [done|]. intros H. by destruct H.
Qed.

(** X1: the visibility of the models.  After every frame the three
    containers are turned with the particle mesh, half a turn ahead of it;
    while a morph is under way exactly the models of the current and of
    the next shape are visible, and once it is complete only the model of
    the current shape. *)
Theorem models_visibility (clockDeltas : list Q) (clockDelta : Q) :
  let ms := sceneFrames (clockDeltas ++ [clockDelta]) (initialMorph, initialScene) in
  ∃ c0 c1 c2 : Container,
    containers (models ms.2) = [Some c0; Some c1; Some c2] ∧
    visibleCount (containers (models ms.2))
    = (if Qltb (morphProgress ms.1) 1 then 2 else 1)%nat ∧
    ∀ (i : nat) (c : Container),
      containers (models ms.2) !! i = Some (Some c) →
      rotation_y c = (meshRotationY ms.2 + Math_PI)%Q ∧
      (visible c = true ↔
       Z.of_nat i = currentShapeIndex ms.1 ∨
       ((morphProgress ms.1 < 1)%Q ∧ Z.of_nat i = nextShapeIndex ms.1)).
Proof.
  intros ms. subst ms.
  destruct (scene_last_frame clockDeltas clockDelta) as (-> & a0 & a1 & a2 & t1 & t2 & g & ->).
  destruct (run_indices (clockDeltas ++ [clockDelta])) as (Hc & Hn & Hne & _).
  destruct (updateModels_three
              (meshRotationY
                 (sceneFrames (clockDeltas ++ [clockDelta]) (initialMorph, initialScene)).2)
              (renderFrames (clockDeltas ++ [clockDelta]) initialMorph) a0 a1 a2 t1 t2 g
              Hc Hn Hne) as (c0 & c1 & c2 & -> & Hcount & Hvis).
  by exists c0, c1, c2.
Qed.

Lemma glitch_value (p : Q) :
  (0 < p)%Q → (p < 1)%Q →
  (0 < 1 - Qabs (p - (1 # 2)) * 2)%Q ∧ (1 - Qabs (p - (1 # 2)) * 2 <= 1)%Q.
Proof.
  intros H0 H1. pose proof (Qabs_nonneg (p - (1 # 2))) as Hn.
  assert (Qabs (p - (1 # 2)) < 1 # 2)%Q as Hlt.
  { apply Qabs_Qlt_condition. split; lra. }
  split; lra.
Qed.

(** X2: the glitch and the render path.  After every frame the progress of
    the morph is in [(0, 1]]; the glitch intensity is in [[0, 1]] and is
    positive exactly while a morph is under way, which is exactly when the
    frame is drawn through the post-processing target.  While a morph is
    under way the thresholds of the current and of the next model are the
    progress and its complement; once it is complete they are [-1] and
    [1]. *)
Theorem glitch_and_render_path (clockDeltas : list Q) (clockDelta : Q) :
  let ms := sceneFrames (clockDeltas ++ [clockDelta]) (initialMorph, initialScene) in
  (0 < morphProgress ms.1)%Q ∧ (morphProgress ms.1 <= 1)%Q ∧
  (0 <= glitchIntensity (models ms.2))%Q ∧ (glitchIntensity (models ms.2) <= 1)%Q ∧
  (renderPath (models ms.2) = PostProcessed ↔ (morphProgress ms.1 < 1)%Q) ∧
  ((morphProgress ms.1 < 1)%Q →
   currentModelThresholdUniform (models ms.2) = morphProgress ms.1 ∧
   nextModelThresholdUniform (models ms.2) = (1 - morphProgress ms.1)%Q) ∧
  (¬ (morphProgress ms.1 < 1)%Q →
   currentModelThresholdUniform (models ms.2) = (-1)%Q ∧
   nextModelThresholdUniform (models ms.2) = 1%Q ∧
   glitchIntensity (models ms.2) = 0%Q).
Proof.
  intros ms. subst ms.
  destruct (scene_last_frame clockDeltas clockDelta) as (-> & a0 & a1 & a2 & t1 & t2 & g & ->).
  destruct (run_progress clockDeltas clockDelta) as [H0 H1].
  set (m := renderFrames (clockDeltas ++ [clockDelta]) initialMorph) in *. clearbody m.
  split; [done|]. split; [done|]. unfold renderPath, updateModels.
  destruct (Qltb (morphProgress m) 1) eqn:Ep; cbn [glitchIntensity
    currentModelThresholdUniform nextModelThresholdUniform].
  - apply Qltb_true in Ep. destruct (glitch_value (morphProgress m) H0 Ep) as [G0 G1].
    split; [lra|]. split; [done|].
    assert (Qltb 0 (1 - Qabs (morphProgress m - (1 # 2)) * 2) = true) as ->
      by (by apply Qltb_true).
    split; [done|]. split; [done|]. intros H. by destruct H.
  - apply Qltb_false in Ep.
    split; [lra|]. split; [lra|]. split.
    + split; [done|]. intros H. lra.
    + split; [intros H; lra|done].
Qed.

(** ** Timing of the morphs *)

(** X3: when the morphs are triggered.  After [k] triggers at least [k]
    full turns of rotation have been simulated, and fewer than [k + 1]
    turns lengthened by one longest frame each: the accumulator starts
    again from zero at every trigger, so that each cycle lasts between a
    full turn and a full turn plus one frame. *)
Theorem morph_trigger_times (clockDeltas : list Q) :
  (inject_Z (Z.of_nat (triggerCount clockDeltas initialMorph)) * fullRotation
   <= simulatedTime clockDeltas)%Q ∧
  (simulatedTime clockDeltas
   < (inject_Z (Z.of_nat (triggerCount clockDeltas initialMorph)) + 1)
     * (fullRotation + (1 # 60)))%Q.
Proof.
  destruct (rotation_run clockDeltas initialMorph) as (A & B & C1 & C2);
    [done|done|].
  cbn [autoMorphRotation initialMorph] in C1, C2.
  set (K := inject_Z (Z.of_nat (triggerCount clockDeltas initialMorph))) in *. clearbody K.
  set (T := simulatedTime clockDeltas) in *. clearbody T.
  set (r := autoMorphRotation (renderFrames clockDeltas initialMorph)) in *. clearbody r.
  set (F := fullRotation) in *. clearbody F.
  split; lra.
Qed.

(** X4: a morph is never cut short.  From the initial state, or from any
    state in which a morph to one of the three shapes is complete, a frame
    that triggers the next morph finds the previous one complete: its
    progress is one and the current shape is its target. *)
Theorem morph_never_cut_short (s : MorphState) (clockDeltas : list Q) (clockDelta : Q) :
  s = initialMorph ∨
  (morphProgress s = 1%Q ∧ currentShapeIndex s = nextShapeIndex s ∧
   0 ≤ nextShapeIndex s < 3) →
  morphTriggered clockDelta (renderFrames clockDeltas s) = true →
  morphProgress (renderFrames clockDeltas s) = 1%Q ∧
  currentShapeIndex (renderFrames clockDeltas s) = nextShapeIndex (renderFrames clockDeltas s).
Proof.
  intros Hs Htrig.
  assert (∃ k : nat, morph_inv k s) as [k Hinv].
  { destruct Hs as [->|(Hp & Hc & Hn)]; [exists O; apply morph_inv_initial|].
    exists (Z.to_nat ((nextShapeIndex s + 2) mod 3)). split; [|by left].
    pose proof (Z.mod_pos_bound (nextShapeIndex s + 2) 3 ltac:(lia)) as Hb.
    rewrite Z2Nat.id by lia. rewrite Zplus_mod_idemp_l.
    replace (nextShapeIndex s + 2 + 1) with (nextShapeIndex s + 1 * 3) by lia.
    rewrite Z.mod_add by lia. symmetry. apply Z.mod_small. lia. }
  apply (morph_inv_no_trigger _ clockDelta _ (morph_inv_run clockDeltas k s Hinv) Htrig).
Qed.

Lemma morph_never_cut_short_witness :
  morphTriggered (1 # 60) (renderFrames [1 # 60; 1 # 60]%Q (mkMorph 2 2 1 (624 # 100))) = true ∧
  morphProgress (renderFrames [1 # 60; 1 # 60]%Q (mkMorph 2 2 1 (624 # 100))) = 1%Q.
Proof.
  split; [reflexivity|].
  apply (morph_never_cut_short (mkMorph 2 2 1 (624 # 100)) [1 # 60; 1 # 60]%Q (1 # 60)).
  - right. cbn. split; [reflexivity|]. split; [reflexivity|]. lia.
  - reflexivity.
Defined.

(** ** The opacity of the models *)

Lemma glitchPattern_bounds (sin : Q → Q) (worldY t : Q) :
  (∀ x : Q, (-1 <= sin x)%Q ∧ (sin x <= 1)%Q) →
  (- (115 # 100) <= glitchPatternOf sin worldY t)%Q ∧
  (glitchPatternOf sin worldY t <= 115 # 100)%Q.
Proof.
  intros Hsin. unfold glitchPatternOf.
  destruct (Hsin (worldY * 80 + t * 25)%Q). destruct (Hsin (worldY * 120 + t * -40)%Q).
  destruct (Hsin (worldY * 200 + t * 60)%Q). destruct (Hsin (worldY * 150 + t * -35)%Q).
  destruct (Hsin (worldY * 300 + t * 100)%Q).
  split; lra.
Qed.

Lemma step_values (edge x : Q) :
  (step edge x = 0%Q ∨ step edge x = 1%Q) ∧ (step edge x = 1%Q ↔ (edge <= x)%Q).
Proof.
  unfold step. destruct (Qltb x edge) eqn:E.
  - apply Qltb_true in E. split; [by left|]. split; [done|]. intros H. lra.
  - apply Qltb_false in E. split; [by right|]. done.
Qed.

(** X5: the opacity of the model materials in a frame.  The opacity of a
    fragment is zero or one.  Once the morph is complete the model of the
    current shape is opaque everywhere and the two others are transparent
    everywhere.  While a morph is under way, the model of the current shape
    shows where the glitch pattern is at least [2 * progress - 1], the model
    of the next shape where it is at least [1 - 2 * progress], and the third
    model nowhere. *)
Theorem model_opacity (sin sqrt : Q → Q) (clockDeltas : list Q)
    (clockDelta elapsedTime worldY : Q) (h : Host) (index : Z) :
  (∀ x : Q, (-1 <= sin x)%Q ∧ (sin x <= 1)%Q) →
  morph h = renderFrames clockDeltas initialMorph →
  let m := morph (renderHost sqrt clockDelta elapsedTime h) in
  let u := uniforms (renderHost sqrt clockDelta elapsedTime h) in
  let s := models (sceneFrames (clockDeltas ++ [clockDelta]) (initialMorph, initialScene)).2 in
  let pattern := glitchPatternOf sin worldY elapsedTime in
  let opacity := opacityNode sin index u s worldY in
  (opacity = 0%Q ∨ opacity = 1%Q) ∧
  (¬ (morphProgress m < 1)%Q → (opacity = 1%Q ↔ index = currentShapeIndex m)) ∧
  ((morphProgress m < 1)%Q →
   (index = currentShapeIndex m →
    (opacity = 1%Q ↔ (2 * morphProgress m - 1 <= pattern)%Q)) ∧
   (index = nextShapeIndex m →
    (opacity = 1%Q ↔ (1 - 2 * morphProgress m <= pattern)%Q)) ∧
   (index ≠ currentShapeIndex m → index ≠ nextShapeIndex m → opacity = 0%Q)).
Proof.
  intros Hsin Hm m u s pattern opacity. subst m u s pattern opacity.
  destruct (scene_last_frame clockDeltas clockDelta) as (_ & a0 & a1 & a2 & t1 & t2 & g & ->).
  destruct (run_indices (clockDeltas ++ [clockDelta])) as (_ & _ & Hne & Heq).
  destruct (glitchPattern_bounds sin worldY elapsedTime Hsin) as [P0 P1].
  cbn [renderHost morph uniforms]. rewrite Hm, <- renderFrames_snoc.
  set (m := renderFrames (clockDeltas ++ [clockDelta]) initialMorph) in *. clearbody m.
  unfold opacityNode.
  cbn [timeUniform currentShapeIndexUniform nextShapeIndexUniform].
  set (pattern := glitchPatternOf sin worldY elapsedTime) in *. clearbody pattern.
  set (rot := meshRotationY _). clearbody rot.
  unfold updateModels.
  destruct (Qltb (morphProgress m) 1) eqn:Ep;
    cbn [currentModelThresholdUniform nextModelThresholdUniform].
  - apply Qltb_true in Ep. specialize (Hne Ep).
    split; [apply step_values|]. split; [intros H; by destruct H|]. intros _.
    split; [|split].
    + intros ->. rewrite Z.eqb_refl. rewrite (proj2 (step_values _ _)). split; intros; lra.
    + intros ->. rewrite (proj2 (Z.eqb_neq _ _)) by done. rewrite Z.eqb_refl.
      rewrite (proj2 (step_values _ _)). split; intros; lra.
    + intros H1 H2. rewrite !(proj2 (Z.eqb_neq _ _)) by done.
      unfold step. assert (Qltb pattern 2 = true) as -> by (apply Qltb_true; lra). done.
  - apply Qltb_false in Ep.
    assert (¬ (morphProgress m < 1)%Q) as Hnot by (intros H; lra).
    specialize (Heq Hnot). rewrite <- Heq.
    split; [apply step_values|]. split; [|intros H; lra]. intros _.
    destruct (index =? currentShapeIndex m) eqn:Ei.
    + apply Z.eqb_eq in Ei. rewrite (proj2 (step_values _ _)). split; [done|]. intros _. lra.
    + apply Z.eqb_neq in Ei. unfold step.
      assert (Qltb pattern 2 = true) as -> by (apply Qltb_true; lra). done.
Qed.

Lemma model_opacity_witness :
  opacityNode (λ x, clamp x (-1) 1) 1
    (uniforms (renderHost sqrt_on_squares (1 # 60) 5
                 (mkHost (renderFrames (repeat (1 # 60)%Q 17) initialMorph)
                    (Vec3 0 0 0) (Vec3 0 0 0) setupUniforms)))
    (models (sceneFrames (repeat (1 # 60)%Q 17 ++ [1 # 60]%Q)
               (initialMorph, initialScene)).2) (1 # 3) = 1%Q.
Proof.
  destruct (model_opacity (λ x, clamp x (-1) 1) sqrt_on_squares (repeat (1 # 60)%Q 17)
              (1 # 60) 5 (1 # 3)
              (mkHost (renderFrames (repeat (1 # 60)%Q 17) initialMorph)
                 (Vec3 0 0 0) (Vec3 0 0 0) setupUniforms) 1) as (_ & H & _).
  - intros x. apply clamp_bounds. lra.
  - reflexivity.
  - apply H; [|reflexivity]. vm_compute. intros E. discriminate E.
Defined.

(** ** Loading: bounds and normalised positions *)

(** [b'] contains [b]. *)
Lemma growBounds_Some (b : Bounds) (pos : vec3) :
  ∃ b' : Bounds, growBounds (Some b) pos = Some b' ∧ inBounds b' pos ∧
    ∀ q : vec3, inBounds b q → inBounds b' q.
Proof.
  eexists. split; [reflexivity|]. unfold inBounds.
  cbn [globalMinX globalMaxX globalMinY globalMaxY globalMinZ globalMaxZ].
  destruct (Qmin_spec (globalMinX b) (v_x pos)) as [[? ->]|[? ->]];
    destruct (Qmax_spec (globalMaxX b) (v_x pos)) as [[? ->]|[? ->]];
    destruct (Qmin_spec (globalMinY b) (v_y pos)) as [[? ->]|[? ->]];
    destruct (Qmax_spec (globalMaxY b) (v_y pos)) as [[? ->]|[? ->]];
    destruct (Qmin_spec (globalMinZ b) (v_z pos)) as [[? ->]|[? ->]];
    destruct (Qmax_spec (globalMaxZ b) (v_z pos)) as [[? ->]|[? ->]];
    (split; [repeat split; lra|]);
    intros q ((? & ?) & (? & ?) & (? & ?)); repeat split; lra.
Qed.

Lemma growBounds_None (pos : vec3) :
  ∃ b' : Bounds, growBounds None pos = Some b' ∧ inBounds b' pos.
Proof. eexists. split; [reflexivity|]. unfold inBounds. cbn. repeat split; lra. Qed.

Lemma growBounds_run_Some (l : list vec3) : ∀ b : Bounds,
  ∃ b' : Bounds, foldl growBounds (Some b) l = Some b' ∧
    Forall (inBounds b') l ∧ ∀ q : vec3, inBounds b q → inBounds b' q.
Proof.
  induction l as [|pos l IH]; intros b.
  - exists b. split; [done|]. split; [constructor|done].
  - destruct (growBounds_Some b pos) as (b1 & E1 & Hpos & Hmono).
    destruct (IH b1) as (b' & E' & Hall & Hmono').
    exists b'. cbn [foldl]. rewrite E1. split; [done|].
    split; [constructor; [by apply Hmono'|done]|]. intros q Hq. by apply Hmono', Hmono.
Qed.

Lemma growBounds_run (l : list vec3) (b : option Bounds) :
  match foldl growBounds b l with
  | None => b = None ∧ l = []
  | Some b' =>
      Forall (inBounds b') l ∧
      ∀ b0 : Bounds, b = Some b0 → ∀ q : vec3, inBounds b0 q → inBounds b' q
  end.
Proof.
  destruct b as [b|].
  - destruct (growBounds_run_Some l b) as (b' & -> & Hall & Hmono).
    split; [done|]. intros b0 [= <-]. done.
  - destruct l as [|pos l]; [done|].
    destruct (growBounds_None pos) as (b1 & E1 & Hpos).
    destruct (growBounds_run_Some l b1) as (b' & E' & Hall & Hmono).
    cbn [foldl]. rewrite E1, E'. split; [|done]. constructor; [by apply Hmono|done].
Qed.

(** The scan over three shapes: without result only if no shape has a
    point, and otherwise with bounds that contain every point looked at. *)
Lemma scanShapes_three (cube cone monkey : list vec3) :
  match scanShapes cube cone monkey with
  | None => usedPoints cube = [] ∧ usedPoints cone = [] ∧ usedPoints monkey = []
  | Some b =>
      Forall (inBounds b) (usedPoints cube) ∧ Forall (inBounds b) (usedPoints cone) ∧
      Forall (inBounds b) (usedPoints monkey)
  end.
Proof.
  unfold scanShapes.
  set (uc := usedPoints cube). set (uo := usedPoints cone). set (um := usedPoints monkey).
  clearbody uc uo um.
  pose proof (growBounds_run uc None) as H1.
  destruct (foldl growBounds None uc) as [b1|].
  - destruct H1 as [H1 _].
    pose proof (growBounds_run uo (Some b1)) as H2.
    destruct (foldl growBounds (Some b1) uo) as [b2|]; [|by destruct H2].
    destruct H2 as [H2 M2].
    pose proof (growBounds_run um (Some b2)) as H3.
    destruct (foldl growBounds (Some b2) um) as [b3|]; [|by destruct H3].
    destruct H3 as [H3 M3].
    split; [|split; [|done]].
    + eapply Forall_impl; [|exact H1]. intros q Hq. apply (M3 b2 eq_refl), (M2 b1 eq_refl), Hq.
    + eapply Forall_impl; [|exact H2]. intros q Hq. apply (M3 b2 eq_refl), Hq.
  - destruct H1 as [_ H1]. rewrite H1.
    pose proof (growBounds_run uo None) as H2.
    destruct (foldl growBounds None uo) as [b2|].
    + destruct H2 as [H2 _].
      pose proof (growBounds_run um (Some b2)) as H3.
      destruct (foldl growBounds (Some b2) um) as [b3|]; [|by destruct H3].
      destruct H3 as [H3 M3].
      split; [constructor|]. split; [|done].
      eapply Forall_impl; [|exact H2]. intros q Hq. apply (M3 b2 eq_refl), Hq.
    + destruct H2 as [_ H2]. rewrite H2.
      pose proof (growBounds_run um None) as H3.
      destruct (foldl growBounds None um) as [b3|].
      * destruct H3 as [H3 _]. split; [constructor|]. split; [constructor|done].
      * destruct H3 as [_ H3]. done.
Qed.

Lemma fdiv_Some (a b c : Q) : fdiv a b = Some c → ¬ (b == 0)%Q ∧ c = (a / b)%Q.
Proof.
  unfold fdiv. destruct (Qeq_bool b 0) eqn:E; [done|].
  apply Qeq_bool_false in E. by intros [= <-].
Qed.

Lemma globalMaxRange_ge (b : Bounds) :
  (globalMaxX b - globalMinX b <= globalMaxRange b)%Q ∧
  (globalMaxY b - globalMinY b <= globalMaxRange b)%Q ∧
  (globalMaxZ b - globalMinZ b <= globalMaxRange b)%Q.
Proof.
  unfold globalMaxRange.
  set (rx := (globalMaxX b - globalMinX b)%Q). set (ry := (globalMaxY b - globalMinY b)%Q).
  set (rz := (globalMaxZ b - globalMinZ b)%Q). clearbody rx ry rz.
  destruct (Qmax_spec rx ry) as [[? E1]|[? E1]];
    destruct (Qmax_spec (Qmax rx ry) rz) as [[? E2]|[? E2]];
    rewrite E2; rewrite ?E1 in *; repeat split; lra.
Qed.

(** A coordinate between [lo] and [hi], taken from the middle of the two
    and divided by a range that is at least [hi - lo], is within a half of
    zero. *)
Lemma centred_ratio (x lo hi R : Q) :
  (lo <= x)%Q → (x <= hi)%Q → (hi - lo <= R)%Q → ¬ (R == 0)%Q →
  (- (1 # 2) <= (x - (lo + hi) / 2) / R)%Q ∧ ((x - (lo + hi) / 2) / R <= 1 # 2)%Q.
Proof.
  intros H1 H2 H3 H4. assert (0 < R)%Q as HR.
  { destruct (Qlt_le_dec 0 R) as [?|Hle]; [done|]. exfalso. apply H4. lra. }
  assert ((lo + hi) / 2 == (lo + hi) * (1 # 2))%Q as -> by field.
  split.
  - apply Qle_shift_div_l; [done|]. lra.
  - apply Qle_shift_div_r; [done|]. lra.
Qed.

(** A position within the bounds is sent into the unit cube. *)
Lemma normalizePosition_unit (b : Bounds) (pos v : vec3) :
  inBounds b pos → normalizePosition b pos = Some v →
  within v (Vec3 0 0 0) (Vec3 1 1 1).
Proof.
  intros ((Hx1 & Hx2) & (Hy1 & Hy2) & (Hz1 & Hz2)) H. unfold normalizePosition in H.
  destruct (globalMaxRange_ge b) as (Rx & Ry & Rz).
  destruct (fdiv (v_x pos - _) _) as [x|] eqn:Ex in H; cbn [mbind option_bind] in H; [|done].
  destruct (fdiv (v_z pos - _) _) as [y|] eqn:Ey in H; cbn [mbind option_bind] in H; [|done].
  destruct (fdiv (v_y pos - _) _) as [z|] eqn:Ez in H; cbn [mbind option_bind] in H; [|done].
  injection H as <-.
  apply fdiv_Some in Ex as [HR ->]. apply fdiv_Some in Ey as [_ ->].
  apply fdiv_Some in Ez as [_ ->].
  destruct (centred_ratio _ _ _ _ Hx1 Hx2 Rx HR) as [A1 A2].
  destruct (centred_ratio _ _ _ _ Hy1 Hy2 Ry HR) as [B1 B2].
  destruct (centred_ratio _ _ _ _ Hz1 Hz2 Rz HR) as [C1 C2].
  unfold within. cbn [v_x v_y v_z]. repeat split; lra.
Qed.

(** ** Loading: the target buffers *)

Lemma foldM_seq_S {St} (f : nat → St → option St) (n : nat) (s : St) :
  foldM f (seq 0 (S n)) s = foldM f (seq 0 n) s ≫= f n.
Proof.
  rewrite seq_S, foldM_app. cbn [plus].
  destruct (foldM f (seq 0 n) s) as [s'|]; cbn [mbind option_bind foldM]; [|done].
  by destruct (f n s').
Qed.

Lemma normalizedAt_Some (b : option Bounds) (shape : list vec3) (i : nat) (v : vec3) :
  normalizedAt b shape i = Some v ↔
  ∃ (pos : vec3) (bounds : Bounds),
    shape !! i = Some pos ∧ b = Some bounds ∧ normalizePosition bounds pos = Some v.
Proof.
  unfold normalizedAt. split.
  - destruct (shape !! i) as [pos|]; cbn [mbind option_bind]; [|done].
    destruct b as [bounds|]; cbn [mbind option_bind]; [|done].
    intros H. by exists pos, bounds.
  - intros (pos & bounds & -> & -> & H). exact H.
Qed.

Lemma normalizePosition_is_Some (bounds : Bounds) (pos : vec3) :
  is_Some (normalizePosition bounds pos) ↔ ¬ (globalMaxRange bounds == 0)%Q.
Proof.
  unfold normalizePosition, fdiv. destruct (Qeq_bool (globalMaxRange bounds) 0) eqn:E.
  - apply Qeq_bool_eq in E. cbn. split; [intros [? ?]; done|]. intros H. by destruct H.
  - apply Qeq_bool_false in E. cbn. split; [done|]. intros _. by eexists.
Qed.

Lemma particlesToUse_bounds (positions : list vec3) (i : nat) :
  (i < particlesToUse positions)%nat ↔
  (i < Z.to_nat maxParticles)%nat ∧ (i < length positions)%nat.
Proof. unfold particlesToUse. lia. Qed.

Lemma usedPoints_lookup (positions : list vec3) (i : nat) (pos : vec3) :
  (i < Z.to_nat maxParticles)%nat → positions !! i = Some pos → pos ∈ usedPoints positions.
Proof.
  intros Hi Hp. unfold usedPoints. apply (list_elem_of_lookup_2 _ i).
  by rewrite lookup_take_lt.
Qed.

(** What the loop over the first [n] indices leaves in the three arrays. *)
Lemma targets_run (b : option Bounds) (cube cone monkey : list vec3) (t0 : Targets)
    (n : nat) : ∀ t : Targets,
  foldM (fillTargets b cube cone monkey) (seq 0 n) t0 = Some t →
  (length (cubeTargetBuffer t) = length (cubeTargetBuffer t0) ∧
   length (coneTargetBuffer t) = length (coneTargetBuffer t0) ∧
   length (monkeyTargetBuffer t) = length (monkeyTargetBuffer t0)) ∧
  (∀ i : nat, (i < n)%nat →
     ∃ cn on mn : vec3,
       normalizedAt b cube i = Some cn ∧ normalizedAt b cone i = Some on ∧
       normalizedAt b monkey i = Some mn ∧
       ((i < length (cubeTargetBuffer t0))%nat → cubeTargetBuffer t !! i = Some cn) ∧
       ((i < length (coneTargetBuffer t0))%nat → coneTargetBuffer t !! i = Some on) ∧
       ((i < length (monkeyTargetBuffer t0))%nat → monkeyTargetBuffer t !! i = Some mn)) ∧
  (∀ i : nat, (n ≤ i)%nat →
     cubeTargetBuffer t !! i = cubeTargetBuffer t0 !! i ∧
     coneTargetBuffer t !! i = coneTargetBuffer t0 !! i ∧
     monkeyTargetBuffer t !! i = monkeyTargetBuffer t0 !! i).
Proof.
  induction n as [|n IH]; intros t H.
  - cbn in H. injection H as <-. split; [done|]. split; [intros i Hi; lia|done].
  - rewrite foldM_seq_S in H.
    destruct (foldM (fillTargets b cube cone monkey) (seq 0 n) t0) as [t1|];
      cbn [mbind option_bind] in H; [|done].
    destruct (IH t1 eq_refl) as ((L1 & L2 & L3) & Hlt & Hge).
    unfold fillTargets in H.
    destruct (normalizedAt b cube n) as [cn|] eqn:Ec; cbn [mbind option_bind] in H; [|done].
    destruct (normalizedAt b cone n) as [on|] eqn:Eo; cbn [mbind option_bind] in H; [|done].
    destruct (normalizedAt b monkey n) as [mn|] eqn:Em; cbn [mbind option_bind] in H; [|done].
    injection H as <-. cbn [cubeTargetBuffer coneTargetBuffer monkeyTargetBuffer].
    rewrite !length_insert. split; [done|]. split.
    + intros i Hi. destruct (decide (i = n)) as [->|Hne].
      * exists cn, on, mn. split; [done|]. split; [done|]. split; [done|].
        split; [|split]; intros Hl; apply list_lookup_insert_eq; lia.
      * destruct (Hlt i) as (a & c & e & Ha & Hc & He & Ba & Bc & Be); [lia|].
        exists a, c, e. split; [done|]. split; [done|]. split; [done|].
        split; [|split]; intros Hl; rewrite list_lookup_insert_ne by done; auto.
    + intros i Hi. destruct (Hge i) as (A & B & D); [lia|].
      rewrite !list_lookup_insert_ne by lia. done.
Qed.

Lemma targets_run_succeeds (b : option Bounds) (cube cone monkey : list vec3) (n : nat) :
  ∀ t0 : Targets,
  (∀ i : nat, (i < n)%nat →
     is_Some (normalizedAt b cube i) ∧ is_Some (normalizedAt b cone i) ∧
     is_Some (normalizedAt b monkey i)) →
  is_Some (foldM (fillTargets b cube cone monkey) (seq 0 n) t0).
Proof.
  induction n as [|n IH]; intros t0 H; [by eexists|].
  rewrite foldM_seq_S. destruct (IH t0) as [t1 ->]; [intros i Hi; apply H; lia|].
  cbn [mbind option_bind]. unfold fillTargets.
  destruct (H n) as ([cn ->] & [on ->] & [mn ->]); [lia|]. by eexists.
Qed.


Lemma normalizedAt_unit (cube cone monkey shape : list vec3) (i : nat) (v : vec3) :
  shape = cube ∨ shape = cone ∨ shape = monkey →
  (i < Z.to_nat maxParticles)%nat →
  normalizedAt (scanShapes cube cone monkey) shape i = Some v → unitCube v.
Proof.
  intros Hshape Hi H. apply normalizedAt_Some in H as (pos & bounds & Hp & Hb & Hn).
  pose proof (scanShapes_three cube cone monkey) as Hs. rewrite Hb in Hs.
  destruct Hs as (H1 & H2 & H3). rewrite !list.Forall_forall in H1, H2, H3.
  apply (normalizePosition_unit bounds pos); [|done].
  pose proof (usedPoints_lookup shape i pos Hi Hp) as Hin.
  destruct Hshape as [-> | [-> | ->] ]; auto.
Qed.

Lemma targets_from_zero (N n : nat) (b : option Bounds) (cube cone monkey : list vec3)
    (t : Targets) :
  foldM (fillTargets b cube cone monkey) (seq 0 n)
    (mkTargets (replicate N (Vec3 0 0 0)) (replicate N (Vec3 0 0 0))
       (replicate N (Vec3 0 0 0))) = Some t →
  (n ≤ N)%nat →
  (length (cubeTargetBuffer t) = N ∧ length (coneTargetBuffer t) = N ∧
   length (monkeyTargetBuffer t) = N) ∧
  (∀ i : nat, (i < n)%nat →
     ∃ cn on mn : vec3,
       normalizedAt b cube i = Some cn ∧ normalizedAt b cone i = Some on ∧
       normalizedAt b monkey i = Some mn ∧
       cubeTargetBuffer t !! i = Some cn ∧ coneTargetBuffer t !! i = Some on ∧
       monkeyTargetBuffer t !! i = Some mn) ∧
  (∀ i : nat, (n ≤ i)%nat → (i < N)%nat →
     cubeTargetBuffer t !! i = Some (Vec3 0 0 0) ∧
     coneTargetBuffer t !! i = Some (Vec3 0 0 0) ∧
     monkeyTargetBuffer t !! i = Some (Vec3 0 0 0)).
Proof.
  intros H Hn.
  apply targets_run in H as ((L1 & L2 & L3) & Hlt & Hge).
  cbn [cubeTargetBuffer coneTargetBuffer monkeyTargetBuffer] in *.
  rewrite length_replicate in L1, L2, L3.
  split; [done|]. split.
  - intros i Hi. destruct (Hlt i Hi) as (cn & on & mn & Hc & Ho & Hm & Bc & Bo & Bm).
    rewrite length_replicate in Bc, Bo, Bm.
    exists cn, on, mn. repeat split; auto with lia.
  - intros i Hi Hmax. destruct (Hge i Hi) as (-> & -> & ->).
    by rewrite lookup_replicate_2.
Qed.

Lemma particlesToUse_le (positions : list vec3) :
  (particlesToUse positions ≤ Z.to_nat maxParticles)%nat.
Proof. unfold particlesToUse. lia. Qed.

Lemma setupTargets_result (cube cone monkey : list vec3) (t : Targets) :
  setupTargets cube cone monkey = Some t →
  (length (cubeTargetBuffer t) = Z.to_nat maxParticles ∧
   length (coneTargetBuffer t) = Z.to_nat maxParticles ∧
   length (monkeyTargetBuffer t) = Z.to_nat maxParticles) ∧
  (∀ i : nat, (i < particlesToUse cube)%nat →
     ∃ cn on mn : vec3,
       normalizedAt (scanShapes cube cone monkey) cube i = Some cn ∧
       normalizedAt (scanShapes cube cone monkey) cone i = Some on ∧
       normalizedAt (scanShapes cube cone monkey) monkey i = Some mn ∧
       cubeTargetBuffer t !! i = Some cn ∧ coneTargetBuffer t !! i = Some on ∧
       monkeyTargetBuffer t !! i = Some mn) ∧
  (∀ i : nat, (particlesToUse cube ≤ i)%nat → (i < Z.to_nat maxParticles)%nat →
     cubeTargetBuffer t !! i = Some (Vec3 0 0 0) ∧
     coneTargetBuffer t !! i = Some (Vec3 0 0 0) ∧
     monkeyTargetBuffer t !! i = Some (Vec3 0 0 0)).
Proof.
  intros H.
  exact (targets_from_zero (Z.to_nat maxParticles) (particlesToUse cube)
           (scanShapes cube cone monkey) cube cone monkey t H (particlesToUse_le cube)).
Qed.

Lemma setupTargets_is_Some (cube cone monkey : list vec3) :
  is_Some (setupTargets cube cone monkey) ↔
  ∀ i : nat, (i < particlesToUse cube)%nat →
    is_Some (normalizedAt (scanShapes cube cone monkey) cube i) ∧
    is_Some (normalizedAt (scanShapes cube cone monkey) cone i) ∧
    is_Some (normalizedAt (scanShapes cube cone monkey) monkey i).
Proof.
  split.
  - intros [t Ht] i Hi. apply setupTargets_result in Ht as (_ & Hlt & _).
    destruct (Hlt i Hi) as (cn & on & mn & -> & -> & -> & _). repeat split; by eexists.
  - intros H. unfold setupTargets. by apply targets_run_succeeds.
Qed.


Lemma normalizedAt_is_Some (b : option Bounds) (shape : list vec3) (i : nat) :
  is_Some (normalizedAt b shape i) ↔
  (i < length shape)%nat ∧ ∃ bounds : Bounds, b = Some bounds ∧ ¬ (globalMaxRange bounds == 0)%Q.
Proof.
  split.
  - intros [v Hv]. apply normalizedAt_Some in Hv as (pos & bounds & Hp & Hb & Hn).
    split; [by apply lookup_lt_Some in Hp|]. exists bounds. split; [done|].
    apply (normalizePosition_is_Some bounds pos). by eexists.
  - intros [Hi (bounds & -> & HR)].
    destruct (lookup_lt_is_Some_2 shape i Hi) as [pos Hp].
    destruct (proj2 (normalizePosition_is_Some bounds pos) HR) as [v Hv].
    exists v. apply normalizedAt_Some. by exists pos, bounds.
Qed.

Lemma setupTargets_defined_iff (cube cone monkey : list vec3) :
  is_Some (setupTargets cube cone monkey) ↔
  particlesToUse cube = O ∨
  ((particlesToUse cube ≤ length cone)%nat ∧ (particlesToUse cube ≤ length monkey)%nat ∧
   ∃ bounds : Bounds,
     scanShapes cube cone monkey = Some bounds ∧ ¬ (globalMaxRange bounds == 0)%Q).
Proof.
  rewrite setupTargets_is_Some. split.
  - intros H. destruct (decide (particlesToUse cube = O)) as [?|Hpos]; [by left|]. right.
    destruct (H O) as (_ & Ho & _); [lia|].
    apply normalizedAt_is_Some in Ho as [_ Hb].
    split; [|split; [|done]].
    + destruct (decide (particlesToUse cube ≤ length cone)%nat) as [?|Hgt]; [done|].
      destruct (H (length cone)) as (_ & Ho & _); [lia|].
      apply normalizedAt_is_Some in Ho as [Ho _]. lia.
    + destruct (decide (particlesToUse cube ≤ length monkey)%nat) as [?|Hgt]; [done|].
      destruct (H (length monkey)) as (_ & _ & Hm); [lia|].
      apply normalizedAt_is_Some in Hm as [Hm _]. lia.
  - intros [H0|(Ho & Hm & Hb)] i Hi; [lia|].
    pose proof (proj1 (particlesToUse_bounds cube i) Hi) as [_ Hc].
    repeat split; apply normalizedAt_is_Some; (split; [lia|done]).
Qed.

(** X7: when the loading of the targets has a result.  The loop over the
    particles to fill in runs to the end exactly when there is no particle
    to fill in, or the cone and the monkey have a point for every one of
    them and the points of the shapes do not all coincide (the largest
    extent of the bounds is not zero). *)
Theorem setupTargets_defined (cubePositions conePositions monkeyPositions : list vec3) :
  is_Some (setupTargets cubePositions conePositions monkeyPositions) ↔
  particlesToUse cubePositions = O ∨
  ((particlesToUse cubePositions ≤ length conePositions)%nat ∧
   (particlesToUse cubePositions ≤ length monkeyPositions)%nat ∧
   ∃ bounds : Bounds,
     scanShapes cubePositions conePositions monkeyPositions = Some bounds ∧
     ¬ (globalMaxRange bounds == 0)%Q).
Proof. apply setupTargets_defined_iff. Qed.


(** ** Loading: the particle array *)

Lemma fillParticle_Some (b : option Bounds) (src : list vec3) (i : nat) (arr arr' : list Q) :
  fillParticle b src i arr = Some arr' ↔
  ∃ v : vec3, normalizedAt b src i = Some v ∧
    arr' = <[(i * 18 + 17)%nat := v_z v]> (<[(i * 18 + 16)%nat := v_y v]>
           (<[(i * 18 + 15)%nat := v_x v]> (<[(i * 18 + 2)%nat := v_z v]>
           (<[(i * 18 + 1)%nat := v_y v]> (<[(i * 18)%nat := v_x v]> arr))))).
Proof.
  unfold fillParticle, normalizedAt, normalizePosition, fdiv.
  change (Z.to_nat particleStructSize) with 18%nat.
  destruct (src !! i) as [pos|]; cbn [mbind option_bind]; [|split; [done|by intros (? & ? & _)]].
  destruct b as [bounds|]; cbn [mbind option_bind]; [|split; [done|by intros (? & ? & _)]].
  destruct (Qeq_bool (globalMaxRange bounds) 0); cbn [mbind option_bind];
    [split; [done|by intros (? & ? & _)]|].
  split.
  - intros [= <-]. eexists. split; [reflexivity|]. reflexivity.
  - intros (v & [= <-] & ->). reflexivity.
Qed.

Lemma particleSlot_insert (base : nat) (v : vec3) (arr : list Q) (k : nat) :
  (k < 18)%nat → (base + k < length arr)%nat →
  (<[(base + 17)%nat := v_z v]> (<[(base + 16)%nat := v_y v]>
    (<[(base + 15)%nat := v_x v]> (<[(base + 2)%nat := v_z v]>
    (<[(base + 1)%nat := v_y v]> (<[base := v_x v]> arr)))))) !! (base + k)%nat
  = match particleSlot v k with Some q => Some q | None => arr !! (base + k)%nat end.
Proof.
  intros Hk Hlen.
  do 18 (destruct k as [|k];
         [ replace (base + 0)%nat with base by lia;
           rewrite ?list_lookup_insert_ne by lia;
           try (rewrite list_lookup_insert_eq by (rewrite ?length_insert; lia));
           reflexivity | ]).
  lia.
Qed.

Lemma inserts_other (base : nat) (x0 x1 x2 x3 x4 x5 : Q) (arr : list Q) (j : nat) :
  (j < base ∨ base + 18 ≤ j)%nat →
  (<[(base + 17)%nat := x5]> (<[(base + 16)%nat := x4]>
    (<[(base + 15)%nat := x3]> (<[(base + 2)%nat := x2]>
    (<[(base + 1)%nat := x1]> (<[base := x0]> arr)))))) !! j = arr !! j.
Proof. intros Hj. by rewrite !list_lookup_insert_ne by lia. Qed.

(** What the loop over the first [n] particles leaves in the array. *)
Lemma particles_run (b : option Bounds) (src : list vec3) (arr0 : list Q) (n : nat) :
  ∀ arr : list Q,
  foldM (fillParticle b src) (seq 0 n) arr0 = Some arr →
  length arr = length arr0 ∧
  (∀ i : nat, (i < n)%nat →
     ∃ v : vec3, normalizedAt b src i = Some v ∧
       ∀ k : nat, (k < 18)%nat → (i * 18 + k < length arr0)%nat →
         arr !! (i * 18 + k)%nat
         = match particleSlot v k with
           | Some q => Some q
           | None => arr0 !! (i * 18 + k)%nat
           end) ∧
  (∀ j : nat, (n * 18 ≤ j)%nat → arr !! j = arr0 !! j).
Proof.
  induction n as [|n IH]; intros arr H.
  - cbn in H. injection H as <-. split; [done|]. split; [intros i Hi; lia|done].
  - rewrite foldM_seq_S in H.
    destruct (foldM (fillParticle b src) (seq 0 n) arr0) as [arr1|];
      cbn [mbind option_bind] in H; [|done].
    destruct (IH arr1 eq_refl) as (L & Hlt & Hge).
    apply fillParticle_Some in H as (v & Hv & ->).
    rewrite !length_insert. split; [done|]. split.
    + intros i Hi. destruct (decide (i = n)) as [->|Hne].
      * exists v. split; [done|]. intros k Hk Hlen.
        rewrite particleSlot_insert by lia.
        destruct (particleSlot v k); [done|]. apply Hge. lia.
      * destruct (Hlt i) as (w & Hw & Hslots); [lia|].
        exists w. split; [done|]. intros k Hk Hlen.
        rewrite inserts_other by lia. by apply Hslots.
    + intros j Hj. rewrite inserts_other by lia. apply Hge. lia.
Qed.

Lemma particles_from_zero (N n : nat) (b : option Bounds) (src : list vec3) (arr : list Q) :
  foldM (fillParticle b src) (seq 0 n) (replicate N 0%Q) = Some arr →
  (n * 18 ≤ N)%nat →
  length arr = N ∧
  (∀ i : nat, (i < n)%nat →
     ∃ v : vec3, normalizedAt b src i = Some v ∧
       ∀ k : nat, (k < 18)%nat →
         arr !! (i * 18 + k)%nat
         = Some match particleSlot v k with Some q => q | None => 0%Q end) ∧
  (∀ j : nat, (n * 18 ≤ j)%nat → (j < N)%nat → arr !! j = Some 0%Q).
Proof.
  intros H Hn. apply particles_run in H as (L & Hlt & Hge).
  rewrite length_replicate in L. split; [done|]. split.
  - intros i Hi. destruct (Hlt i Hi) as (v & Hv & Hslots).
    exists v. split; [done|]. intros k Hk.
    rewrite Hslots by (rewrite ?length_replicate; lia).
    destruct (particleSlot v k); [done|]. apply lookup_replicate_2. lia.
  - intros j Hj HN. rewrite Hge by done. by apply lookup_replicate_2.
Qed.

Lemma particleArray_size (positions : list vec3) :
  (particlesToUse positions * 18 ≤ Z.to_nat (maxParticles * particleStructSize))%nat.
Proof. unfold particlesToUse, particleStructSize. lia. Qed.

(** X8: the particle array after loading.  The array has
    [particleStructSize] numbers for each of [maxParticles] particles.  For
    every particle that the loading fills in, the slots 0, 1, 2 and the
    slots 15, 16, 17 both hold the normalised position of its point of the
    cube, a point of the unit cube, which is also its entry of the cube
    target buffer; every other number of the array is zero. *)
Theorem particleArray_initial (cubePositions conePositions monkeyPositions : list vec3)
    (particleArray : list Q) :
  setupParticleArray cubePositions conePositions monkeyPositions = Some particleArray →
  length particleArray = Z.to_nat (maxParticles * particleStructSize) ∧
  (∀ i : nat, (i < particlesToUse cubePositions)%nat →
     ∃ v : vec3,
       normalizedAt (scanShapes cubePositions conePositions monkeyPositions)
         cubePositions i = Some v ∧
       unitCube v ∧
       (∀ t : Targets,
          setupTargets cubePositions conePositions monkeyPositions = Some t →
          cubeTargetBuffer t !! i = Some v) ∧
       ∀ k : nat, (k < 18)%nat →
         particleArray !! (i * 18 + k)%nat
         = Some match particleSlot v k with Some q => q | None => 0%Q end) ∧
  (∀ j : nat, (particlesToUse cubePositions * 18 ≤ j)%nat →
     (j < Z.to_nat (maxParticles * particleStructSize))%nat →
     particleArray !! j = Some 0%Q).
Proof.
  intros H.
  destruct (particles_from_zero (Z.to_nat (maxParticles * particleStructSize))
              (particlesToUse cubePositions)
              (scanShapes cubePositions conePositions monkeyPositions) cubePositions
              particleArray H (particleArray_size cubePositions)) as (L & Hlt & Hge).
  split; [done|]. split; [|done].
  intros i Hi. destruct (Hlt i Hi) as (v & Hv & Hslots).
  exists v. split; [done|].
  pose proof (proj1 (particlesToUse_bounds cubePositions i) Hi) as [Hmax _].
  split; [|split; [|done]].
  - apply (normalizedAt_unit cubePositions conePositions monkeyPositions cubePositions i);
      auto.
  - intros t Ht. apply setupTargets_result in Ht as (_ & Ht & _).
    destruct (Ht i Hi) as (cn & on & mn & Hc & _ & _ & Bc & _). congruence.
Qed.

Lemma particles_run_succeeds (b : option Bounds) (src : list vec3) (n : nat) :
  ∀ arr0 : list Q,
  (∀ i : nat, (i < n)%nat → is_Some (normalizedAt b src i)) →
  is_Some (foldM (fillParticle b src) (seq 0 n) arr0).
Proof.
  induction n as [|n IH]; intros arr0 H; [by eexists|].
  rewrite foldM_seq_S. destruct (IH arr0) as [arr1 ->]; [intros i Hi; apply H; lia|].
  cbn [mbind option_bind]. destruct (H n) as [v Hv]; [lia|].
  eexists. apply fillParticle_Some. by exists v.
Qed.

Lemma setupParticleArray_is_Some (cube cone monkey : list vec3) :
  (∃ bounds : Bounds,
     scanShapes cube cone monkey = Some bounds ∧ ¬ (globalMaxRange bounds == 0)%Q) →
  is_Some (setupParticleArray cube cone monkey).
Proof.
  intros Hb. unfold setupParticleArray. apply particles_run_succeeds.
  intros i Hi. apply normalizedAt_is_Some.
  pose proof (proj1 (particlesToUse_bounds cube i) Hi) as [_ Hc]. done.
Qed.

Lemma particleArray_initial_witness :
  ∃ particleArray : list Q,
    setupParticleArray [Vec3 0 0 0; Vec3 2 1 1] [Vec3 1 4 1; Vec3 0 3 0]
      [Vec3 1 1 (-1); Vec3 1 2 3] = Some particleArray ∧
    particleArray !! 19%nat = particleArray !! 34%nat.
Proof.
  destruct (setupParticleArray_is_Some [Vec3 0 0 0; Vec3 2 1 1] [Vec3 1 4 1; Vec3 0 3 0]
              [Vec3 1 1 (-1); Vec3 1 2 3]) as [arr Harr].
  { eexists. split; [vm_compute; reflexivity|]. vm_compute. discriminate. }
  exists arr. split; [exact Harr|].
  destruct (particleArray_initial _ _ _ arr Harr) as (_ & H & _).
  destruct (H 1%nat) as (v & _ & _ & _ & Hk); [vm_compute; lia|].
  change 34%nat with (1 * 18 + 16)%nat. change 19%nat with (1 * 18 + 1)%nat.
  rewrite (Hk 1%nat), (Hk 16%nat) by lia. reflexivity.
Defined.

(** ** The grid passes *)

(** X9: the clear pass.  On a cell buffer of [cellCount] cells the clear
    pass leaves every field of every cell at zero, whatever the buffer
    held; the compute passes of a frame therefore do not depend on what an
    earlier frame has left in the integer grid. *)
Theorem clearGrid_resets_grid (sin cos sqrt : Q → Q) (u : Uniforms) (targets : Targets)
    (g g' : Gpu) :
  length (gpu_cellBuffer g) = Z.to_nat cellCount →
  length (gpu_cellBuffer g') = Z.to_nat cellCount →
  gpu_particleBuffer g = gpu_particleBuffer g' →
  gpu_cellBufferFloat g = gpu_cellBufferFloat g' →
  compute clearGridKernel cellCount (gpu_cellBuffer g) = Some clearedGrid ∧
  Forall (λ c : Cell, ∀ f : Field, get f c = 0) clearedGrid ∧
  renderCompute sin cos sqrt u targets g = renderCompute sin cos sqrt u targets g'.
Proof.
  intros H1 H2 Hp Hf. split; [by apply clear_pass|]. split.
  - rewrite clearedGrid_unfold. apply Forall_replicate. by intros [].
  - rewrite !renderCompute_from_cleared by done. by rewrite Hp, Hf.
Qed.

Lemma clearGrid_resets_grid_witness :
  renderCompute sin_approx cos_approx sqrt_on_squares example_uniforms example_targets
    (mkGpu example_particles (replicate (Z.to_nat cellCount) (mkCell 1 (-2) 3 4)) [])
  = renderCompute sin_approx cos_approx sqrt_on_squares example_uniforms example_targets
      (mkGpu example_particles (replicate (Z.to_nat cellCount) (mkCell 0 7 0 (-1))) []).
Proof.
  apply (clearGrid_resets_grid sin_approx cos_approx sqrt_on_squares example_uniforms
           example_targets
           (mkGpu example_particles (replicate (Z.to_nat cellCount) (mkCell 1 (-2) 3 4)) [])
           (mkGpu example_particles (replicate (Z.to_nat cellCount) (mkCell 0 7 0 (-1))) [])).
  - exact (length_replicate (Z.to_nat cellCount) (mkCell 1 (-2) 3 4)).
  - exact (length_replicate (Z.to_nat cellCount) (mkCell 0 7 0 (-1))).
  - exact (eq_refl example_particles).
  - exact (eq_refl []).
Defined.

(** X10: what P2G1 leaves in a cell.  Run from the cleared grid on
    particles whose stencils lie in the grid, the pass has a result, of
    [cellCount] cells, and every field of every cell holds the sum of the
    encoded contributions that the particles of the pass have sent to it,
    wrapped around to 32 bits. *)
Theorem p2g1_cell_values (u : Uniforms) (particleBuffer : list Particle)
    (order : list nat) :
  activeInterior u particleBuffer order →
  ∃ cellBuffer' : list Cell,
    dispatch (p2g1Kernel u particleBuffer) order clearedGrid = Some cellBuffer' ∧
    length cellBuffer' = Z.to_nat cellCount ∧
    ∀ (i : nat) (c : Cell) (f : Field),
      cellBuffer' !! i = Some c →
      get f c = wrap_i32 (depositAt (p2g1PassOps u particleBuffer order) (Z.of_nat i) f).
Proof.
  intros Hact.
  destruct (p2g1_pass_succeeds u particleBuffer order Hact) as (cb' & Hd & Ha).
  exists cb'. split; [exact Hd|].
  pose proof (applyOps_length _ _ _ Ha) as Hlen. rewrite length_replicate in Hlen.
  split; [done|]. intros i c f Hc.
  assert (i < Z.to_nat cellCount)%nat as Hi by (apply lookup_lt_Some in Hc; lia).
  pose proof (lookup_replicate_2 (Z.to_nat cellCount) (mkCell 0 0 0 0) i Hi) as Hz.
  destruct (applyOps_lookup _ _ _ i _ Ha Hz) as (c' & Hc' & Hf).
  assert (c' = c) as -> by congruence.
  pose proof (applyOps_cell_ok _ _ _ (zero_grid_ok (Z.to_nat cellCount)) Ha) as Hok.
  rewrite list.Forall_forall in Hok.
  specialize (Hok c (list_elem_of_lookup_2 _ _ _ Hc) f).
  rewrite <- (wrap_i32_id (get f c)) by done. rewrite Hf. by destruct f.
Qed.

Lemma p2g1_cell_values_witness :
  ∃ cellBuffer' : list Cell,
    dispatch (p2g1Kernel example_uniforms example_particles) [0; 1]%nat clearedGrid
    = Some cellBuffer' ∧ length cellBuffer' = Z.to_nat cellCount.
Proof.
  destruct (p2g1_cell_values example_uniforms example_particles [0; 1]%nat example_interior)
    as (cb' & H1 & H2 & _).
  exists cb'. split; [exact H1 | exact H2].
Defined.

(** ** Momentum sent to the grid *)

Lemma sumQ_ext {A} (f f' : A → Q) (l : list A) :
  (∀ a : A, (f a == f' a)%Q) → (sumQ (map f l) == sumQ (map f' l))%Q.
Proof.
  intros H. induction l as [|a l IH]; [reflexivity|].
  cbn [map sumQ foldr]. fold (sumQ (map f l)). fold (sumQ (map f' l)).
  by rewrite IH, H.
Qed.

(** Weights that sum to one on every axis, multiplied by an affine
    function of offsets whose weighted mean is zero on every axis, sum to
    the constant part. *)
Lemma stencil_affine_sum (wx wy wz ax ay az : Z → Q) (v c0 c1 c2 : Q) :
  (wx 0%Z + wx 1%Z + wx 2%Z == 1)%Q → (wy 0%Z + wy 1%Z + wy 2%Z == 1)%Q →
  (wz 0%Z + wz 1%Z + wz 2%Z == 1)%Q →
  (wx 0%Z * ax 0%Z + wx 1%Z * ax 1%Z + wx 2%Z * ax 2%Z == 0)%Q →
  (wy 0%Z * ay 0%Z + wy 1%Z * ay 1%Z + wy 2%Z * ay 2%Z == 0)%Q →
  (wz 0%Z * az 0%Z + wz 1%Z * az 1%Z + wz 2%Z * az 2%Z == 0)%Q →
  (sumQ (map (λ g : ivec3,
                wx (i_x g) * wy (i_y g) * wz (i_z g)
                * (v + (c0 * ax (i_x g) + c1 * ay (i_y g) + c2 * az (i_z g))))
           stencilOffsets) == v)%Q.
Proof.
  intros Sx Sy Sz Mx My Mz. rewrite stencilOffsets_eq.
  cbn [map sumQ foldr i_x i_y i_z].
  set (X := (wx 0%Z + wx 1%Z + wx 2%Z)%Q) in *. set (Y := (wy 0%Z + wy 1%Z + wy 2%Z)%Q) in *.
  set (Z' := (wz 0%Z + wz 1%Z + wz 2%Z)%Q) in *.
  set (MX := (wx 0%Z * ax 0%Z + wx 1%Z * ax 1%Z + wx 2%Z * ax 2%Z)%Q) in *.
  set (MY := (wy 0%Z * ay 0%Z + wy 1%Z * ay 1%Z + wy 2%Z * ay 2%Z)%Q) in *.
  set (MZ := (wz 0%Z * az 0%Z + wz 1%Z * az 1%Z + wz 2%Z * az 2%Z)%Q) in *.
  transitivity (X * Y * Z' * v + c0 * MX * Y * Z' + c1 * X * MY * Z' + c2 * X * Y * MZ)%Q.
  - unfold X, Y, Z', MX, MY, MZ. ring.
  - rewrite Sx, Sy, Sz, Mx, My, Mz. ring.
Qed.

Lemma axis_dist (gp : Q) (g : Z) :
  (0 <= gp)%Q → (gp <= inject_Z i32_max)%Q →
  (float (int gp - 1 + g) + (1 # 2) - gp == inject_Z g - 1 - (fract gp - (1 # 2)))%Q.
Proof.
  intros H0 H1. rewrite (int_floor gp H0 H1). unfold float, fract.
  unfold Z.sub. rewrite !inject_Z_plus. change (inject_Z (- (1))) with (-1)%Q. ring.
Qed.

Lemma axis_first_moment (d a0 a1 a2 : Q) :
  (a0 == inject_Z 0 - 1 - d)%Q → (a1 == inject_Z 1 - 1 - d)%Q → (a2 == inject_Z 2 - 1 - d)%Q →
  ((1 # 2) * ((1 # 2) - d) * ((1 # 2) - d) * a0 + ((3 # 4) - d * d) * a1
   + (1 # 2) * ((1 # 2) + d) * ((1 # 2) + d) * a2 == 0)%Q.
Proof.
  intros -> -> ->. change (inject_Z 0) with 0%Q. change (inject_Z 1) with 1%Q.
  change (inject_Z 2) with 2%Q. ring.
Qed.

Lemma unitCube_gridPosition (pos : vec3) :
  unitCube pos →
  ((0 <= v_x (gridPositionOf pos))%Q ∧ (v_x (gridPositionOf pos) <= inject_Z i32_max)%Q) ∧
  ((0 <= v_y (gridPositionOf pos))%Q ∧ (v_y (gridPositionOf pos) <= inject_Z i32_max)%Q) ∧
  ((0 <= v_z (gridPositionOf pos))%Q ∧ (v_z (gridPositionOf pos) <= inject_Z i32_max)%Q).
Proof.
  intros ((Hx0 & Hx1) & (Hy0 & Hy1) & (Hz0 & Hz1)). cbn [v_x v_y v_z] in *.
  unfold gridPositionOf, vmul, vzip, gridSizeUniform, vec3_of_ivec3, gridSize, gridSize1d,
    float. cbn [v_x v_y v_z i_x i_y i_z].
  change (inject_Z 64) with 64%Q.
  assert (64 <= inject_Z i32_max)%Q as Hm by (vm_compute; discriminate).
  repeat split; lra.
Qed.

(** The sum over the stencil of weight times an affine function of the
    distance to the cell is the value of the function at the particle. *)
Lemma stencil_affine (p : Particle) (v c0 c1 c2 : Q) :
  unitCube (position p) →
  (sumQ (map (λ g : ivec3,
                stencilWeight p g
                * (v + (c0 * v_x (cellDistOf (iadd (cellIndexOf (gridPositionOf (position p))) g)
                                    (gridPositionOf (position p)))
                        + c1 * v_y (cellDistOf (iadd (cellIndexOf (gridPositionOf (position p))) g)
                                      (gridPositionOf (position p)))
                        + c2 * v_z (cellDistOf (iadd (cellIndexOf (gridPositionOf (position p))) g)
                                      (gridPositionOf (position p))))))
           stencilOffsets) == v)%Q.
Proof.
  intros Hpos. destruct (unitCube_gridPosition _ Hpos) as ((X0 & X1) & (Y0 & Y1) & (Z0 & Z1)).
  unfold stencilWeight.
  set (gp := gridPositionOf (position p)) in *. clearbody gp. destruct gp as [gx gy gz].
  cbn [v_x v_y v_z] in *.
  set (cd := Vec3 (fract gx - (1 # 2)) (fract gy - (1 # 2)) (fract gz - (1 # 2))).
  transitivity
    (sumQ (map (λ g : ivec3,
                  (λ k, v_x (weights cd k)) (i_x g) * (λ k, v_y (weights cd k)) (i_y g)
                  * (λ k, v_z (weights cd k)) (i_z g)
                  * (v + (c0 * (λ k, float (int gx - 1 + k) + (1 # 2) - gx) (i_x g)
                          + c1 * (λ k, float (int gy - 1 + k) + (1 # 2) - gy) (i_y g)
                          + c2 * (λ k, float (int gz - 1 + k) + (1 # 2) - gz) (i_z g))))%Q
             stencilOffsets)).
  { apply sumQ_ext. intros g. reflexivity. }
  apply (stencil_affine_sum (λ k, v_x (weights cd k)) (λ k, v_y (weights cd k))
           (λ k, v_z (weights cd k))
           (λ k, float (int gx - 1 + k) + (1 # 2) - gx)%Q
           (λ k, float (int gy - 1 + k) + (1 # 2) - gy)%Q
           (λ k, float (int gz - 1 + k) + (1 # 2) - gz)%Q).
  - cbn. ring.
  - cbn. ring.
  - cbn. ring.
  - cbn [weights w0 w1 w2 vmap v_x cd]. apply axis_first_moment; by apply axis_dist.
  - cbn [weights w0 w1 w2 vmap v_y cd]. apply axis_first_moment; by apply axis_dist.
  - cbn [weights w0 w1 w2 vmap v_z cd]. apply axis_first_moment; by apply axis_dist.
Qed.

Lemma fieldTotal_cons (f : Field) (op : Op) (ops : list Op) :
  fieldTotal f (op :: ops) = (if decide (op.1.2 = f) then op.2 else 0) + fieldTotal f ops.
Proof. unfold fieldTotal. cbn [foldr]. case_decide; lia. Qed.

Lemma fieldTotal_app (f : Field) (ops1 ops2 : list Op) :
  fieldTotal f (ops1 ++ ops2) = fieldTotal f ops1 + fieldTotal f ops2.
Proof.
  induction ops1 as [|op ops1 IH]; [done|].
  rewrite <- app_comm_cons, !fieldTotal_cons, IH. lia.
Qed.

Lemma fieldTotal_flat_map {A} (f : Field) (ops : A → list Op) (l : list A) :
  fieldTotal f (flat_map ops l) = sumZ (map (λ a, fieldTotal f (ops a)) l).
Proof.
  induction l as [|a l IH]; [done|].
  cbn [flat_map map sumZ foldr]. rewrite fieldTotal_app, IH. done.
Qed.

Lemma p2g1Ops_fieldTotal (p : Particle) (f : Field) :
  f ≠ FMass →
  fieldTotal f (p2g1Ops p)
  = sumZ (map (λ g, encodeFixedPoint (component f (velContribOf p g))) stencilOffsets).
Proof.
  intros Hf. unfold p2g1Ops. rewrite fieldTotal_flat_map. f_equal.
  apply map_ext. intros g. unfold p2g1CellOps. fold (velContribOf p g).
  rewrite !fieldTotal_cons. cbn [fst snd fieldTotal foldr].
  destruct f; try done; repeat case_decide; try done; cbn [component]; lia.
Qed.

Lemma p2g2Ops_fieldTotal (u : Uniforms) (p : Particle) (volume : Q) (f : Field) :
  fieldTotal f (p2g2Ops u p volume)
  = if decide (f = FMass) then 0
    else sumZ (map (λ g, encodeFixedPoint (component f (momentumOf u p volume g)))
                 stencilOffsets).
Proof.
  unfold p2g2Ops. rewrite fieldTotal_flat_map.
  assert (∀ g, fieldTotal f (p2g2CellOps u p volume g)
               = if decide (f = FMass) then 0
                 else encodeFixedPoint (component f (momentumOf u p volume g))) as Hg.
  { intros g. unfold p2g2CellOps. fold (momentumOf u p volume g).
    rewrite !fieldTotal_cons. cbn [fst snd fieldTotal foldr].
    destruct f; repeat case_decide; try done; cbn [component]; lia. }
  rewrite (map_ext _ _ Hg). case_decide; [|done].
  induction stencilOffsets as [|g l IH]; [done|]. cbn [map sumZ foldr]. fold (sumZ (map (λ _ : ivec3, 0) l)). lia.
Qed.

Lemma encode_bounds (r : Q) :
  codec_range r →
  (r * fixedPointMultiplier - 1 < inject_Z (encodeFixedPoint r))%Q ∧
  (inject_Z (encodeFixedPoint r) < r * fixedPointMultiplier + 1)%Q.
Proof.
  intros Hr. rewrite (encodeFixedPoint_trunc r Hr).
  pose proof (Qtrunc_abs_error (r * fixedPointMultiplier)) as He.
  apply Qabs_Qlt_condition in He. destruct He. split; lra.
Qed.

Lemma encode_sum_bounds {A} (f : A → Q) (l : list A) :
  Forall (λ a, codec_range (f a)) l →
  (sumQ (map f l) * fixedPointMultiplier - inject_Z (Z.of_nat (length l))
   <= inject_Z (sumZ (map (λ a, encodeFixedPoint (f a)) l)))%Q ∧
  (inject_Z (sumZ (map (λ a, encodeFixedPoint (f a)) l))
   <= sumQ (map f l) * fixedPointMultiplier + inject_Z (Z.of_nat (length l)))%Q.
Proof.
  induction 1 as [|a l Ha _ [IH1 IH2]].
  - cbn [map sumZ sumQ foldr length]. change (inject_Z (Z.of_nat 0)) with 0%Q.
    change (inject_Z 0) with 0%Q. unfold fixedPointMultiplier. split; lra.
  - cbn [map sumZ sumQ foldr length].
    fold (sumZ (map (λ a, encodeFixedPoint (f a)) l)). fold (sumQ (map f l)).
    rewrite Nat2Z.inj_succ, <- Z.add_1_r, !inject_Z_plus. change (inject_Z 1) with 1%Q.
    destruct (encode_bounds (f a) Ha) as [E1 E2]. split; lra.
Qed.

Lemma decoded_total_bound (total : Z) (s v : Q) :
  (s == v)%Q →
  (s * fixedPointMultiplier - 27 <= inject_Z total)%Q →
  (inject_Z total <= s * fixedPointMultiplier + 27)%Q →
  (Qabs (decodeFixedPoint total - v) <= 27 * decodeFixedPoint 1)%Q.
Proof.
  intros Hs H1 H2. rewrite Hs in H1, H2. unfold decodeFixedPoint, float.
  rewrite !div_scale. unfold fixedPointMultiplier in *. change (inject_Z 1) with 1%Q.
  apply Qabs_Qle_condition. split; lra.
Qed.

Lemma stencilOffsets_length : length stencilOffsets = 27%nat.
Proof. by rewrite stencilOffsets_eq. Qed.

Lemma velContrib_sum (p : Particle) (f : Field) :
  unitCube (position p) →
  (sumQ (map (λ g, component f (velContribOf p g)) stencilOffsets)
   == component f (velocity p))%Q.
Proof.
  intros Hpos. destruct f.
  - etransitivity;
      [|apply (stencil_affine p (v_x (velocity p)) (v_x (col0 (C p))) (v_x (col1 (C p)))
                 (v_x (col2 (C p))) Hpos)].
    apply sumQ_ext. intros g.
    cbv [velContribOf smulv vadd mmulv vscale vzip vmap component v_x v_y v_z]. ring.
  - etransitivity;
      [|apply (stencil_affine p (v_y (velocity p)) (v_y (col0 (C p))) (v_y (col1 (C p)))
                 (v_y (col2 (C p))) Hpos)].
    apply sumQ_ext. intros g.
    cbv [velContribOf smulv vadd mmulv vscale vzip vmap component v_x v_y v_z]. ring.
  - etransitivity;
      [|apply (stencil_affine p (v_z (velocity p)) (v_z (col0 (C p))) (v_z (col1 (C p)))
                 (v_z (col2 (C p))) Hpos)].
    apply sumQ_ext. intros g.
    cbv [velContribOf smulv vadd mmulv vscale vzip vmap component v_x v_y v_z]. ring.
  - cbn [component]. induction stencilOffsets as [|g l IH]; [reflexivity|].
    cbn [map sumQ foldr]. fold (sumQ (map (λ _ : ivec3, 0%Q) l)). rewrite IH. ring.
Qed.

Lemma momentum_sum (u : Uniforms) (p : Particle) (volume : Q) (f : Field) :
  unitCube (position p) →
  (sumQ (map (λ g, component f (momentumOf u p volume g)) stencilOffsets) == 0)%Q.
Proof.
  intros Hpos. unfold momentumOf. cbv zeta.
  set (E := mscale (smulm (volume * -4) _) (dtUniform u)). clearbody E. destruct f.
  - etransitivity;
      [|apply (stencil_affine p 0 (v_x (col0 E)) (v_x (col1 E)) (v_x (col2 E)) Hpos)].
    apply sumQ_ext. intros g.
    cbv [mscale smulv vadd mmulv vscale vzip vmap component v_x v_y v_z col0 col1 col2].
    ring.
  - etransitivity;
      [|apply (stencil_affine p 0 (v_y (col0 E)) (v_y (col1 E)) (v_y (col2 E)) Hpos)].
    apply sumQ_ext. intros g.
    cbv [mscale smulv vadd mmulv vscale vzip vmap component v_x v_y v_z col0 col1 col2].
    ring.
  - etransitivity;
      [|apply (stencil_affine p 0 (v_z (col0 E)) (v_z (col1 E)) (v_z (col2 E)) Hpos)].
    apply sumQ_ext. intros g.
    cbv [mscale smulv vadd mmulv vscale vzip vmap component v_x v_y v_z col0 col1 col2].
    ring.
  - cbn [component]. induction stencilOffsets as [|g l IH]; [reflexivity|].
    cbn [map sumQ foldr]. fold (sumQ (map (λ _ : ivec3, 0%Q) l)). rewrite IH. ring.
Qed.

Lemma fitsCodec_component (v : vec3) (f : Field) :
  fitsCodec v → codec_range (component f v).
Proof.
  intros (Hx & Hy & Hz). destruct f; done.
Qed.

(** X11: P2G1 conserves momentum.  The additions of an invocation of P2G1
    are those of [p2g1Ops].  For a particle in the unit cube the 27
    contributions to any component of the momentum sum to that component of
    the velocity of the particle, whatever its matrix [C]; and when none of
    them saturates the fixed-point conversion, the decoded sum of the
    encoded contributions is within 27 units of the fixed-point scale of
    it. *)
Theorem p2g1_momentum_conservation (u : Uniforms) (particleBuffer : list Particle)
    (instanceIndex : nat) (p : Particle) :
  particleBuffer !! instanceIndex = Some p →
  Z.of_nat instanceIndex < particleCountUniform u →
  unitCube (position p) →
  Forall (λ g, fitsCodec (velContribOf p g)) stencilOffsets →
  (∀ cellBuffer : list Cell,
     p2g1Kernel u particleBuffer instanceIndex cellBuffer = applyOps (p2g1Ops p) cellBuffer) ∧
  ∀ f : Field, f ≠ FMass →
    (sumQ (map (λ g, component f (velContribOf p g)) stencilOffsets)
     == component f (velocity p))%Q ∧
    (Qabs (decodeFixedPoint (fieldTotal f (p2g1Ops p)) - component f (velocity p))
     <= 27 * decodeFixedPoint 1)%Q.
Proof.
  intros Hp Hact Hpos Hfit. split.
  - intros cb. rewrite p2g1Kernel_contrib. unfold p2g1Contrib.
    assert ((Z.of_nat instanceIndex >=? particleCountUniform u) = false) as ->.
    { rewrite Z.geb_leb. by apply Z.leb_gt. }
    by rewrite Hp.
  - intros f Hf. pose proof (velContrib_sum p f Hpos) as Hsum. split; [done|].
    rewrite (p2g1Ops_fieldTotal p f Hf).
    destruct (encode_sum_bounds (λ g, component f (velContribOf p g)) stencilOffsets)
      as [B1 B2].
    { eapply Forall_impl; [|exact Hfit]. intros g Hg. by apply fitsCodec_component. }
    rewrite stencilOffsets_length in B1, B2. change (inject_Z (Z.of_nat 27)) with 27%Q in *.
    by apply (decoded_total_bound _ _ _ Hsum).
Qed.

Lemma p2g1_momentum_conservation_witness :
  (Qabs (decodeFixedPoint (fieldTotal FZ (p2g1Ops example_particle2)) - 2)
   <= 27 * decodeFixedPoint 1)%Q.
Proof.
  destruct (p2g1_momentum_conservation example_uniforms example_particles 1%nat
              example_particle2) as [_ H].
  - reflexivity.
  - reflexivity.
  - unfold unitCube, within. vm_compute. repeat split; discriminate.
  - rewrite stencilOffsets_eq. repeat constructor; vm_compute; discriminate.
  - destruct (H FZ) as [_ H2]; [discriminate | exact H2].
Defined.

(** X12: P2G2 adds no net momentum.  An invocation of P2G2 adds to the
    momentum fields only: for a particle in the unit cube the 27
    contributions to any component sum to zero, whatever the volume and the
    stress; and when none of them saturates the fixed-point conversion, the
    decoded sum of the encoded contributions is within 27 units of the
    fixed-point scale of zero. *)
Theorem p2g2_momentum_balance (u : Uniforms) (particleBuffer : list Particle)
    (instanceIndex : nat) (p : Particle) (volume : Q) :
  particleBuffer !! instanceIndex = Some p →
  Z.of_nat instanceIndex < particleCountUniform u →
  unitCube (position p) →
  Forall (λ g, fitsCodec (momentumOf u p volume g)) stencilOffsets →
  (∀ cellBuffer cellBuffer' : list Cell,
     p2g2Kernel u particleBuffer instanceIndex cellBuffer = Some cellBuffer' →
     ∃ volume' : Q, applyOps (p2g2Ops u p volume') cellBuffer = Some cellBuffer') ∧
  fieldTotal FMass (p2g2Ops u p volume) = 0 ∧
  ∀ f : Field,
    (sumQ (map (λ g, component f (momentumOf u p volume g)) stencilOffsets) == 0)%Q ∧
    (Qabs (decodeFixedPoint (fieldTotal f (p2g2Ops u p volume))) <= 27 * decodeFixedPoint 1)%Q.
Proof.
  intros Hp Hact Hpos Hfit. split; [|split].
  - intros cb cb' H. rewrite p2g2Kernel_contrib in H. unfold p2g2Contrib in H.
    assert ((Z.of_nat instanceIndex >=? particleCountUniform u) = false) as E.
    { rewrite Z.geb_leb. by apply Z.leb_gt. }
    rewrite E, Hp in H. cbn [mbind option_bind] in H.
    destruct (p2g2Density cb _ _) as [density|]; cbn [mbind option_bind] in H; [|done].
    destruct (fdiv 1 density) as [volume'|]; cbn [mbind option_bind] in H; [|done].
    by exists volume'.
  - by rewrite p2g2Ops_fieldTotal.
  - intros f. pose proof (momentum_sum u p volume f Hpos) as Hsum. split; [done|].
    rewrite p2g2Ops_fieldTotal. case_decide.
    + vm_compute. discriminate.
    + destruct (encode_sum_bounds (λ g, component f (momentumOf u p volume g)) stencilOffsets)
        as [B1 B2].
      { eapply Forall_impl; [|exact Hfit]. intros g Hg. by apply fitsCodec_component. }
      rewrite stencilOffsets_length in B1, B2.
      change (inject_Z (Z.of_nat 27)) with 27%Q in *.
      pose proof (decoded_total_bound _ _ 0 Hsum B1 B2) as Hb.
      assert (∀ x : Q, (x - 0 == x)%Q) as E0 by (intros; ring).
      by rewrite E0 in Hb.
Qed.

Lemma p2g2_momentum_balance_witness :
  (Qabs (decodeFixedPoint (fieldTotal FX (p2g2Ops example_uniforms example_particle2 3)))
   <= 27 * decodeFixedPoint 1)%Q.
Proof.
  destruct (p2g2_momentum_balance example_uniforms example_particles 1%nat
              example_particle2 3) as (_ & _ & H).
  - reflexivity.
  - reflexivity.
  - unfold unitCube, within. vm_compute. repeat split; discriminate.
  - rewrite stencilOffsets_eq. repeat constructor; vm_compute; discriminate.
  - destruct (H FX) as [_ H2]. exact H2.
Defined.

(** ** The grid update over the whole grid *)

Lemma updateGridKernel_cell (cb : list Cell) (fb : list vec4) (i : nat) (c : Cell)
    (old : vec4) :
  Z.of_nat i < cellCount → cb !! i = Some c → fb !! i = Some old →
  updateGridKernel cb i fb
  = Some (<[i := if Qle_bool (decodeFixedPoint (cell_mass c)) 0 then old
                 else spec_gridUpdate (i_x (gridCoordsOf (Z.of_nat i)))
                        (i_y (gridCoordsOf (Z.of_nat i))) (i_z (gridCoordsOf (Z.of_nat i)))
                        c]> fb).
Proof.
  intros Hi Hc Hold. unfold updateGridKernel.
  assert ((Z.of_nat i >=? cellCount) = false) as ->.
  { rewrite Z.geb_leb. by apply Z.leb_gt. }
  unfold atomicLoad. rewrite !element_lookup by lia. rewrite Nat2Z.id, Hc.
  cbn [fmap option_fmap option_map mbind option_bind get].
  destruct (Qle_bool (decodeFixedPoint (cell_mass c)) 0) eqn:E.
  - by rewrite list_insert_id.
  - apply Qle_bool_false in E. rewrite !(fdiv_positive _ _ E).
    cbn [mbind option_bind]. rewrite !boundary_test.
    unfold assign. rewrite element_lookup by lia. rewrite Nat2Z.id, Hold.
    reflexivity.
Qed.

(** A dispatch over the first [n] indices of a kernel that rewrites the
    element of its own index. *)
Lemma dispatch_pointwise {A} (kernel : nat → list A → option (list A)) (h : nat → A → A)
    (s : list A) (n : nat) :
  (∀ (j : nat) (s' : list A) (a : A),
     (j < n)%nat → s' !! j = Some a → kernel j s' = Some (<[j := h j a]> s')) →
  (n ≤ length s)%nat →
  ∃ s' : list A,
    dispatch kernel (seq 0 n) s = Some s' ∧ length s' = length s ∧
    ∀ (j : nat) (a : A),
      s !! j = Some a → s' !! j = Some (if decide (j < n)%nat then h j a else a).
Proof.
  intros Hk. induction n as [|n IH]; intros Hn.
  - exists s. split; [done|]. split; [done|]. intros j a Ha.
    rewrite decide_False by lia. done.
  - destruct IH as (s1 & Hd & Hl & Hs); [intros j s' a Hj; apply Hk; lia | lia |].
    destruct (lookup_lt_is_Some_2 s n ltac:(lia)) as [a Ha].
    pose proof (Hs n a Ha) as Ha1. rewrite decide_False in Ha1 by lia.
    exists (<[n := h n a]> s1). split; [|split].
    + rewrite seq_S, dispatch_app, Hd, bind_Some. cbn [dispatch Nat.add].
      rewrite (Hk n s1 a) by (done || lia). done.
    + by rewrite length_insert.
    + intros j b Hb. destruct (decide (j = n)) as [->|Hne].
      * rewrite list_lookup_insert_eq by lia. rewrite decide_True by lia. congruence.
      * rewrite list_lookup_insert_ne by done. rewrite (Hs j b Hb).
        destruct (decide (j < n)%nat); [rewrite decide_True by lia|rewrite decide_False by lia];
          done.
Qed.

Lemma spec_boundaryVelocity_border (coord : Z) (v : Q) :
  onBorder coord → spec_boundaryVelocity coord gridSize1d v = 0%Q.
Proof.
  unfold onBorder, spec_boundaryVelocity, gridSize1d. intros H.
  case_decide; [done|]. lia.
Qed.

Lemma updateGrid_pass_n (cb : list Cell) (fb : list vec4) (n : nat) :
  Z.of_nat n ≤ cellCount → (n ≤ length cb)%nat → (n ≤ length fb)%nat →
  ∃ fb' : list vec4,
    dispatch (updateGridKernel cb) (seq 0 n) fb = Some fb' ∧ length fb' = length fb ∧
    ∀ (i : nat) (c : Cell) (old : vec4),
      (i < n)%nat → cb !! i = Some c → fb !! i = Some old →
      fb' !! i
      = Some (if Qle_bool (decodeFixedPoint (cell_mass c)) 0 then old
              else spec_gridUpdate (i_x (gridCoordsOf (Z.of_nat i)))
                     (i_y (gridCoordsOf (Z.of_nat i))) (i_z (gridCoordsOf (Z.of_nat i))) c).
Proof.
  intros Hn Hcb Hfb.
  destruct (dispatch_pointwise (updateGridKernel cb)
              (λ i old,
                 match cb !! i with
                 | Some c =>
                     if Qle_bool (decodeFixedPoint (cell_mass c)) 0 then old
                     else spec_gridUpdate (i_x (gridCoordsOf (Z.of_nat i)))
                            (i_y (gridCoordsOf (Z.of_nat i)))
                            (i_z (gridCoordsOf (Z.of_nat i))) c
                 | None => old
                 end) fb n) as (fb' & Hd & Hl & Hs); [|done|].
  - intros j s' a Hj Ha.
    destruct (lookup_lt_is_Some_2 cb j ltac:(lia)) as [c Hc].
    rewrite (updateGridKernel_cell cb s' j c a) by (done || lia). by rewrite Hc.
  - exists fb'. split; [done|]. split; [done|]. intros i c old Hi Hc Hold.
    rewrite (Hs i old Hold), decide_True by done. by rewrite Hc.
Qed.

(** X13: the grid update over the whole grid.  On buffers of [cellCount]
    cells the pass has a result.  A cell whose decoded mass is not positive
    keeps what the float buffer held before the pass; a cell of positive
    mass receives momentum over mass and its mass, with the velocity along
    an axis set to zero in the first and in the last layer of that axis. *)
Theorem updateGrid_pass (cellBuffer : list Cell) (cellBufferFloat : list vec4) :
  length cellBuffer = Z.to_nat cellCount →
  length cellBufferFloat = Z.to_nat cellCount →
  ∃ cellBufferFloat' : list vec4,
    compute (updateGridKernel cellBuffer) cellCount cellBufferFloat = Some cellBufferFloat' ∧
    length cellBufferFloat' = Z.to_nat cellCount ∧
    ∀ (i : nat) (c : Cell) (old : vec4),
      cellBuffer !! i = Some c → cellBufferFloat !! i = Some old →
      ∃ v : vec4,
        cellBufferFloat' !! i = Some v ∧
        ((decodeFixedPoint (cell_mass c) <= 0)%Q → v = old) ∧
        ((0 < decodeFixedPoint (cell_mass c))%Q →
         v = spec_gridUpdate (i_x (gridCoordsOf (Z.of_nat i)))
               (i_y (gridCoordsOf (Z.of_nat i))) (i_z (gridCoordsOf (Z.of_nat i))) c ∧
         q_w v = decodeFixedPoint (cell_mass c) ∧
         (onBorder (i_x (gridCoordsOf (Z.of_nat i))) → q_x v = 0%Q) ∧
         (onBorder (i_y (gridCoordsOf (Z.of_nat i))) → q_y v = 0%Q) ∧
         (onBorder (i_z (gridCoordsOf (Z.of_nat i))) → q_z v = 0%Q)).
Proof.
  intros Hcb Hfb.
  destruct (updateGrid_pass_n cellBuffer cellBufferFloat (Z.to_nat cellCount))
    as (fb' & Hd & Hl & Hs); [rewrite cellCount_value; lia | lia | lia |].
  exists fb'. split; [exact Hd|]. split; [lia|].
  intros i c old Hc Hold.
  assert (i < Z.to_nat cellCount)%nat as Hi by (apply lookup_lt_Some in Hc; lia).
  eexists. split; [by apply Hs|]. split.
  - intros Hm. by rewrite (proj2 (Qle_bool_true _ _) Hm).
  - intros Hm. rewrite (proj2 (Qle_bool_false _ _) Hm). split; [done|].
    unfold spec_gridUpdate. cbn [q_x q_y q_z q_w]. split; [done|].
    repeat split; intros Hb; by apply spec_boundaryVelocity_border.
Qed.

Lemma updateGrid_pass_witness :
  ∃ cellBufferFloat' : list vec4,
    compute (updateGridKernel (replicate (Z.to_nat cellCount) (mkCell 5 0 (-3) 20)))
      cellCount (replicate (Z.to_nat cellCount) (Vec4 1 1 1 1)) = Some cellBufferFloat' ∧
    length cellBufferFloat' = Z.to_nat cellCount.
Proof.
  destruct (updateGrid_pass (replicate (Z.to_nat cellCount) (mkCell 5 0 (-3) 20))
              (replicate (Z.to_nat cellCount) (Vec4 1 1 1 1))
              (length_replicate (Z.to_nat cellCount) (mkCell 5 0 (-3) 20))
              (length_replicate (Z.to_nat cellCount) (Vec4 1 1 1 1)))
    as (fb' & H1 & H2 & _).
  exists fb'. split; [exact H1 | exact H2].
Defined.

(** ** Grid to particle: no fault *)

Lemma foldM_is_Some {A St} (f : A → St → option St) (l : list A) :
  (∀ (a : A) (s : St), a ∈ l → is_Some (f a s)) → ∀ s : St, is_Some (foldM f l s).
Proof.
  induction l as [|a l IH]; intros H s; [by eexists|].
  cbn [foldM]. destruct (H a s) as [s' ->]; [apply list_elem_of_here|].
  cbn [mbind option_bind]. apply IH. intros b t Hb. apply H. by apply list_elem_of_further.
Qed.

Lemma Qsquare_nonneg (x : Q) : (0 <= x * x)%Q.
Proof.
  destruct (Qlt_le_dec x 0) as [H|H].
  - assert (x * x == (- x) * (- x))%Q as -> by ring. apply Qmult_le_0_compat; lra.
  - by apply Qmult_le_0_compat.
Qed.

(** The curl vector of the smoke flow is never zero: its components sum
    to [0.3]. *)
Lemma curl_nonzero (n1 n2 n3 : Q) :
  (0 < dot (Vec3 (n3 - n2) (n1 - n3 + (3 # 10)) (n2 - n1))
         (Vec3 (n3 - n2) (n1 - n3 + (3 # 10)) (n2 - n1)))%Q.
Proof.
  unfold dot. cbn [v_x v_y v_z].
  set (a := (n3 - n2)%Q). set (b := (n1 - n3 + (3 # 10))%Q). set (c := (n2 - n1)%Q).
  assert (a + b + c == 3 # 10)%Q as Hs by (unfold a, b, c; ring).
  clearbody a b c.
  pose proof (Qsquare_nonneg (a - b)) as H1. pose proof (Qsquare_nonneg (b - c)) as H2.
  pose proof (Qsquare_nonneg (a - c)) as H3.
  assert ((a + b + c) * (a + b + c) == 9 # 100)%Q as Hq by (rewrite Hs; reflexivity).
  assert (3 * (a * a + b * b + c * c)
          == (a + b + c) * (a + b + c) + (a - b) * (a - b) + (b - c) * (b - c)
             + (a - c) * (a - c))%Q as E by ring.
  set (d := (a * a + b * b + c * c)%Q) in *. clearbody d.
  set (s1 := ((a - b) * (a - b))%Q) in *. set (s2 := ((b - c) * (b - c))%Q) in *.
  set (s3 := ((a - c) * (a - c))%Q) in *. set (s0 := ((a + b + c) * (a + b + c))%Q) in *.
  clearbody s0 s1 s2 s3. lra.
Qed.

Lemma normalize_is_Some (sqrt : Q → Q) (v : vec3) :
  ¬ (vlength sqrt v == 0)%Q → is_Some (normalize sqrt v).
Proof.
  intros H. unfold normalize, fdiv.
  rewrite (proj2 (Qeq_bool_false _ _) H). by eexists.
Qed.

(** An invocation of G2P on a particle whose stencil lies in the grid. *)
Lemma g2pKernel_interior (sin cos sqrt : Q → Q) (u : Uniforms) (targets : Targets)
    (fb : list vec4) (i : nat) (pb : list Particle) (p : Particle) :
  (∀ x : Q, (0 < x)%Q → ¬ (sqrt x == 0)%Q) →
  pb !! i = Some p → interior p → Z.of_nat (length fb) = cellCount →
  is_Some (cubeTargetBuffer targets !! i) → is_Some (coneTargetBuffer targets !! i) →
  is_Some (monkeyTargetBuffer targets !! i) →
  Z.of_nat i < particleCountUniform u →
  ∃ p' : Particle,
    g2pKernel sin cos sqrt u targets fb i pb = Some (<[i := p']> pb) ∧
    targetPosition p' = targetPosition p ∧
    within (position p') clampMin clampMax.
Proof.
  intros Hsqrt Hp Hint Hfb [cube Hcube] [cone Hcone] [monkey Hmonkey] Hact.
  unfold g2pKernel.
  assert ((Z.of_nat i >=? particleCountUniform u) = false) as ->.
  { rewrite Z.geb_leb. by apply Z.leb_gt. }
  rewrite Hp. cbn [mbind option_bind].
  match goal with
  | |- ∃ _, mbind _ ?g = _ ∧ _ => assert (is_Some g) as [[B vel] ->]
  | |- ∃ _, option_bind _ _ _ ?g = _ ∧ _ => assert (is_Some g) as [[B vel] ->]
  end.
  { rewrite stencil_loops. apply foldM_is_Some. intros [gx gy gz] [B vel] Hg.
    cbn [i_x i_y i_z].
    pose proof (interior_stencil_in_grid p (IVec3 gx gy gz) Hint Hg) as Hptr.
    unfold stencilPtr in Hptr.
    destruct (element fb _) as [c|] eqn:Ec; [by eexists|].
    apply element_None in Ec. lia. }
  cbn [mbind option_bind]. rewrite Hcube, Hcone, Hmonkey. cbn [mbind option_bind].
  match goal with
  | |- ∃ _, mbind _ (normalize sqrt ?v) = _ ∧ _ =>
      assert (is_Some (normalize sqrt v)) as [direction ->]
  | |- ∃ _, option_bind _ _ _ (normalize sqrt ?v) = _ ∧ _ =>
      assert (is_Some (normalize sqrt v)) as [direction ->]
  end.
  { apply normalize_is_Some. unfold vlength. apply Hsqrt. apply curl_nonzero. }
  cbn [mbind option_bind]. unfold assign.
  rewrite element_lookup by lia. rewrite Nat2Z.id, Hp. cbn [mbind option_bind].
  eexists. split; [reflexivity|]. split; [reflexivity|].
  cbn [position]. apply vclamp_within; vm_compute; discriminate.
Qed.

Lemma g2pKernel_inactive (sin cos sqrt : Q → Q) (u : Uniforms) (targets : Targets)
    (fb : list vec4) (i : nat) (pb : list Particle) :
  particleCountUniform u ≤ Z.of_nat i →
  g2pKernel sin cos sqrt u targets fb i pb = Some pb.
Proof.
  intros H. unfold g2pKernel.
  assert ((Z.of_nat i >=? particleCountUniform u) = true) as ->; [|done].
  rewrite Z.geb_leb. by apply Z.leb_le.
Qed.

(** The particles a G2P pass needs: in the buffer, with the stencil in
    the grid and the three targets there. *)
Lemma g2p_pass (sin cos sqrt : Q → Q) (u : Uniforms) (targets : Targets)
    (fb : list vec4) (order : list nat) :
  (∀ x : Q, (0 < x)%Q → ¬ (sqrt x == 0)%Q) →
  Z.of_nat (length fb) = cellCount →
  NoDup order →
  ∀ pb : list Particle,
  (∀ i : nat, i ∈ order → Z.of_nat i < particleCountUniform u →
     (∃ p : Particle, pb !! i = Some p ∧ interior p) ∧
     is_Some (cubeTargetBuffer targets !! i) ∧ is_Some (coneTargetBuffer targets !! i) ∧
     is_Some (monkeyTargetBuffer targets !! i)) →
  ∃ pb' : list Particle,
    dispatch (g2pKernel sin cos sqrt u targets fb) order pb = Some pb' ∧
    length pb' = length pb ∧
    (∀ i : nat, i ∉ order ∨ particleCountUniform u ≤ Z.of_nat i → pb' !! i = pb !! i) ∧
    (∀ (i : nat) (p : Particle),
       i ∈ order → Z.of_nat i < particleCountUniform u → pb !! i = Some p →
       ∃ p' : Particle, pb' !! i = Some p' ∧ targetPosition p' = targetPosition p ∧
         within (position p') clampMin clampMax).
Proof.
  intros Hsqrt Hfb. induction 1 as [|j rest Hj Hnd IH]; intros pb Hall.
  - exists pb. split; [done|]. split; [done|]. split; [done|].
    intros i p Hi. by apply elem_of_nil in Hi.
  - cbn [dispatch].
    destruct (decide (Z.of_nat j < particleCountUniform u)) as [Hact|Hin].
    + destruct (Hall j) as ((p & Hp & Hint) & Tc & To & Tm); [apply list_elem_of_here|done|].
      destruct (g2pKernel_interior sin cos sqrt u targets fb j pb p Hsqrt Hp Hint Hfb
                  Tc To Tm Hact) as (p' & -> & Htp & Hw).
      rewrite bind_Some.
      destruct (IH (<[j := p']> pb)) as (pb' & Hd & Hl & Hother & Hres).
      { intros i Hi Hai. assert (i ≠ j) as Hne by (intros ->; done).
        rewrite list_lookup_insert_ne by done. apply Hall; [by apply list_elem_of_further|done]. }
      exists pb'. split; [done|]. rewrite length_insert in Hl. split; [done|]. split.
      * intros i Hi. rewrite Hother.
        -- apply list_lookup_insert_ne. destruct Hi as [Hi|Hi]; [|lia].
           intros ->. apply Hi, list_elem_of_here.
        -- destruct Hi as [Hi|Hi]; [left|by right]. intros Hr. apply Hi.
           by apply list_elem_of_further.
      * intros i q Hi Hai Hq. apply elem_of_cons in Hi as [->|Hi].
        -- exists p'. split; [|split; [congruence|done]].
           rewrite Hother by (by left). apply list_lookup_insert_eq.
           by apply lookup_lt_Some in Hp.
        -- apply Hres; [done|done|]. assert (i ≠ j) as Hne by (intros ->; done).
           by rewrite list_lookup_insert_ne.
    + rewrite g2pKernel_inactive by lia. rewrite bind_Some.
      destruct (IH pb) as (pb' & Hd & Hl & Hother & Hres).
      { intros i Hi Hai. apply Hall; [by apply list_elem_of_further|done]. }
      exists pb'. split; [done|]. split; [done|]. split.
      * intros i Hi. apply Hother. destruct Hi as [Hi|Hi]; [|by right].
        destruct (decide (i = j)) as [->|Hne]; [right; lia|left].
        intros Hr. apply Hi. by apply list_elem_of_further.
      * intros i q Hi Hai Hq. apply elem_of_cons in Hi as [->|Hi]; [lia|]. by apply Hres.
Qed.

(** ** The compute passes of a frame *)

Lemma p2g2_dispatch_length (u : Uniforms) (pb : list Particle) (order : list nat) :
  ∀ cb cb' : list Cell,
  dispatch (p2g2Kernel u pb) order cb = Some cb' → length cb' = length cb.
Proof.
  induction order as [|i order IH]; intros cb cb' H.
  - cbn in H. by injection H as <-.
  - cbn [dispatch] in H.
    destruct (p2g2Kernel u pb i cb) as [cb1|] eqn:E; cbn [mbind option_bind] in H; [|done].
    rewrite (IH cb1 cb' H). rewrite p2g2Kernel_contrib in E.
    destruct (p2g2Contrib u pb i cb) as [ops|]; cbn [mbind option_bind] in E; [|done].
    by apply applyOps_length in E.
Qed.

(** The two scatter passes from the cleared grid. *)
Lemma scatter_passes_succeed (u : Uniforms) (pb : list Particle) (order : list nat) :
  activeInterior u pb order → massFits (p2g1PassOps u pb order) →
  ∃ cb1 cb2 : list Cell,
    dispatch (p2g1Kernel u pb) order clearedGrid = Some cb1 ∧
    dispatch (p2g2Kernel u pb) order cb1 = Some cb2 ∧
    length cb2 = Z.to_nat cellCount.
Proof.
  intros Hact Hfit.
  destruct (p2g1_pass_succeeds u pb order Hact) as (cb1 & Hd & Ha).
  assert (length cb1 = Z.to_nat cellCount) as Hlen1.
  { by rewrite (applyOps_length _ _ _ Ha), length_replicate. }
  assert (Z.of_nat (length cb1) = cellCount) as Hlen.
  { rewrite Hlen1, Z2Nat.id; [done|]. rewrite cellCount_value. lia. }
  destruct (p2g2_pass_succeeds u pb order cb1 Hact Hlen) with (cb := cb1) as [cb2 Hd2];
    [|done|done|].
  - intros p Hp. pose proof (ownDensity_positive p) as Hpos.
    assert (ownDensity p <= densityOf (massOf cb1) p)%Q as Hge.
    { apply densityOf_ge_own. by apply (masses_ge_own u pb order cb1 p). }
    lra.
  - exists cb1, cb2. split; [done|]. split; [done|].
    by rewrite (p2g2_dispatch_length _ _ _ _ _ Hd2).
Qed.

Lemma activeInterior_all (u : Uniforms) (pb : list Particle) (order : list nat) :
  (∀ i : nat, Z.of_nat i < particleCountUniform u →
     ∃ p : Particle, pb !! i = Some p ∧ interior p) →
  activeInterior u pb order.
Proof. intros H. apply list.Forall_forall. intros i _ Hi. by apply H. Qed.

(** X14: the compute passes of a frame run to the end.  When the two grid
    buffers have [cellCount] cells, every active particle is in the buffer
    with its stencil inside the grid and has its three targets, no cell
    accumulates more mass than 32 bits hold, and the square root of a
    positive number is not zero, the five passes of the frame have a
    result: no pass reads or writes outside of a buffer and none divides by
    zero.  The passes keep the size of every buffer, leave the inactive
    particles as they were, and leave every active particle with its
    target position and with a position within the bounds of the clamp. *)
Theorem frame_compute_succeeds (sin cos sqrt : Q → Q) (u : Uniforms) (targets : Targets)
    (g : Gpu) :
  (∀ x : Q, (0 < x)%Q → ¬ (sqrt x == 0)%Q) →
  length (gpu_cellBuffer g) = Z.to_nat cellCount →
  length (gpu_cellBufferFloat g) = Z.to_nat cellCount →
  (∀ i : nat, Z.of_nat i < particleCountUniform u →
     (∃ p : Particle, gpu_particleBuffer g !! i = Some p ∧ interior p) ∧
     is_Some (cubeTargetBuffer targets !! i) ∧ is_Some (coneTargetBuffer targets !! i) ∧
     is_Some (monkeyTargetBuffer targets !! i)) →
  massFits (p2g1PassOps u (gpu_particleBuffer g) (seq 0 (Z.to_nat params_particleCount))) →
  ∃ g' : Gpu,
    renderCompute sin cos sqrt u targets g = Some g' ∧
    length (gpu_particleBuffer g') = length (gpu_particleBuffer g) ∧
    length (gpu_cellBuffer g') = Z.to_nat cellCount ∧
    length (gpu_cellBufferFloat g') = Z.to_nat cellCount ∧
    (∀ i : nat,
       particleCountUniform u ≤ Z.of_nat i ∨ params_particleCount ≤ Z.of_nat i →
       gpu_particleBuffer g' !! i = gpu_particleBuffer g !! i) ∧
    (∀ (i : nat) (p : Particle),
       Z.of_nat i < particleCountUniform u → Z.of_nat i < params_particleCount →
       gpu_particleBuffer g !! i = Some p →
       ∃ p' : Particle,
         gpu_particleBuffer g' !! i = Some p' ∧ targetPosition p' = targetPosition p ∧
         within (position p') clampMin clampMax).
Proof.
  intros Hsqrt Hcb Hfb Hall Hfit. destruct g as [pb cb fb].
  cbn [gpu_particleBuffer gpu_cellBuffer gpu_cellBufferFloat] in *.
  rewrite renderCompute_from_cleared by done.
  cbn [gpu_particleBuffer gpu_cellBuffer gpu_cellBufferFloat]. unfold compute.
  assert (NoDup (seq 0 (Z.to_nat params_particleCount))) as Hnd by apply NoDup_seq.
  assert (∀ i : nat, i ∈ seq 0 (Z.to_nat params_particleCount)
                     ↔ Z.of_nat i < params_particleCount) as Hmem.
  { intros i. rewrite elem_of_seq. lia. }
  set (order := seq 0 (Z.to_nat params_particleCount)) in *. clearbody order.
  destruct (scatter_passes_succeed u pb order) as (cb1 & cb2 & -> & Hd2 & Hl2);
    [apply activeInterior_all; intros i Hi; by destruct (Hall i Hi) | done |].
  rewrite bind_Some, Hd2, bind_Some.
  destruct (updateGrid_pass_n cb2 fb (Z.to_nat cellCount)) as (fb' & -> & Hlf & _);
    [rewrite cellCount_value; lia | lia | lia |].
  rewrite bind_Some.
  destruct (g2p_pass sin cos sqrt u targets fb' order Hsqrt) with (pb := pb)
    as (pb' & -> & Hlp & Hother & Hres); [|done| |].
  - rewrite Hlf, Hfb, Z2Nat.id; [done|]. rewrite cellCount_value. lia.
  - intros i _ Hi. by apply Hall.
  - rewrite bind_Some. eexists. split; [reflexivity|].
    cbn [gpu_particleBuffer gpu_cellBuffer gpu_cellBufferFloat].
    split; [done|]. split; [done|]. split; [lia|]. split.
    + intros i Hi. apply Hother. destruct Hi as [Hi|Hi]; [by right|left].
      rewrite Hmem. lia.
    + intros i p Hi Hi' Hp. apply Hres; [by apply Hmem|done|done].
Qed.

Lemma sqrt_on_squares_positive (x : Q) : (0 < x)%Q → ¬ (sqrt_on_squares x == 0)%Q.
Proof.
  intros Hx. unfold sqrt_on_squares.
  assert (0 < Qred x)%Q as Hr by (by rewrite Qred_correct).
  destruct (Qred x) as [n d]. unfold Qlt in Hr. cbn [Qnum Qden] in Hr.
  assert (0 < Z.sqrt n) as Hs by (apply Z.sqrt_pos; lia).
  intros H. unfold Qeq in H. cbn [Qnum Qden] in H. lia.
Qed.

Lemma activeParticles_seq_length (u : Uniforms) (pb : list Particle) (n : nat) :
  (length (activeParticles u pb (seq 0 n)) ≤ Nat.min n (length pb))%nat.
Proof.
  induction n as [|n IH]; [cbn; lia|].
  rewrite seq_S. unfold activeParticles in *. rewrite omap_app, length_app.
  cbn [omap Nat.add list_omap].
  destruct (Z.of_nat n >=? particleCountUniform u); [cbn [length]; lia|].
  destruct (pb !! n) as [p|] eqn:E; [|cbn [length]; lia].
  apply lookup_lt_Some in E. cbn [length]. lia.
Qed.

Lemma frame_compute_succeeds_witness :
  ∃ g' : Gpu,
    renderCompute sin_approx cos_approx sqrt_on_squares example_uniforms2 example_targets2
      example_gpu = Some g' ∧
    length (gpu_particleBuffer g') = 2%nat.
Proof.
  destruct (frame_compute_succeeds sin_approx cos_approx sqrt_on_squares example_uniforms2
              example_targets2 example_gpu) as (g' & H1 & H2 & _).
  - exact sqrt_on_squares_positive.
  - exact (length_replicate (Z.to_nat cellCount) (mkCell 3 0 0 9)).
  - exact (length_replicate (Z.to_nat cellCount) (Vec4 0 0 0 0)).
  - intros [|[|i]] Hi.
    + split; [|repeat split; by eexists].
      eexists. split; [reflexivity|].
      repeat split; vm_compute; first [discriminate | reflexivity].
    + split; [|repeat split; by eexists].
      eexists. split; [reflexivity|].
      repeat split; vm_compute; first [discriminate | reflexivity].
    + cbn [particleCountUniform example_uniforms2] in Hi. lia.
  - apply massFits_few.
    + apply activeInterior_all. intros [|[|i]] Hi.
      * eexists. split; [reflexivity|].
        repeat split; vm_compute; first [discriminate | reflexivity].
      * eexists. split; [reflexivity|].
        repeat split; vm_compute; first [discriminate | reflexivity].
      * cbn [particleCountUniform example_uniforms2] in Hi. lia.
    + pose proof (activeParticles_seq_length example_uniforms2 example_particles
                    (Z.to_nat params_particleCount)) as Hl.
      cbn [gpu_particleBuffer example_gpu].
      assert (length example_particles = 2%nat) as E by reflexivity.
      rewrite E in Hl. unfold i32_max. lia.
  - exists g'. split; [exact H1 | exact H2].
Defined.

(** ** Grid to particle: the velocity gradient *)

Lemma axis_second_moment (d a0 a1 a2 : Q) :
  (a0 == inject_Z 0 - 1 - d)%Q → (a1 == inject_Z 1 - 1 - d)%Q → (a2 == inject_Z 2 - 1 - d)%Q →
  ((1 # 2) * ((1 # 2) - d) * ((1 # 2) - d) * (a0 * a0) + ((3 # 4) - d * d) * (a1 * a1)
   + (1 # 2) * ((1 # 2) + d) * ((1 # 2) + d) * (a2 * a2) == 1 # 4)%Q.
Proof.
  intros -> -> ->. change (inject_Z 0) with 0%Q. change (inject_Z 1) with 1%Q.
  change (inject_Z 2) with 2%Q. ring.
Qed.

(** Weights that sum to one on every axis, with offsets of weighted mean
    zero and weighted mean square a quarter: the weighted sum of an affine
    function of the offsets times the offset on one axis is a quarter of
    the coefficient of that axis. *)
Lemma stencil_quadratic_sum (wx wy wz ax ay az : Z → Q) (K c0 c1 c2 : Q) :
  (wx 0%Z + wx 1%Z + wx 2%Z == 1)%Q → (wy 0%Z + wy 1%Z + wy 2%Z == 1)%Q →
  (wz 0%Z + wz 1%Z + wz 2%Z == 1)%Q →
  (wx 0%Z * ax 0%Z + wx 1%Z * ax 1%Z + wx 2%Z * ax 2%Z == 0)%Q →
  (wy 0%Z * ay 0%Z + wy 1%Z * ay 1%Z + wy 2%Z * ay 2%Z == 0)%Q →
  (wz 0%Z * az 0%Z + wz 1%Z * az 1%Z + wz 2%Z * az 2%Z == 0)%Q →
  (wx 0%Z * (ax 0%Z * ax 0%Z) + wx 1%Z * (ax 1%Z * ax 1%Z) + wx 2%Z * (ax 2%Z * ax 2%Z)
   == 1 # 4)%Q →
  (wy 0%Z * (ay 0%Z * ay 0%Z) + wy 1%Z * (ay 1%Z * ay 1%Z) + wy 2%Z * (ay 2%Z * ay 2%Z)
   == 1 # 4)%Q →
  (wz 0%Z * (az 0%Z * az 0%Z) + wz 1%Z * (az 1%Z * az 1%Z) + wz 2%Z * (az 2%Z * az 2%Z)
   == 1 # 4)%Q →
  ∀ k : Axis,
  (sumQ (map (λ g : ivec3,
                wx (i_x g) * wy (i_y g) * wz (i_z g)
                * (K + (c0 * ax (i_x g) + c1 * ay (i_y g) + c2 * az (i_z g)))
                * match k with AX => ax (i_x g) | AY => ay (i_y g) | AZ => az (i_z g) end)
           stencilOffsets)
   == match k with AX => c0 | AY => c1 | AZ => c2 end * (1 # 4))%Q.
Proof.
  intros Sx Sy Sz Mx My Mz Qx Qy Qz k. rewrite stencilOffsets_eq.
  cbn [map sumQ foldr i_x i_y i_z].
  set (X := (wx 0%Z + wx 1%Z + wx 2%Z)%Q) in *. set (Y := (wy 0%Z + wy 1%Z + wy 2%Z)%Q) in *.
  set (Z' := (wz 0%Z + wz 1%Z + wz 2%Z)%Q) in *.
  set (MX := (wx 0%Z * ax 0%Z + wx 1%Z * ax 1%Z + wx 2%Z * ax 2%Z)%Q) in *.
  set (MY := (wy 0%Z * ay 0%Z + wy 1%Z * ay 1%Z + wy 2%Z * ay 2%Z)%Q) in *.
  set (MZ := (wz 0%Z * az 0%Z + wz 1%Z * az 1%Z + wz 2%Z * az 2%Z)%Q) in *.
  set (QX := (wx 0%Z * (ax 0%Z * ax 0%Z) + wx 1%Z * (ax 1%Z * ax 1%Z)
              + wx 2%Z * (ax 2%Z * ax 2%Z))%Q) in *.
  set (QY := (wy 0%Z * (ay 0%Z * ay 0%Z) + wy 1%Z * (ay 1%Z * ay 1%Z)
              + wy 2%Z * (ay 2%Z * ay 2%Z))%Q) in *.
  set (QZ := (wz 0%Z * (az 0%Z * az 0%Z) + wz 1%Z * (az 1%Z * az 1%Z)
              + wz 2%Z * (az 2%Z * az 2%Z))%Q) in *.
  destruct k.
  - transitivity (K * MX * Y * Z' + c0 * QX * Y * Z' + c1 * MX * MY * Z' + c2 * MX * Y * MZ)%Q.
    + unfold X, Y, Z', MX, MY, MZ, QX, QY, QZ. ring.
    + rewrite Sy, Sz, Mx, My, Mz, Qx. ring.
  - transitivity (K * X * MY * Z' + c0 * MX * MY * Z' + c1 * X * QY * Z' + c2 * X * MY * MZ)%Q.
    + unfold X, Y, Z', MX, MY, MZ, QX, QY, QZ. ring.
    + rewrite Sx, Sz, Mx, My, Mz, Qy. ring.
  - transitivity (K * X * Y * MZ + c0 * MX * Y * MZ + c1 * X * MY * MZ + c2 * X * Y * QZ)%Q.
    + unfold X, Y, Z', MX, MY, MZ, QX, QY, QZ. ring.
    + rewrite Sx, Sy, Mx, My, Mz, Qz. ring.
Qed.

Lemma stencil_quadratic (p : Particle) (K c0 c1 c2 : Q) (k : Axis) :
  unitCube (position p) →
  (sumQ (map (λ g : ivec3,
                stencilWeight p g
                * (K + (c0 * v_x (stencilDist p g) + c1 * v_y (stencilDist p g)
                        + c2 * v_z (stencilDist p g)))
                * coord k (stencilDist p g))
           stencilOffsets)
   == match k with AX => c0 | AY => c1 | AZ => c2 end * (1 # 4))%Q.
Proof.
  intros Hpos. destruct (unitCube_gridPosition _ Hpos) as ((X0 & X1) & (Y0 & Y1) & (Z0 & Z1)).
  unfold stencilWeight, stencilDist.
  set (gp := gridPositionOf (position p)) in *. clearbody gp. destruct gp as [gx gy gz].
  cbn [v_x v_y v_z] in *.
  set (cd := Vec3 (fract gx - (1 # 2)) (fract gy - (1 # 2)) (fract gz - (1 # 2))).
  transitivity
    (sumQ (map (λ g : ivec3,
                  (λ k, v_x (weights cd k)) (i_x g) * (λ k, v_y (weights cd k)) (i_y g)
                  * (λ k, v_z (weights cd k)) (i_z g)
                  * (K + (c0 * (λ k, float (int gx - 1 + k) + (1 # 2) - gx) (i_x g)
                          + c1 * (λ k, float (int gy - 1 + k) + (1 # 2) - gy) (i_y g)
                          + c2 * (λ k, float (int gz - 1 + k) + (1 # 2) - gz) (i_z g)))
                  * match k with
                    | AX => (λ k, float (int gx - 1 + k) + (1 # 2) - gx) (i_x g)
                    | AY => (λ k, float (int gy - 1 + k) + (1 # 2) - gy) (i_y g)
                    | AZ => (λ k, float (int gz - 1 + k) + (1 # 2) - gz) (i_z g)
                    end)%Q
             stencilOffsets)).
  { apply sumQ_ext. intros g. destruct k; reflexivity. }
  apply (stencil_quadratic_sum (λ k, v_x (weights cd k)) (λ k, v_y (weights cd k))
           (λ k, v_z (weights cd k))
           (λ k, float (int gx - 1 + k) + (1 # 2) - gx)%Q
           (λ k, float (int gy - 1 + k) + (1 # 2) - gy)%Q
           (λ k, float (int gz - 1 + k) + (1 # 2) - gz)%Q).
  - cbn. ring.
  - cbn. ring.
  - cbn. ring.
  - cbn [weights w0 w1 w2 vmap v_x cd]. apply axis_first_moment; by apply axis_dist.
  - cbn [weights w0 w1 w2 vmap v_y cd]. apply axis_first_moment; by apply axis_dist.
  - cbn [weights w0 w1 w2 vmap v_z cd]. apply axis_first_moment; by apply axis_dist.
  - cbn [weights w0 w1 w2 vmap v_x cd]. apply axis_second_moment; by apply axis_dist.
  - cbn [weights w0 w1 w2 vmap v_y cd]. apply axis_second_moment; by apply axis_dist.
  - cbn [weights w0 w1 w2 vmap v_z cd]. apply axis_second_moment; by apply axis_dist.
Qed.

Lemma g2pGatherStep_Some (u : Uniforms) (fb : list vec4) (p : Particle) (g : ivec3)
    (B0 : mat3) (v0 : vec3) (c : vec4) :
  element fb (stencilPtr p g) = Some c →
  g2pGatherStep u fb p g (B0, v0)
  = Some (madd B0 (Mat3 (vscale (vscale (xyz c) (stencilWeight p g)) (v_x (stencilDist p g)))
                        (vscale (vscale (xyz c) (stencilWeight p g)) (v_y (stencilDist p g)))
                        (vscale (vscale (xyz c) (stencilWeight p g)) (v_z (stencilDist p g)))),
          vadd v0 (vscale (vscale (xyz c) (stencilWeight p g)) (fluidStrengthUniform u))).
Proof.
  intros Hc. unfold stencilPtr in Hc. unfold g2pGatherStep. cbv beta iota zeta.
  by rewrite Hc.
Qed.

(** What the gather loops accumulate in [B]. *)
Lemma gather_run (u : Uniforms) (fb : list vec4) (p : Particle) (F : ivec3 → vec3)
    (l : list ivec3) : ∀ (B0 : mat3) (v0 : vec3) (B : mat3) (vel : vec3),
  foldM (g2pGatherStep u fb p) l (B0, v0) = Some (B, vel) →
  (∀ g : ivec3, g ∈ l →
     ∃ c : vec4, element fb (stencilPtr p g) = Some c ∧ veq (xyz c) (F g)) →
  ∀ j k : Axis,
    (coord j (column k B)
     == coord j (column k B0)
        + sumQ (map (λ g, stencilWeight p g * coord j (F g) * coord k (stencilDist p g)) l))%Q.
Proof.
  induction l as [|g l IH]; intros B0 v0 B vel H HF j k.
  - cbn in H. injection H as <- <-. cbn [map sumQ foldr]. ring.
  - cbn [foldM] in H.
    destruct (HF g) as (c & Hc & (Ex & Ey & Ez)); [apply list_elem_of_here|].
    rewrite (g2pGatherStep_Some u fb p g B0 v0 c Hc) in H. cbn [mbind option_bind] in H.
    rewrite (IH _ _ B vel H) by (intros g' Hg'; apply HF; by apply list_elem_of_further).
    cbn [map sumQ foldr].
    fold (sumQ (map (λ g, (stencilWeight p g * coord j (F g) * coord k (stencilDist p g))%Q) l)).
    cbn [xyz v_x v_y v_z] in Ex, Ey, Ez.
    destruct j, k;
      unfold coord, column, madd, vadd, vscale, vzip, vmap, xyz;
      cbn [col0 col1 col2 v_x v_y v_z];
      rewrite ?Ex, ?Ey, ?Ez; ring.
Qed.

(** On an affine grid velocity field the matrix [B] of the gather loops
    is a quarter of the gradient of the field. *)
Lemma gather_affine (u : Uniforms) (fb : list vec4) (p : Particle) (A : mat3) (b : vec3)
    (B : mat3) (vel : vec3) :
  unitCube (position p) →
  foldM (g2pGatherStep u fb p) stencilOffsets (mat3_splat 0, vec3_splat 0) = Some (B, vel) →
  (∀ g : ivec3, g ∈ stencilOffsets →
     ∃ c : vec4, element fb (stencilPtr p g) = Some c ∧
       veq (xyz c)
         (affineField A b (cellCentre (iadd (cellIndexOf (gridPositionOf (position p))) g)))) →
  ∀ j k : Axis, (coord j (column k B) == coord j (column k A) * (1 # 4))%Q.
Proof.
  intros Hpos HB HF j k.
  rewrite (gather_run u fb p _ stencilOffsets _ _ B vel HB HF j k).
  set (gp := gridPositionOf (position p)).
  transitivity
    (0 + sumQ (map (λ g : ivec3,
                      stencilWeight p g
                      * (coord j (affineField A b gp)
                         + (coord j (col0 A) * v_x (stencilDist p g)
                            + coord j (col1 A) * v_y (stencilDist p g)
                            + coord j (col2 A) * v_z (stencilDist p g)))
                      * coord k (stencilDist p g))
                 stencilOffsets))%Q.
  { apply Qplus_comp.
    - destruct j, k; reflexivity.
    - apply sumQ_ext. intros g. unfold stencilDist. fold gp.
      set (cellX := iadd (cellIndexOf gp) g).
      assert (coord j (affineField A b (cellCentre cellX))
              == coord j (affineField A b gp)
                 + (coord j (col0 A) * v_x (cellDistOf cellX gp)
                    + coord j (col1 A) * v_y (cellDistOf cellX gp)
                    + coord j (col2 A) * v_z (cellDistOf cellX gp)))%Q as ->; [|reflexivity].
      unfold cellDistOf, cellCentre.
      set (x := vadds (vec3_of_ivec3 cellX) (1 # 2)). clearbody x.
      destruct j; unfold coord, affineField, mmulv, vadd, vsub, vscale, vzip, vmap;
        cbn [v_x v_y v_z]; ring. }
  rewrite (stencil_quadratic p _ _ _ _ k Hpos).
  destruct k; cbn [column]; ring.
Qed.

Lemma affineGrid_element (A : mat3) (b : vec3) (n : nat) (ptr : Z) :
  0 ≤ ptr < Z.of_nat n →
  element (affineGrid A b n) ptr
  = Some (let v := affineField A b (cellCentre (gridCoordsOf ptr)) in
          Vec4 (v_x v) (v_y v) (v_z v) 1).
Proof.
  intros H. rewrite element_lookup by lia.
  unfold affineGrid. rewrite list_lookup_fmap, lookup_seq_lt by lia.
  cbn [fmap option_fmap option_map Nat.add]. by rewrite Z2Nat.id by lia.
Qed.

Lemma example_affine_field (g : ivec3) :
  g ∈ stencilOffsets →
  ∃ c : vec4,
    element (affineGrid example_gradient example_offset (Z.to_nat 8384)) (stencilPtr example_particle g)
    = Some c ∧
    veq (xyz c)
      (affineField example_gradient example_offset
         (cellCentre (iadd (cellIndexOf (gridPositionOf (position example_particle))) g))).
Proof.
  intros Hg. apply list_elem_of_In in Hg. cbn in Hg.
  eexists. split.
  - apply affineGrid_element.
    repeat (destruct Hg as [<-|Hg]; [vm_compute; split; [discriminate|reflexivity]|]).
    destruct Hg.
  - repeat (destruct Hg as [<-|Hg]; [repeat split; vm_compute; reflexivity|]).
    destruct Hg.
Qed.

(** X15: grid to particle recovers the gradient of an affine grid velocity
    field. For an active particle inside the unit cube whose 27 stencil
    cells hold the velocities [A x + b] taken at the cell centres, G2P
    succeeds and stores [C = fluidStrength * A] on the particle, exactly:
    the factor 4 of the kernel is the inverse of the second moment 1/4 of
    the quadratic weights. *)
Theorem g2p_affine_gradient (sin cos sqrt : Q → Q) (u : Uniforms) (targets : Targets)
    (fb : list vec4) (i : nat) (pb : list Particle) (p : Particle) (A : mat3) (b : vec3) :
  (∀ x : Q, (0 < x)%Q → ¬ (sqrt x == 0)%Q) →
  pb !! i = Some p → unitCube (position p) →
  is_Some (cubeTargetBuffer targets !! i) → is_Some (coneTargetBuffer targets !! i) →
  is_Some (monkeyTargetBuffer targets !! i) →
  Z.of_nat i < particleCountUniform u →
  (∀ g : ivec3, g ∈ stencilOffsets →
     ∃ c : vec4, element fb (stencilPtr p g) = Some c ∧
       veq (xyz c)
         (affineField A b (cellCentre (iadd (cellIndexOf (gridPositionOf (position p))) g)))) →
  ∃ p' : Particle,
    g2pKernel sin cos sqrt u targets fb i pb = Some (<[i := p']> pb) ∧
    meq (C p') (mscale A (fluidStrengthUniform u)).
Proof.
  intros Hsqrt Hp Hpos [cube Hcube] [cone Hcone] [monkey Hmonkey] Hact HF.
  unfold g2pKernel.
  assert ((Z.of_nat i >=? particleCountUniform u) = false) as ->.
  { rewrite Z.geb_leb. by apply Z.leb_gt. }
  rewrite Hp. cbn [mbind option_bind].
  rewrite stencil_loops.
  rewrite (foldM_ext _ (g2pGatherStep u fb p))
    by (intros [gx gy gz] [B0 v0]; reflexivity).
  assert (is_Some (foldM (g2pGatherStep u fb p) stencilOffsets (mat3_splat 0, vec3_splat 0)))
    as [[B vel] HB].
  { apply foldM_is_Some. intros g [B0 v0] Hg. destruct (HF g Hg) as (c & Hc & _).
    rewrite (g2pGatherStep_Some u fb p g B0 v0 c Hc). by eexists. }
  rewrite HB. cbn [mbind option_bind]. rewrite Hcube, Hcone, Hmonkey.
  cbn [mbind option_bind].
  match goal with
  | |- ∃ _, mbind _ (normalize sqrt ?v) = _ ∧ _ =>
      assert (is_Some (normalize sqrt v)) as [direction ->]
  | |- ∃ _, option_bind _ _ _ (normalize sqrt ?v) = _ ∧ _ =>
      assert (is_Some (normalize sqrt v)) as [direction ->]
  end.
  { apply normalize_is_Some. unfold vlength. apply Hsqrt. apply curl_nonzero. }
  cbn [mbind option_bind]. unfold assign.
  rewrite element_lookup by (apply lookup_lt_Some in Hp; lia).
  rewrite Nat2Z.id, Hp. cbn [mbind option_bind].
  eexists. split; [reflexivity|]. cbn [C].
  pose proof (gather_affine u fb p A b B vel Hpos HB HF) as HG.
  unfold meq, veq, mscale, vscale, vmap. cbn [col0 col1 col2 v_x v_y v_z].
  pose proof (HG AX AX) as Hxx. pose proof (HG AY AX) as Hyx. pose proof (HG AZ AX) as Hzx.
  pose proof (HG AX AY) as Hxy. pose proof (HG AY AY) as Hyy. pose proof (HG AZ AY) as Hzy.
  pose proof (HG AX AZ) as Hxz. pose proof (HG AY AZ) as Hyz. pose proof (HG AZ AZ) as Hzz.
  cbn [coord column] in Hxx, Hyx, Hzx, Hxy, Hyy, Hzy, Hxz, Hyz, Hzz.
  repeat split;
    first [rewrite Hxx | rewrite Hyx | rewrite Hzx | rewrite Hxy | rewrite Hyy
          | rewrite Hzy | rewrite Hxz | rewrite Hyz | rewrite Hzz]; ring.
Qed.

Lemma g2p_affine_gradient_witness :
  ∃ p' : Particle,
    g2pKernel sin_approx cos_approx sqrt_on_squares example_uniforms example_targets
      (affineGrid example_gradient example_offset (Z.to_nat 8384)) 0 [example_particle]
    = Some [p'] ∧
    meq (C p') (mscale example_gradient params_fluidStrength).
Proof.
  apply (g2p_affine_gradient sin_approx cos_approx sqrt_on_squares example_uniforms
           example_targets (affineGrid example_gradient example_offset (Z.to_nat 8384)) 0
           [example_particle] example_particle example_gradient example_offset).
  - exact sqrt_on_squares_positive.
  - reflexivity.
  - repeat split; vm_compute; discriminate.
  - by eexists.
  - by eexists.
  - by eexists.
  - reflexivity.
  - exact example_affine_field.
Defined.

(** ** The pointer force between pointer events *)

Lemma hostFrames_pointer (sqrt : Q → Q) (frames : list (Q * Q)) : ∀ h : Host,
  mouseCoord (hostFrames sqrt frames h) = mouseCoord h ∧
  (frames ≠ [] → prevMouseCoord (hostFrames sqrt frames h) = mouseCoord h).
Proof.
  induction frames as [|f rest IH]; intros h; [by split|].
  unfold hostFrames. cbn [foldl]. fold (hostFrames sqrt rest (renderHost sqrt f.1 f.2 h)).
  destruct (IH (renderHost sqrt f.1 f.2 h)) as [H1 H2]. cbn [mouseCoord renderHost] in H1, H2.
  split; [exact H1|]. intros _.
  destruct rest as [|f' rest]; [reflexivity|]. by apply H2.
Qed.

Lemma pointerForce_still (sqrt : Q → Q) (c : vec3) : veq (pointerForce sqrt c c) (Vec3 0 0 0).
Proof.
  unfold pointerForce.
  destruct (Qltb _ _); destruct c as [x y z];
    unfold veq, vscale, vsub, vzip, vmap; cbn [v_x v_y v_z]; repeat split; ring.
Qed.

(** X16: the pointer pushes the particles for one frame only. [render]
    copies the pointer position to [prevMouseCoord] at the end of its host
    part, so in every frame that follows at least one frame without a
    pointer event in between, the force handed to the kernels is the zero
    vector, whatever the clock and whatever the earlier pointer positions
    were. *)
Theorem pointer_force_vanishes (sqrt : Q → Q) (h : Host) (f : Q * Q) (rest : list (Q * Q))
    (clockDelta elapsedTime : Q) :
  veq (mouseForceUniform
         (uniforms (renderHost sqrt clockDelta elapsedTime (hostFrames sqrt (f :: rest) h))))
      (Vec3 0 0 0) ∧
  mouseCoord (renderHost sqrt clockDelta elapsedTime (hostFrames sqrt (f :: rest) h))
  = mouseCoord h.
Proof.
  destruct (hostFrames_pointer sqrt (f :: rest) h) as [H1 H2].
  cbn [renderHost uniforms mouseForceUniform mouseCoord].
  rewrite (H2 ltac:(done)), H1. split; [apply pointerForce_still | reflexivity].
Qed.
